(** * moleculer-database: the service methods of [src/methods.js]

    A shallow embedding of the mixin's methods: the multi-tenant adapter
    pool ([getAdapter], [maintenanceAdapters], [_connect], [_disconnect]),
    the scope resolver ([_applyScopes]), the field-name translator and the
    entity pipeline ([resolveEntities], [createEntity], [updateEntity], ...).

    JavaScript values are a small inductive type; an [async] method is a
    computation in a resumption monad whose suspension points are the
    [await]s of the source.  The storage adapters, the validator, the
    transformer, the authority check and the hooks are external: a call to
    one of them suspends the method, and the answer comes from the
    environment. *)

From Stdlib Require Import List String ZArith Bool Lia Permutation Sorted.
From Stdlib Require Import Ascii DecimalString.
Import ListNotations.

Open Scope string_scope.
Open Scope list_scope.
Open Scope Z_scope.

Set Warnings "-register-all".
Set Warnings "-notation-overridden".
Set Warnings "-ambiguous-paths".

(** ** JavaScript values *)

(** Numbers are integers here (identifiers, timestamps, counters), among
    those JavaScript holds exactly and writes digit by digit (the safe
    integers); the methods below do no fractional arithmetic.  A string
    has one character per element.  [VInstance] is an object that is
    neither a plain object nor a bare array (a Date, an ObjectID, a class
    instance, a boxed primitive, an array that carries named properties):
    lodash's [isPlainObject] is false on it; [str] is the string it
    converts to, ["[object Object]"] unless its class says otherwise. *)
Inductive value : Type :=
| VUndefined
| VNull
| VBool (b : bool)
| VNum (n : Z)
| VStr (s : string)
| VArr (items : list value)
| VObj (props : list (string * value))
| VInstance (str : string) (props : list (string * value)).

(** An object's own properties, in insertion order.  JavaScript lists the
    keys that are array indices first, in ascending order; here they stay
    where they were set, so that two objects with the same properties may
    differ in the order of their keys, and in nothing else. *)
Definition obj := list (string * value).

Module Obj.

(** [o[k]]; [undefined] when [k] is not a property. *)
Fixpoint get (k : string) (o : obj) : value :=
  match o with
  | [] => VUndefined
  | (k', v) :: o' => if String.eqb k k' then v else get k o'
  end.

Fixpoint has (k : string) (o : obj) : bool :=
  match o with
  | [] => false
  | (k', _) :: o' => String.eqb k k' || has k o'
  end.

(** [o[k] = v]: an existing property keeps its place, a new one goes last. *)
Fixpoint set (k : string) (v : value) (o : obj) : obj :=
  match o with
  | [] => [(k, v)]
  | (k', v') :: o' =>
      if String.eqb k k' then (k, v) :: o' else (k', v') :: set k v o'
  end.

(** [delete o[k]]. *)
Fixpoint delete (k : string) (o : obj) : obj :=
  match o with
  | [] => []
  | (k', v') :: o' =>
      if String.eqb k k' then delete k o' else (k', v') :: delete k o'
  end.

(** [Object.keys(o)]. *)
Definition keys (o : obj) : list string := map fst o.

(** [Object.assign({}, a, b)] and the spread [{...a, ...b}]. *)
Definition assign (a b : obj) : obj :=
  fold_left (fun acc kv => set (fst kv) (snd kv) acc) b a.

End Obj.

(** Truthiness, as [if (v)] and [!v] see it. *)
Definition truthy (v : value) : bool :=
  match v with
  | VUndefined | VNull => false
  | VBool b => b
  | VNum n => negb (n =? 0)
  | VStr s => negb (String.eqb s "")
  | VArr _ | VObj _ | VInstance _ _ => true
  end.

(** [v == null]: true of [null] and [undefined] only. *)
Definition is_nullish (v : value) : bool :=
  match v with
  | VUndefined | VNull => true
  | _ => false
  end.

(** [_.isPlainObject(v)]. *)
Definition isPlainObject (v : value) : bool :=
  match v with
  | VObj _ => true
  | _ => false
  end.

(** The property key a value turns into in [map[v] = ...]
    ([String(v)]: an array joins its elements with commas, [null] and
    [undefined] elements giving the empty string; an object that is not
    plain converts as its class has it). *)
Fixpoint toPropertyKey (v : value) : string :=
  match v with
  | VUndefined => "undefined"
  | VNull => "null"
  | VBool true => "true"
  | VBool false => "false"
  | VNum n => NilZero.string_of_int (Z.to_int n)
  | VStr s => s
  | VArr items =>
      (fix join (l : list value) : string :=
         match l with
         | [] => ""
         | x :: l' =>
             let sx := match x with
                       | VUndefined | VNull => ""
                       | _ => toPropertyKey x
                       end in
             match l' with
             | [] => sx
             | _ :: _ => (sx ++ "," ++ join l')%string
             end
         end) items
  | VObj _ => "[object Object]"
  | VInstance str _ => str
  end.

(** ** Errors, external calls and the shared state *)

(** What a method can throw: the two errors the mixin raises itself, the
    [TypeError] of the language (a property read on [null], a call of
    something that is no function) and whatever a collaborator rejects with. *)
Inductive error : Type :=
| MoleculerClientError (message : string) (code : Z) (type : string) (data : obj)
| EntityNotFoundError (id : value)
| TypeError (message : string)
| Thrown (e : value).

(** Adapter handles are opaque; two handles are the same object exactly when
    their numbers are equal. *)
Definition adapter := nat.

(** The capabilities of an adapter the methods below call. *)
Inductive method : Type :=
| connect | disconnect
| find | insert | insertMany | updateById | replaceById | removeById | clear.

(** What a call of a function that is not [async] ends with. *)
Inductive completion : Type :=
| Returns (v : value)
| Throws (e : error).

(** A scope of [settings.scopes]: a partial query, or a function
    [(query, ctx) -> query]. *)
Inductive Scope : Type :=
| StaticScope (q : obj)
| FunctionScope (f : value -> value -> completion).

(** The points where a method waits for something outside of this file.
    [Tick] is the [await] of one of the service's own methods (or of a plain
    value): the method gives way to other tasks and goes on by itself. *)
Inductive call : Type :=
| Tick
| Timeout (ms : Z)
| AdapterCall (a : adapter) (m : method) (args : list value)
| HookAdapterConnected (a : adapter) (hash : string) (adapterOpts : value)
| HookAdapterDisconnected (a : adapter) (hash : string)
| HookAfterResolveEntities (ctx id entity : value) (origParams opts : obj)
| CheckScopeAuthority (ctx : value) (name : option string) (scope : option Scope)
| ValidateParams (ctx params : value) (opts : obj)
| TransformResult (a : adapter) (docs params ctx : value).

Inductive response : Type :=
| Resolved (v : value)
| Rejected (e : error).

(** An entry of the pool [this.adapters]. *)
Record Item : Type := mkItem {
  hash : string;
  adapter_of : adapter;
  touched : Z
}.

(** A call of [broker.emit], [broker.broadcast], ...: it is not awaited. *)
Record Emitted : Type := mkEmitted {
  target : value;          (* the context, or [undefined] for the broker *)
  via : string;            (* the broker method: the configured event type *)
  eventName : value;
  payload : obj
}.

(** The mutable state the methods share: the pool (a [Map], so in insertion
    order and with one entry per key), the memo of the field-name
    translator, the clock [Date.now()] reads, the handles given out so far
    and the events sent. *)
Record State : Type := mkState {
  adapters : list Item;
  cacheColumnName : list (string * string);
  clock : Z;
  nextAdapter : nat;
  emitted : list Emitted
}.

Definition with_adapters (p : list Item) (s : State) : State :=
  mkState p (cacheColumnName s) (clock s) (nextAdapter s) (emitted s).

Definition with_cache (c : list (string * string)) (s : State) : State :=
  mkState (adapters s) c (clock s) (nextAdapter s) (emitted s).

Definition with_now (t : Z) (s : State) : State :=
  mkState (adapters s) (cacheColumnName s) t (nextAdapter s) (emitted s).

(** ** The resumption monad *)

Inductive result (A : Type) : Type :=
| Ok (a : A)
| Err (e : error)
| OutOfFuel.

Arguments Ok {A} a.
Arguments Err {A} e.
Arguments OutOfFuel {A}.

(** A running method: finished, or suspended at a call with the state it
    leaves behind and what it does with the answer and the state it finds
    when it is resumed. *)
Inductive Res (A : Type) : Type :=
| Done (r : result A) (s : State)
| Await (c : call) (s : State) (k : response -> State -> Res A).

Arguments Done {A} r s.
Arguments Await {A} c s k.

Definition M (A : Type) : Type := State -> Res A.

Definition ret {A} (a : A) : M A := fun s => Done (Ok a) s.

Definition throw {A} (e : error) : M A := fun s => Done (Err e) s.

Definition out_of_fuel {A} : M A := fun s => Done OutOfFuel s.

Fixpoint bindR {A B} (r : Res A) (f : A -> M B) : Res B :=
  match r with
  | Done (Ok a) s => f a s
  | Done (Err e) s => Done (Err e) s
  | Done OutOfFuel s => Done OutOfFuel s
  | Await c s k => Await c s (fun resp s' => bindR (k resp s') f)
  end.

Definition bind {A B} (m : M A) (f : A -> M B) : M B :=
  fun s => bindR (m s) f.

(** [try { m } catch (err) { h err }]. *)
Fixpoint catchR {A} (r : Res A) (h : error -> M A) : Res A :=
  match r with
  | Done (Err e) s => h e s
  | Done x s => Done x s
  | Await c s k => Await c s (fun resp s' => catchR (k resp s') h)
  end.

Definition try_catch {A} (m : M A) (h : error -> M A) : M A :=
  fun s => catchR (m s) h.

Definition get_state : M State := fun s => Done (Ok s) s.

Definition modify (f : State -> State) : M unit := fun s => Done (Ok tt) (f s).

(** [await] of an external call: a rejection is thrown at the caller. *)
Definition await (c : call) : M value :=
  fun s => Await c s (fun resp s' =>
    match resp with
    | Resolved v => Done (Ok v) s'
    | Rejected e => Done (Err e) s'
    end).

Definition tick : M unit :=
  fun s => Await Tick s (fun _ s' => Done (Ok tt) s').

(** [setTimeout(..., ms)]: what follows runs when the timer fires. *)
Definition sleep (ms : Z) : M unit :=
  fun s => Await (Timeout ms) s (fun _ s' => Done (Ok tt) s').

Declare Scope monad_scope.
Delimit Scope monad_scope with monad.
Notation "x <- m ;; k" := (bind m (fun x => k))
  (at level 61, m at next level, right associativity) : monad_scope.
Notation "m ;; k" := (bind m (fun _ => k))
  (at level 61, right associativity) : monad_scope.
Open Scope monad_scope.

(** [await m] for an [async] method [m] of the service: [m] runs, and the
    caller goes on one turn after [m] has returned. *)
Definition await_ {A} (m : M A) : M A :=
  x <- m ;; tick ;; ret x.

(** A [for ... of] loop with an [await] in its body. *)
Fixpoint forEach {A} (l : list A) (f : A -> M unit) : M unit :=
  match l with
  | [] => ret tt
  | x :: l' => f x ;; forEach l' f
  end.

(** Awaiting the elements of a list one after the other, in order. *)
Fixpoint mapM {A B} (f : A -> M B) (l : list A) : M (list B) :=
  match l with
  | [] => ret []
  | x :: l' => y <- f x ;; ys <- mapM f l' ;; ret (y :: ys)
  end.

(** How a promise settles: with its value, or with what it was rejected
    with. *)
Definition settle {A} (m : M A) : M (A + error) :=
  try_catch (x <- m ;; ret (inl x)) (fun e => ret (inr e)).

(** [Promise.all(l.map(f))] for an [async] function [f]: [f] is started on
    every element, in order, also after a rejection; the result is the
    list of the values, in the order of the elements, or the first
    rejection. *)
Fixpoint allM {A B} (f : A -> M B) (l : list A) : M (list B) :=
  match l with
  | [] => ret []
  | x :: l' =>
      r <- settle (f x) ;;
      match r with
      | inl y => ys <- allM f l' ;; ret (y :: ys)
      | inr e => settle (allM f l') ;; throw e
      end
  end.

(** ** Running one method to its end *)

Definition trace := list (call * response).

Inductive outcome (A : Type) : Type :=
| Finished (r : result A) (s : State) (rest : list response) (tr : trace)
| Suspended (c : call) (s : State) (tr : trace).

Arguments Finished {A} r s rest tr.
Arguments Suspended {A} c s tr.

(** The clock moves when a timer fires. *)
Definition after (c : call) (s : State) : State :=
  match c with
  | Timeout ms => with_now (clock s + ms) s
  | _ => s
  end.

(** One method alone: the environment answers the calls from [rs], in
    order; a [Tick] needs no answer.  When the answers run out the method
    stays suspended at its call. *)
Fixpoint run {A} (r : Res A) (rs : list response) (tr : trace) : outcome A :=
  match r with
  | Done x s => Finished x s rs tr
  | Await Tick s k => run (k (Resolved VUndefined) s) rs tr
  | Await c s k =>
      match rs with
      | [] => Suspended c s tr
      | resp :: rs' => run (k resp (after c s)) rs' (tr ++ [(c, resp)])
      end
  end.

Definition exec {A} (m : M A) (s : State) (rs : list response) : outcome A :=
  run (m s) rs [].

(** ** The service: options, settings and schema *)

Record Field : Type := mkField {
  name : string;
  columnName : string;
  secure : bool
}.

(** [mixinOpts.cache]. *)
Record CacheOpts : Type := mkCacheOpts {
  enabled : bool;
  cacheEventName : value;
  cacheEventType : value
}.

(** What the methods read from [mixinOpts] and from [this].  [encodeID],
    [decodeID] and [getAdapterByContext] are methods a service may
    overwrite; the source's own are [default_encodeID], [default_decodeID]
    and [default_getAdapterByContext]. *)
Record Service : Type := mkService {
  serviceName : string;
  (* mixinOpts *)
  adapterDef : value;
  maximumAdapters : option Z;
  autoReconnect : bool;
  cache : option CacheOpts;
  entityChangedEventType : value;
  (* this.settings *)
  defaultScopes : option (list string);
  scopes : list (string * Scope);
  (* what [settings.scopes[name]] finds when [settings.scopes] has no
     property of its own under the name: the members of its prototype *)
  inheritedScopes : list (string * Scope);
  (* the schema *)
  primaryField : Field;
  fields : list Field;
  softDelete : bool;
  (* the names registered in this.$hooks *)
  hooks : list string;
  (* methods a service may overwrite *)
  encodeID : value -> value;
  decodeID : value -> value;
  getAdapterByContext : value -> value -> string * value;
  (* what the adapters offer *)
  hasDisconnect : adapter -> bool;
  hasNestedFieldSupport : adapter -> value
}.

Definition default_encodeID (id : value) : value := id.

Definition default_decodeID (id : value) : value := id.

Definition default_getAdapterByContext (ctx adapterDef : value)
  : string * value := ("default", adapterDef).

(** [const cacheOpts = mixinOpts.cache && mixinOpts.cache.enabled ?
    mixinOpts.cache : null]. *)
Definition cacheOpts (svc : Service) : option CacheOpts :=
  match cache svc with
  | Some c => if enabled c then Some c else None
  | None => None
  end.

Definition has_hook (svc : Service) (h : string) : bool :=
  existsb (String.eqb h) (hooks svc).

(** ** The pool [this.adapters] *)

Module Pool.

(** [adapters.get(h)]. *)
Fixpoint get (h : string) (p : list Item) : option Item :=
  match p with
  | [] => None
  | it :: p' => if String.eqb h (hash it) then Some it else get h p'
  end.

(** [adapters.set(it.hash, it)]. *)
Fixpoint set (it : Item) (p : list Item) : list Item :=
  match p with
  | [] => [it]
  | it' :: p' =>
      if String.eqb (hash it) (hash it') then it :: p' else it' :: set it p'
  end.

(** [adapters.delete(h)]. *)
Definition delete (h : string) (p : list Item) : list Item :=
  filter (fun it => negb (String.eqb h (hash it))) p.

(** [Array.from(adapters.values()).find(item => item.adapter == a)]. *)
Definition find_adapter (a : adapter) (p : list Item) : option Item :=
  List.find (fun it => Nat.eqb (adapter_of it) a) p.

(** Where [x] goes in a list sorted by [touched]: before the first entry
    that is not older than it. *)
Fixpoint place (x : Item) (l : list Item) : list Item :=
  match l with
  | [] => [x]
  | y :: l' =>
      if touched x <=? touched y then x :: y :: l' else y :: place x l'
  end.

(** [arr.sort((a, b) => a.touched - b.touched)]: ascending and stable
    (entries of equal age keep their order). *)
Fixpoint sort (l : list Item) : list Item :=
  match l with
  | [] => []
  | x :: l' => place x (sort l')
  end.

End Pool.

(** ** Objects as the library sees them *)

(** The key of the element [i] of an array. *)
Definition index_key (i : nat) : string :=
  NilZero.string_of_uint (Nat.to_uint i).

(** The elements of an array as properties, from the index [i] on. *)
Fixpoint indexed (i : nat) (items : list value) : obj :=
  match items with
  | [] => []
  | v :: items' => (index_key i, v) :: indexed (S i) items'
  end.

(** The characters of a string, each a string. *)
Fixpoint chars (s : string) : list value :=
  match s with
  | EmptyString => []
  | String c s' => VStr (String c EmptyString) :: chars s'
  end.

(** [typeof v] is ["object"] and [v] is not [null] (there are no functions
    among the values). *)
Definition isObject (v : value) : bool :=
  match v with
  | VArr _ | VObj _ | VInstance _ _ => true
  | _ => false
  end.

Definition is_undefined (v : value) : bool :=
  match v with
  | VUndefined => true
  | _ => false
  end.

(** [Object(v)]: [null] and [undefined] give a new object, a primitive is
    boxed, an object is itself. *)
Definition toObject (v : value) : value :=
  match v with
  | VUndefined | VNull => VObj []
  | VBool _ | VNum _ => VInstance (toPropertyKey v) []
  | VStr s => VInstance s (indexed O (chars s))
  | _ => v
  end.

(** The members every object has from [Object.prototype] and that
    [object[key]] finds when it has no property of its own under the key;
    [constructor] and [__proto__] are the two lodash does not read that
    way. *)
Definition objectMembers : list string :=
  ["toString"; "toLocaleString"; "valueOf"; "hasOwnProperty"; "isPrototypeOf";
   "propertyIsEnumerable"; "__defineGetter__"; "__defineSetter__";
   "__lookupGetter__"; "__lookupSetter__"].

Definition member (k : string) (l : list string) : bool :=
  existsb (String.eqb k) l.

(** ** lodash *)

(** One key of [_.defaultsDeep]: the source holds [sv] under [k], the
    destination has the properties [d] and answers to the names [members]
    without owning them; [merged] is what the key holds when the
    destination has a value of its own there.  A missing key takes the
    source's value, a key the destination has keeps what it has: its own
    value, or the member it inherits. *)
Definition defaults_key (members : list string) (d : obj) (k : string)
  (sv merged : value) : obj :=
  if String.eqb k "__proto__" then
    if isObject sv || is_undefined sv then d else Obj.set k sv d
  else if Obj.has k d then Obj.set k merged d
  else if member k members then d
  else if String.eqb k "constructor" && is_undefined sv then d
  else Obj.set k sv d.

(** The value [_.defaultsDeep] leaves under a key that holds [dv] when the
    source holds [sv] there: the source's value if [dv] is [undefined]; if
    both are objects (plain or not, arrays included), [dv] with the
    defaults of [sv] assigned inside it, key by key and index by index,
    recursively; otherwise [dv] as it is.  An array that is given the
    properties of an object that is no array is written as a [VInstance]
    from then on. *)
Fixpoint defaults_value (dv sv : value) {struct sv} : value :=
  match sv with
  | VObj sub | VInstance _ sub =>
      let into (members : list string) (d : obj) : obj :=
        (fix go (l : obj) (d : obj) {struct l} : obj :=
           match l with
           | [] => d
           | (k, v) :: l' =>
               go l' (defaults_key members d k v
                        (defaults_value (Obj.get k d) v))
           end) sub d in
      match dv with
      | VUndefined => sv
      | VObj d => VObj (into objectMembers d)
      | VInstance str d => VInstance str (into objectMembers d)
      | VArr items =>
          match sub with
          | [] => dv
          | _ :: _ =>
              VInstance (toPropertyKey dv)
                (into ("length" :: objectMembers) (indexed O items))
          end
      | _ => dv
      end
  | VArr elements =>
      let into (d : obj) : obj :=
        (fix go (i : nat) (l : list value) (d : obj) {struct l} : obj :=
           match l with
           | [] => d
           | v :: l' =>
               go (S i) l'
                  (defaults_key objectMembers d (index_key i) v
                     (defaults_value (Obj.get (index_key i) d) v))
           end) O elements d in
      match dv with
      | VUndefined => sv
      | VArr items =>
          VArr ((fix zip (l : list value) (items : list value) {struct l}
                   : list value :=
                   match l with
                   | [] => items
                   | v :: l' =>
                       match items with
                       | [] => v :: zip l' []
                       | x :: items' => defaults_value x v :: zip l' items'
                       end
                   end) elements items)
      | VObj d => VObj (into d)
      | VInstance str d => VInstance str (into d)
      | _ => dv
      end
  | _ =>
      match dv with
      | VUndefined => sv
      | _ => dv
      end
  end.

(** [_.defaultsDeep(dst, src)] for a plain object [src]: [dst] is made an
    object first.  ([_.cloneDeep] is the identity on values that are never
    mutated.) *)
Definition defaultsDeep (dst : value) (src : obj) : value :=
  defaults_value (toObject dst) (VObj src).

Section Methods.

Variable svc : Service.

(** How many connection attempts of [_connect] are followed. *)
Variable fuel : nat.

(** [Date.now()]. *)
Definition Date_now : M Z := fun s => Done (Ok (clock s)) s.

(** Modelled from the spec: [Adapters.resolve] of [./adapters] and the
    adapter's [init] are not in this file; the factory synthesizes a new
    handle each time it is called. *)
Definition Adapters_resolve (adapterOpts : value) : M adapter :=
  fun s => Done (Ok (nextAdapter s))
                (mkState (adapters s) (cacheColumnName s) (clock s)
                         (S (nextAdapter s)) (emitted s)).

(** *** [_disconnect(adapter, hash)] *)
Definition _disconnect (a : adapter) (h : string) : M unit :=
  s <- get_state ;;
  (* Remove from cache *)
  match Pool.find_adapter a (adapters s) with
  | Some item => modify (with_adapters (Pool.delete (hash item) (adapters s)))
  | None => ret tt
  end ;;
  (* Close the connection *)
  (if hasDisconnect svc a
   then await (AdapterCall a disconnect []) ;; ret tt
   else ret tt) ;;
  (if has_hook svc "adapterDisconnected"
   then await (HookAdapterDisconnected a h) ;; ret tt
   else ret tt).

(** *** [maintenanceAdapters()] *)
Definition maintenanceAdapters : M unit :=
  match maximumAdapters svc with
  | None => ret tt
  | Some maximum =>
      if maximum <? 1 then ret tt
      else
        s <- get_state ;;
        let surplus := Z.of_nat (List.length (adapters s)) - maximum in
        if 0 <? surplus then
          let sorted := Pool.sort (adapters s) in
          let closeable := firstn (Z.to_nat surplus) sorted in
          forEach closeable
            (fun it => await_ (_disconnect (adapter_of it) (hash it)))
        else ret tt
  end.

(** *** [_connect(adapter, hash, adapterOpts)]

    The promise settles when [connecting] resolves or rejects it; after a
    failure with [autoReconnect], [connecting] runs again when the timer
    of 1000 ms fires. *)
Fixpoint connecting (n : nat) (a : adapter) (h : string) (adapterOpts : value)
  : M unit :=
  match n with
  | O => out_of_fuel
  | S n' =>
      try_catch
        (await (AdapterCall a connect []) ;;
         (if has_hook svc "adapterConnected"
          then await (HookAdapterConnected a h adapterOpts) ;; ret tt
          else ret tt))
        (fun err =>
           if autoReconnect svc
           then sleep 1000 ;; connecting n' a h adapterOpts
           else throw err)
  end.

Definition _connect (a : adapter) (h : string) (adapterOpts : value) : M unit :=
  connecting fuel a h adapterOpts.

(** *** [getAdapter(ctx)] *)
Definition getAdapter (ctx : value) : M adapter :=
  let '(h, adapterOpts) := getAdapterByContext svc ctx (adapterDef svc) in
  tick ;;
  s <- get_state ;;
  match Pool.get h (adapters s) with
  | Some item =>
      t <- Date_now ;;
      modify (fun s => with_adapters
                (Pool.set (mkItem (hash item) (adapter_of item) t) (adapters s)) s) ;;
      ret (adapter_of item)
  | None =>
      a <- Adapters_resolve adapterOpts ;;
      t <- Date_now ;;
      modify (fun s => with_adapters (Pool.set (mkItem h a t) (adapters s)) s) ;;
      await_ maintenanceAdapters ;;
      await_ (_connect a h adapterOpts) ;;
      ret a
  end.

(** *** The field-name translator *)

Definition memo_get (k : string) (c : list (string * string)) : option string :=
  option_map snd (List.find (fun kv => String.eqb k (fst kv)) c).

(** [cacheColumnName.set(k, v)]. *)
Fixpoint memo_set (k v : string) (c : list (string * string))
  : list (string * string) :=
  match c with
  | [] => [(k, v)]
  | (k', v') :: c' =>
      if String.eqb k k' then (k, v) :: c' else (k', v') :: memo_set k v c'
  end.

Definition nonempty (s : string) : bool := negb (String.eqb s "").

(** [_getColumnNameFromFieldName(fieldName)]. *)
Definition _getColumnNameFromFieldName (fieldName : string) : M string :=
  s <- get_state ;;
  match memo_get fieldName (cacheColumnName s) with
  | Some res =>
      if nonempty res then ret res
      else
        match List.find (fun f => String.eqb (name f) fieldName) (fields svc) with
        | Some field =>
            modify (fun s => with_cache
                      (memo_set fieldName (columnName field) (cacheColumnName s)) s) ;;
            ret (columnName field)
        | None => ret fieldName
        end
  | None =>
      match List.find (fun f => String.eqb (name f) fieldName) (fields svc) with
      | Some field =>
          modify (fun s => with_cache
                    (memo_set fieldName (columnName field) (cacheColumnName s)) s) ;;
          ret (columnName field)
      | None => ret fieldName
      end
  end.

(** One element of [_sortFieldNameConversion]'s [map]. *)
Definition sortField (fieldName : value) : M value :=
  match fieldName with
  | VStr (String "-"%char rest) =>
      c <- _getColumnNameFromFieldName rest ;;
      ret (VStr (String "-"%char c))
  | VStr f =>
      c <- _getColumnNameFromFieldName f ;;
      ret (VStr c)
  | _ => throw (TypeError "fieldName.startsWith is not a function")
  end.

(** [_sortFieldNameConversion(sort)]. *)
Definition _sortFieldNameConversion (sort : value) : M value :=
  match sort with
  | VArr items => l <- mapM sortField items ;; ret (VArr l)
  | _ => throw (TypeError "sort.map is not a function")
  end.

(** [_queryFieldNameConversion(query, recursive)]: the [reduce] over
    [Object.keys(query)], starting from the empty object [res].  The keys
    of an array are its indices, and so are those of a string, whose
    values are its characters; a number or a boolean has no key, and
    [null] and [undefined] cannot be asked for theirs. *)
Fixpoint _queryFieldNameConversion (query : value) (recursive : bool)
  {struct query} : M obj :=
  match query with
  | VObj ps | VInstance _ ps =>
      (fix reduce (ps : obj) (res : obj) {struct ps} : M obj :=
         match ps with
         | [] => ret res
         | (fieldName, v) :: ps' =>
             columnName <- _getColumnNameFromFieldName fieldName ;;
             if isPlainObject (Obj.get columnName res) && recursive then
               sub <- _queryFieldNameConversion v recursive ;;
               reduce ps' (Obj.set columnName (VObj sub) res)
             else
               reduce ps' (Obj.set columnName v res)
         end) ps []
  | VArr items =>
      (fix reduce (i : nat) (l : list value) (res : obj) {struct l} : M obj :=
         match l with
         | [] => ret res
         | v :: l' =>
             columnName <- _getColumnNameFromFieldName (index_key i) ;;
             if isPlainObject (Obj.get columnName res) && recursive then
               sub <- _queryFieldNameConversion v recursive ;;
               reduce (S i) l' (Obj.set columnName (VObj sub) res)
             else
               reduce (S i) l' (Obj.set columnName v res)
         end) O items []
  | VStr s =>
      (* a character is no plain object, so [res] never holds one *)
      (fix reduce (i : nat) (l : list value) (res : obj) {struct l} : M obj :=
         match l with
         | [] => ret res
         | v :: l' =>
             columnName <- _getColumnNameFromFieldName (index_key i) ;;
             reduce (S i) l' (Obj.set columnName v res)
         end) O (chars s) []
  | VBool _ | VNum _ => ret []
  | VUndefined | VNull =>
      throw (TypeError "Cannot convert undefined or null to object")
  end.

(** [paramsFieldNameConversion(p)]. *)
Definition paramsFieldNameConversion (p : obj) : M obj :=
  p <- (if truthy (Obj.get "sort" p)
        then v <- _sortFieldNameConversion (Obj.get "sort" p) ;;
             ret (Obj.set "sort" v p)
        else ret p) ;;
  p <- (if truthy (Obj.get "searchFields" p)
        then v <- _sortFieldNameConversion (Obj.get "searchFields" p) ;;
             ret (Obj.set "searchFields" v p)
        else ret p) ;;
  (if truthy (Obj.get "query" p)
   then q <- _queryFieldNameConversion (Obj.get "query" p) true ;;
        ret (Obj.set "query" (VObj q) p)
   else ret p).

(** *** The scope resolver *)

Fixpoint scope_of (n : string) (l : list (string * Scope)) : option Scope :=
  match l with
  | [] => None
  | (n', sc) :: l' => if String.eqb n n' then Some sc else scope_of n l'
  end.

(** [this.settings.scopes[scopeName]]: a property of [settings.scopes], or
    else a member it inherits. *)
Definition scope_named (scopeName : string) : option Scope :=
  scope_of scopeName (scopes svc ++ inheritedScopes svc).

(** [_filterScopeNamesByPermission(ctx, scopeNames)]. *)
Fixpoint _filterScopeNamesByPermission (ctx : value) (scopeNames : list string)
  : M (list string) :=
  match scopeNames with
  | [] => ret []
  | scopeName :: rest =>
      match scope_named scopeName with
      | None => _filterScopeNamesByPermission ctx rest
      | Some scope =>
          has <- await (CheckScopeAuthority ctx (Some scopeName) (Some scope)) ;;
          res <- _filterScopeNamesByPermission ctx rest ;;
          ret (if truthy has then scopeName :: res else res)
      end
  end.

(** The function [_applyScopes] folds over the scope names. *)
Definition applyScope (ctx : value) (query : value) (scopeName : string)
  : completion :=
  match scope_named scopeName with
  | None => Returns query
  | Some (FunctionScope f) => f query ctx
  | Some (StaticScope sc) => Returns (defaultsDeep query sc)
  end.

(** [scopes.reduce(applyScope, query)]: an exception ends it. *)
Fixpoint reduce_scopes (ctx : value) (scopeNames : list string) (query : value)
  : completion :=
  match scopeNames with
  | [] => Returns query
  | scopeName :: rest =>
      match applyScope ctx query scopeName with
      | Returns query' => reduce_scopes ctx rest query'
      | Throws e => Throws e
      end
  end.

(** The names in [params.scope]: an array of them, or a single one. *)
Definition scope_names (v : value) : list string :=
  match v with
  | VArr items => map toPropertyKey items
  | _ => [toPropertyKey v]
  end.

(** The second half of [_applyScopes]: [if (scopes && scopes.length > 0)]. *)
Definition applyScopeNames (scopes : option (list string)) (params : obj)
  (ctx : value) : M obj :=
  match scopes with
  | Some (n :: l) =>
      allowed <- await_ (_filterScopeNamesByPermission ctx (n :: l)) ;;
      let start := if truthy (Obj.get "query" params)
                   then Obj.get "query" params else VObj [] in
      match reduce_scopes ctx allowed start with
      | Returns query => ret (Obj.set "query" query params)
      | Throws e => throw e
      end
  | _ => ret params
  end.

(** [_applyScopes(params, ctx)]. *)
Definition _applyScopes (params : obj) (ctx : value) : M obj :=
  scopes <-
    (if truthy (Obj.get "scope" params) then
       ret (Some (scope_names (Obj.get "scope" params)))
     else
       match Obj.get "scope" params with
       | VBool false =>
           (* Disable default scopes, check the permission for this *)
           ok <- await (CheckScopeAuthority ctx None None) ;;
           if truthy ok then ret None else ret (defaultScopes svc)
       | _ => ret (defaultScopes svc)
       end) ;;
  applyScopeNames scopes params ctx.

(** *** Change notifications *)

Definition emit (ctx : value) (eventType : value) (eventName : value)
  (type : string) (data : value) (opts : obj) : M unit :=
  modify (fun s =>
    mkState (adapters s) (cacheColumnName s) (clock s) (nextAdapter s)
      (emitted s ++
         [mkEmitted (if truthy ctx then ctx else VUndefined)
            (toPropertyKey eventType) eventName
            [("type", VStr type); ("data", data); ("opts", VObj opts)]])).

(** [entityChanged(type, data, ctx, opts)]: the entity lifecycle event. *)
Definition entityChanged (type : string) (data ctx : value) (opts : obj)
  : M unit :=
  if truthy (entityChangedEventType svc) then
    let op := (type ++ (if String.eqb type "clear" then "ed" else "d"))%string in
    let eventName := (serviceName svc ++ "." ++ op)%string in
    emit ctx (entityChangedEventType svc) (VStr eventName) type data opts
  else ret tt.

(** [_entityChanged(type, data, ctx, opts = {})].  [cacheOpts] is [null]
    when the cache is off, and [cacheOpts.eventType] is read first. *)
Definition _entityChanged (type : string) (data ctx : value) (opts : obj)
  : M unit :=
  match cacheOpts svc with
  | None =>
      throw (TypeError "Cannot read properties of null (reading 'eventType')")
  | Some c =>
      (if truthy (cacheEventType c) then
         let eventName :=
           if truthy (cacheEventName c) then cacheEventName c
           else VStr ("cache.clean." ++ serviceName svc)%string in
         if truthy eventName then
           (* Cache cleaning event *)
           emit ctx (cacheEventType c) eventName type data opts
         else ret tt
       else ret tt) ;;
      await_ (entityChanged type data ctx opts)
  end.

(** *** Identifiers *)

(** [_getIDFromParams(params, throwIfNotExist = true)]. *)
Definition _getIDFromParams (params : obj) : M value :=
  let id := Obj.get (name (primaryField svc)) params in
  if is_nullish id then
    throw (MoleculerClientError "Missing id field." 400 "MISSING_ID"
             [("params", VObj params)])
  else ret id.

(** [_sanitizeID(id, opts)]. *)
Definition _sanitizeID (id : value) (opts : obj) : value :=
  if negb (is_nullish (Obj.get "secureID" opts)) then
    if truthy (Obj.get "secureID" opts) then decodeID svc id else id
  else if secure (primaryField svc) then decodeID svc id
  else id.

(** [opts.transform !== false]. *)
Definition wants_transform (opts : obj) : bool :=
  match Obj.get "transform" opts with
  | VBool false => false
  | _ => true
  end.

(** [v === true]. *)
Definition is_true (v : value) : bool :=
  match v with
  | VBool true => true
  | _ => false
  end.

(** [target[k] = v] in strict mode. *)
Definition set_member (target : value) (k : string) (v : value) : M value :=
  match target with
  | VObj o => ret (VObj (Obj.set k v o))
  | VInstance c o => ret (VInstance c (Obj.set k v o))
  | _ => throw (TypeError "Cannot set properties")
  end.

(** [target[k]]. *)
Definition get_member (target : value) (k : string) : M value :=
  match target with
  | VObj o | VInstance _ o => ret (Obj.get k o)
  | VUndefined | VNull => throw (TypeError "Cannot read properties")
  | _ => ret VUndefined
  end.

(** [result[0]]. *)
Definition get_member_index (result : value) : M value :=
  match result with
  | VArr items => ret (nth O items VUndefined)
  | VObj o | VInstance _ o => ret (Obj.get "0" o)
  | VUndefined | VNull => throw (TypeError "Cannot read properties")
  | _ => ret VUndefined
  end.

(** The object a collaborator hands back where the method goes on to
    delete and count its properties. *)
Definition expect_obj (v : value) : M obj :=
  match v with
  | VObj o | VInstance _ o => ret o
  | _ => throw (TypeError "Cannot convert undefined or null to object")
  end.

(** [!result || result.length == 0], for what [adapter.find] gives: an
    array, or nothing. *)
Definition no_result (result : value) : bool :=
  match result with
  | VArr [] => true
  | _ => negb (truthy result)
  end.

(** [Array.from(result)]. *)
Definition array_from (result : value) : list value :=
  match result with
  | VArr items => items
  | _ => []
  end.

(** The [reduce] that builds the mapping of [resolveEntities]. *)
Fixpoint mapping_reduce (idField : string) (docs : list value)
  (unTransformedRes : list value) (i : nat) (map : obj) : M obj :=
  match docs with
  | [] => ret map
  | doc :: docs' =>
      id <- get_member (nth i unTransformedRes VUndefined) idField ;;
      let id := if secure (primaryField svc) then encodeID svc id else id in
      mapping_reduce idField docs' unTransformedRes (S i)
        (Obj.set (toPropertyKey id) doc map)
  end.

(** *** [resolveEntities(ctx, params, opts)] *)
Definition resolveEntities (ctx : value) (params opts : obj) : M value :=
  (* Get ID value from params *)
  id <- _getIDFromParams params ;;
  let origID := id in
  let origParams := params in
  let multi := match id with VArr _ => true | _ => false end in
  let id := match id with VArr ids => ids | _ => [id] end in
  (* Decode ID if need *)
  let id := map (fun id => _sanitizeID id opts) id in
  (* Apply scopes & set ID filtering *)
  let params :=
    if truthy (Obj.get "query" params) then params
    else Obj.set "query" (VObj []) params in
  params <- await_ (_applyScopes params ctx) ;;
  params <- paramsFieldNameConversion params ;;
  let idField := columnName (primaryField svc) in
  query <- set_member (Obj.get "query" params) idField
             (if multi then VObj [("$in", VArr id)] else nth O id VUndefined) ;;
  let params := Obj.set "query" query params in
  adapter <- await_ (getAdapter ctx) ;;
  (* Find the entities *)
  result <- await (AdapterCall adapter find [VObj params]) ;;
  if no_result result then
    if truthy (Obj.get "throwIfNotExist" opts)
    then throw (EntityNotFoundError origID)
    else ret (if is_true (Obj.get "mapping" params) then VObj []
              else if multi then VArr [] else VNull)
  else
    (if has_hook svc "afterResolveEntities" then
       await (HookAfterResolveEntities ctx
                (if multi then VArr id else nth O id VUndefined)
                (if multi then result else nth O (array_from result) VUndefined)
                origParams opts) ;; ret tt
     else ret tt) ;;
    (* For mapping *)
    let unTransformedRes := array_from result in
    (* Transforming *)
    result <- (if wants_transform opts
               then await (TransformResult adapter result (VObj params) ctx)
               else ret result) ;;
    (* Mapping *)
    if is_true (Obj.get "mapping" params) then
      match result with
      | VArr docs =>
          m <- mapping_reduce idField docs unTransformedRes O [] ;;
          ret (VObj m)
      | _ => throw (TypeError "result.reduce is not a function")
      end
    else if negb multi then get_member_index result
    else ret result.

(** *** The write operations *)

(** [{ ...opts, type, nestedFieldSupport: adapter.hasNestedFieldSupport }],
    with [oldEntity] where the source passes it. *)
Definition validateOpts (opts : obj) (type : string) (oldEntity : option value)
  (a : adapter) : obj :=
  let o := Obj.set "type" (VStr type) opts in
  let o := match oldEntity with
           | Some e => Obj.set "oldEntity" e o
           | None => o
           end in
  Obj.set "nestedFieldSupport" (hasNestedFieldSupport svc a) o.

(** [createEntity(ctx, params, opts)]. *)
Definition createEntity (ctx params : value) (opts : obj) : M value :=
  adapter <- await_ (getAdapter ctx) ;;
  params <- await (ValidateParams ctx params
                     (validateOpts opts "create" None adapter)) ;;
  result <- await (AdapterCall adapter insert [params]) ;;
  result <- (if wants_transform opts
             then await (TransformResult adapter result (VObj []) ctx)
             else ret result) ;;
  await_ (_entityChanged "create" result ctx opts) ;;
  ret result.

(** [createEntities(ctx, params, opts)].  [Promise.all] starts the
    validation of every element before any answer is seen and keeps the
    order of the elements. *)
Definition createEntities (ctx : value) (params : list value) (opts : obj)
  : M value :=
  adapter <- await_ (getAdapter ctx) ;;
  entities <- allM (fun entity =>
                      await (ValidateParams ctx entity
                               (validateOpts opts "create" None adapter)))
                   params ;;
  result <- await (AdapterCall adapter insertMany
                     [VArr entities;
                      VObj [("returnEntities", Obj.get "returnEntities" opts)]]) ;;
  result <- (if truthy (Obj.get "returnEntities" opts) && wants_transform opts
             then await (TransformResult adapter result (VObj []) ctx)
             else ret result) ;;
  await_ (_entityChanged "create" result ctx
            (Obj.set "batch" (VBool true) opts)) ;;
  ret result.

(** [updateEntity(ctx, params, opts)]. *)
Definition updateEntity (ctx : value) (params opts : obj) : M value :=
  adapter <- await_ (getAdapter ctx) ;;
  id <- _getIDFromParams params ;;
  (* Call because it throws error if entity is not exist *)
  oldEntity <- await_ (resolveEntities ctx params
                         [("transform", VBool false);
                          ("throwIfNotExist", VBool true)]) ;;
  let rawUpdate := is_true (Obj.get "raw" opts) in
  params <- (if negb rawUpdate then
               v <- await (ValidateParams ctx (VObj params)
                             (validateOpts opts "update" (Some oldEntity) adapter)) ;;
               expect_obj v
             else ret params) ;;
  let id := _sanitizeID id opts in
  let params := Obj.delete (columnName (primaryField svc)) params in
  let params := Obj.delete (name (primaryField svc)) params in
  let hasChanges := (0 <? Z.of_nat (List.length (Obj.keys params))) in
  result <- (if hasChanges then
               await (AdapterCall adapter updateById
                        [id; VObj params; VObj [("raw", VBool rawUpdate)]])
             else
               (* Nothing to update *)
               ret oldEntity) ;;
  result <- (if wants_transform opts
             then await (TransformResult adapter result (VObj []) ctx)
             else ret result) ;;
  (if hasChanges
   then await_ (_entityChanged "update" result ctx opts)
   else ret tt) ;;
  ret result.

(** [replaceEntity(ctx, params, opts)]. *)
Definition replaceEntity (ctx : value) (params opts : obj) : M value :=
  id <- _getIDFromParams params ;;
  (* Call because it throws error if entity is not exist *)
  oldEntity <- await_ (resolveEntities ctx params
                         [("transform", VBool false);
                          ("throwIfNotExist", VBool true)]) ;;
  adapter <- await_ (getAdapter ctx) ;;
  v <- await (ValidateParams ctx (VObj params)
                (validateOpts opts "replace" (Some oldEntity) adapter)) ;;
  params <- expect_obj v ;;
  let id := _sanitizeID id opts in
  let params := Obj.delete (columnName (primaryField svc)) params in
  let params :=
    if negb (String.eqb (columnName (primaryField svc)) (name (primaryField svc)))
    then Obj.delete (name (primaryField svc)) params
    else params in
  result <- await (AdapterCall adapter replaceById [id; VObj params]) ;;
  result <- (if wants_transform opts
             then await (TransformResult adapter result (VObj []) ctx)
             else ret result) ;;
  await_ (_entityChanged "replace" result ctx opts) ;;
  ret result.

(** [removeEntity(ctx, params, opts)]. *)
Definition removeEntity (ctx : value) (params opts : obj) : M value :=
  id <- _getIDFromParams params ;;
  let origID := id in
  entity <- await_ (resolveEntities ctx params
                      [("transform", VBool false);
                       ("throwIfNotExist", VBool true)]) ;;
  adapter <- await_ (getAdapter ctx) ;;
  params <- await (ValidateParams ctx (VObj params)
                     (validateOpts opts "remove" None adapter)) ;;
  let id := _sanitizeID id opts in
  entity <- (if softDelete svc then
               (* Soft delete *)
               await (AdapterCall adapter updateById [id; params])
             else
               (* Real delete *)
               await (AdapterCall adapter removeById [id]) ;;
               ret entity) ;;
  entity <- (if wants_transform opts
             then await (TransformResult adapter entity params ctx)
             else ret entity) ;;
  await_ (_entityChanged "remove" entity ctx
            (Obj.set "softDelete" (VBool (softDelete svc)) opts)) ;;
  ret origID.

(** [clearEntities(ctx, params)]. *)
Definition clearEntities (ctx params : value) : M value :=
  adapter <- await_ (getAdapter ctx) ;;
  result <- await (AdapterCall adapter clear [params]) ;;
  await_ (_entityChanged "clear" VNull ctx []) ;;
  ret result.

End Methods.

(** * Reasoning about runs *)

Definition trace_of {A} (o : outcome A) : trace :=
  match o with
  | Finished _ _ _ tr => tr
  | Suspended _ _ tr => tr
  end.

Definition state_of {A} (o : outcome A) : State :=
  match o with
  | Finished _ s _ _ => s
  | Suspended _ s _ => s
  end.

Definition result_of {A} (o : outcome A) : option (result A) :=
  match o with
  | Finished r _ _ _ => Some r
  | Suspended _ _ _ => None
  end.

(** Whether a method of the adapters is called in a trace. *)
Definition method_eqb (m1 m2 : method) : bool :=
  match m1, m2 with
  | connect, connect | disconnect, disconnect | find, find
  | insert, insert | insertMany, insertMany | updateById, updateById
  | replaceById, replaceById | removeById, removeById | clear, clear => true
  | _, _ => false
  end.

Definition calls_method (m : method) (c : call) : bool :=
  match c with
  | AdapterCall _ m' _ => method_eqb m m'
  | _ => false
  end.

Definition called (m : method) (tr : trace) : bool :=
  existsb (fun ev => calls_method m (fst ev)) tr.

(** The methods that change what is stored. *)
Definition is_mutation (c : call) : bool :=
  match c with
  | AdapterCall _ (insert | insertMany | updateById | replaceById
                   | removeById | clear) _ => true
  | _ => false
  end.

Definition mutated (tr : trace) : bool :=
  existsb (fun ev => is_mutation (fst ev)) tr.

Section RunLemmas.

Context {A B : Type}.

Lemma run_bindR (r : Res A) (f : A -> M B) :
  forall rs tr,
    run (bindR r f) rs tr =
    match run r rs tr with
    | Finished (Ok a) s rs' tr' => run (f a s) rs' tr'
    | Finished (Err e) s rs' tr' => Finished (Err e) s rs' tr'
    | Finished OutOfFuel s rs' tr' => Finished OutOfFuel s rs' tr'
    | Suspended c s tr' => Suspended c s tr'
    end.
Proof.
  induction r as [x s | c s k IH]; intros rs tr.
  - destruct x; reflexivity.
  - destruct c; simpl; try (destruct rs; [reflexivity | apply IH]).
    apply IH.
Qed.

Lemma run_bind (m : M A) (f : A -> M B) (s : State) rs tr :
  run (bind m f s) rs tr =
  match run (m s) rs tr with
  | Finished (Ok a) s' rs' tr' => run (f a s') rs' tr'
  | Finished (Err e) s' rs' tr' => Finished (Err e) s' rs' tr'
  | Finished OutOfFuel s' rs' tr' => Finished OutOfFuel s' rs' tr'
  | Suspended c s' tr' => Suspended c s' tr'
  end.
Proof. unfold bind. apply run_bindR. Qed.

End RunLemmas.

Lemma run_catchR {A} (r : Res A) (h : error -> M A) :
  forall rs tr,
    run (catchR r h) rs tr =
    match run r rs tr with
    | Finished (Err e) s rs' tr' => run (h e s) rs' tr'
    | o => o
    end.
Proof.
  induction r as [x s | c s k IH]; intros rs tr.
  - destruct x; reflexivity.
  - destruct c; simpl; try (destruct rs; [reflexivity | apply IH]).
    apply IH.
Qed.

Lemma run_await (c : call) (s : State) rs tr :
  c <> Tick ->
  run (await c s) rs tr =
  match rs with
  | [] => Suspended c s tr
  | Resolved v :: rs' => Finished (Ok v) (after c s) rs' (tr ++ [(c, Resolved v)])
  | Rejected e :: rs' => Finished (Err e) (after c s) rs' (tr ++ [(c, Rejected e)])
  end.
Proof.
  intros Hc. destruct c; try congruence;
    destruct rs as [|[v|e] rs']; reflexivity.
Qed.

Lemma run_tick (s : State) rs tr :
  run (tick s) rs tr = Finished (Ok tt) s rs tr.
Proof. reflexivity. Qed.

Lemma run_await_ {A} (m : M A) (s : State) rs tr :
  run (await_ m s) rs tr = run (m s) rs tr.
Proof.
  unfold await_. rewrite run_bind.
  destruct (run (m s) rs tr) as [[a|e|] s' rs' tr'|]; try reflexivity.
Qed.

(** ** What a method calls and what it leaves alone *)

(** [sat P I Q r]: whatever the environment answers, [r] only issues calls
    in [P], keeps the state in [I] provided it finds it there when resumed,
    and its value, if any, is in [Q]. *)
Fixpoint sat {A} (P : call -> Prop) (I : State -> Prop) (Q : A -> Prop)
  (r : Res A) : Prop :=
  match r with
  | Done (Ok a) s => I s /\ Q a
  | Done _ s => I s
  | Await c s k =>
      match c with Tick => True | _ => P c end /\
      I s /\ forall resp s', I s' -> sat P I Q (k resp s')
  end.

Definition Sat {A} (P : call -> Prop) (I : State -> Prop) (Q : A -> Prop)
  (m : M A) : Prop :=
  forall s, I s -> sat P I Q (m s).

Section SatLemmas.

Variable P : call -> Prop.
Variable I : State -> Prop.

Lemma sat_weaken {A} (Q Q' : A -> Prop) (r : Res A) :
  (forall a, Q a -> Q' a) -> sat P I Q r -> sat P I Q' r.
Proof.
  intros HQ. induction r as [[a|e|] s | c s k IH]; simpl; intuition.
Qed.

Lemma sat_bindR {A B} (Q1 : A -> Prop) (Q2 : B -> Prop) (r : Res A)
  (f : A -> M B) :
  sat P I Q1 r -> (forall a, Q1 a -> Sat P I Q2 (f a)) ->
  sat P I Q2 (bindR r f).
Proof.
  intros Hr Hf. induction r as [[a|e|] s | c s k IH]; simpl in *.
  - destruct Hr as [Hs Ha]. apply Hf; assumption.
  - assumption.
  - assumption.
  - destruct Hr as (Hc & Hs & Hk). repeat split; auto.
Qed.

Lemma Sat_bind {A B} (Q1 : A -> Prop) (Q2 : B -> Prop) (m : M A)
  (f : A -> M B) :
  Sat P I Q1 m -> (forall a, Q1 a -> Sat P I Q2 (f a)) ->
  Sat P I Q2 (bind m f).
Proof.
  intros Hm Hf s Hs. unfold bind. eapply sat_bindR; eauto.
Qed.

Lemma Sat_ret {A} (Q : A -> Prop) (a : A) : Q a -> Sat P I Q (ret a).
Proof. intros Ha s Hs. simpl. auto. Qed.

Lemma Sat_throw {A} (Q : A -> Prop) (e : error) : Sat P I Q (throw e).
Proof. intros s Hs. simpl. auto. Qed.

Lemma Sat_out_of_fuel {A} (Q : A -> Prop) : Sat P I Q out_of_fuel.
Proof. intros s Hs. simpl. auto. Qed.

Lemma Sat_await (c : call) :
  match c with Tick => True | _ => P c end ->
  Sat P I (fun _ => True) (await c).
Proof.
  intros Hc s Hs. simpl. repeat split; auto.
  intros [v|e] s' Hs'; simpl; auto.
Qed.

Lemma Sat_tick : Sat P I (fun _ => True) tick.
Proof. intros s Hs. simpl. auto. Qed.

Lemma Sat_sleep (ms : Z) : P (Timeout ms) -> Sat P I (fun _ => True) (sleep ms).
Proof. intros Hc s Hs. simpl. auto. Qed.

Lemma Sat_get_state : Sat P I I get_state.
Proof. intros s Hs. simpl. auto. Qed.

Lemma Sat_modify (f : State -> State) :
  (forall s, I s -> I (f s)) -> Sat P I (fun _ => True) (modify f).
Proof. intros Hf s Hs. simpl. auto. Qed.

Lemma Sat_weaken {A} (Q Q' : A -> Prop) (m : M A) :
  (forall a, Q a -> Q' a) -> Sat P I Q m -> Sat P I Q' m.
Proof. intros HQ Hm s Hs. eapply sat_weaken; eauto. Qed.

Lemma Sat_await_ {A} (Q : A -> Prop) (m : M A) :
  Sat P I Q m -> Sat P I Q (await_ m).
Proof.
  intros Hm. unfold await_. eapply Sat_bind; [exact Hm|].
  intros a Ha. eapply Sat_bind; [apply Sat_tick|].
  intros _ _. apply Sat_ret; assumption.
Qed.

Lemma Sat_try_catch {A} (Q : A -> Prop) (m : M A) (h : error -> M A) :
  Sat P I Q m -> (forall e, Sat P I Q (h e)) -> Sat P I Q (try_catch m h).
Proof.
  intros Hm Hh s Hs. unfold try_catch. specialize (Hm s Hs).
  induction (m s) as [[a|e|] s1 | c s1 k IH]; simpl in *; auto.
  - apply Hh. assumption.
  - destruct Hm as (Hc & Hs1 & Hk). repeat split; auto.
Qed.

Lemma Sat_forEach {A} (l : list A) (f : A -> M unit) :
  (forall x, In x l -> Sat P I (fun _ => True) (f x)) ->
  Sat P I (fun _ => True) (forEach l f).
Proof.
  induction l as [|x l IH]; intros Hf; simpl.
  - apply Sat_ret; exact Logic.I.
  - eapply Sat_bind; [apply Hf; left; reflexivity|].
    intros _ _. apply IH. intros y Hy. apply Hf. right. assumption.
Qed.

Lemma Sat_settle {A} (m : M A) :
  Sat P I (fun _ => True) m -> Sat P I (fun _ => True) (settle m).
Proof.
  intros Hm. unfold settle. apply Sat_try_catch.
  - eapply Sat_bind; [exact Hm|]. intros x _. apply Sat_ret; exact Logic.I.
  - intros e. apply Sat_ret; exact Logic.I.
Qed.

Lemma Sat_allM {A B} (l : list A) (f : A -> M B) :
  (forall x, In x l -> Sat P I (fun _ => True) (f x)) ->
  Sat P I (fun _ => True) (allM f l).
Proof.
  induction l as [|x l IH]; intros Hf; simpl.
  - apply Sat_ret; exact Logic.I.
  - assert (Hrest : Sat P I (fun _ => True) (allM f l)).
    { apply IH. intros z Hz. apply Hf. right. assumption. }
    eapply Sat_bind; [apply Sat_settle; apply Hf; left; reflexivity|].
    intros [y|e] _.
    + eapply Sat_bind; [exact Hrest|].
      intros ys _. apply Sat_ret; exact Logic.I.
    + eapply Sat_bind; [apply Sat_settle; exact Hrest|].
      intros _ _. apply Sat_throw.
Qed.

Lemma Sat_mapM {A B} (l : list A) (f : A -> M B) :
  (forall x, In x l -> Sat P I (fun _ => True) (f x)) ->
  Sat P I (fun _ => True) (mapM f l).
Proof.
  induction l as [|x l IH]; intros Hf; simpl.
  - apply Sat_ret; exact Logic.I.
  - eapply Sat_bind; [apply Hf; left; reflexivity|].
    intros y _. eapply Sat_bind; [apply IH|].
    + intros z Hz. apply Hf. right. assumption.
    + intros ys _. apply Sat_ret; exact Logic.I.
Qed.

(** A run of a method that satisfies [sat] adds only calls in [P] to the
    trace, ends in a state in [I] and with a value in [Q]. *)
Hypothesis I_after : forall c s, I s -> I (after c s).

Lemma sat_run {A} (Q : A -> Prop) (r : Res A) :
  sat P I Q r ->
  forall rs tr,
  exists evs,
    trace_of (run r rs tr) = tr ++ evs /\
    Forall (fun ev => P (fst ev)) evs /\
    I (state_of (run r rs tr)) /\
    (forall a, result_of (run r rs tr) = Some (Ok a) -> Q a).
Proof.
  induction r as [x s | c s k IH]; intros Hr rs tr.
  - exists []. simpl. rewrite app_nil_r. repeat split; auto.
    + destruct x; simpl in Hr; intuition.
    + intros a Ha. inversion Ha; subst. simpl in Hr. intuition.
  - simpl in Hr. destruct Hr as (Hc & Hs & Hk).
    destruct c; simpl.
    1: { apply IH. apply Hk. assumption. }
    all: destruct rs as [|resp rs'];
      [ exists []; simpl; rewrite app_nil_r; repeat split; auto;
        intros ? ?; discriminate
      | match goal with
        | |- context [run (_ ?r1 ?s1) ?rs1 (?tr1 ++ [(?c1, _)])] =>
            destruct (IH r1 s1 (Hk r1 s1 (I_after c1 _ Hs)) rs1
                        (tr1 ++ [(c1, r1)])) as (evs & Ht & Hf & Hi & Hq);
            exists ((c1, r1) :: evs); rewrite Ht, <- app_assoc; simpl;
            repeat split; auto
        end ].
Qed.

End SatLemmas.

(** * The adapter pool *)

(** ** Connecting, and connecting again *)

(** How an attempt of [connecting] fails: [adapter.connect()] rejects, or
    it resolves and the [adapterConnected] hook rejects. *)
Inductive failure : Type :=
| ConnectFailed (e : error)
| HookFailed (v : value) (e : error).

Definition failure_error (f : failure) : error :=
  match f with
  | ConnectFailed e => e
  | HookFailed _ e => e
  end.

(** A hook can only fail where one is registered. *)
Definition possible (svc : Service) (f : failure) : Prop :=
  match f with
  | ConnectFailed _ => True
  | HookFailed _ _ => has_hook svc "adapterConnected" = true
  end.

(** The answers of the environment in a failed attempt, and the calls and
    answers the attempt leaves in the trace. *)
Definition failed_answers (f : failure) : list response :=
  match f with
  | ConnectFailed e => [Rejected e]
  | HookFailed v e => [Resolved v; Rejected e]
  end.

Definition failed_trace (a : adapter) (h : string) (o : value) (f : failure)
  : trace :=
  match f with
  | ConnectFailed e => [(AdapterCall a connect [], Rejected e)]
  | HookFailed v e =>
      [(AdapterCall a connect [], Resolved v);
       (HookAdapterConnected a h o, Rejected e)]
  end.

(** A failed attempt followed by the timer that fires. *)
Definition retry_answers (fs : list failure) : list response :=
  flat_map (fun f => failed_answers f ++ [Resolved VUndefined]) fs.

Definition retry_trace (a : adapter) (h : string) (o : value)
  (fs : list failure) : trace :=
  flat_map (fun f => failed_trace a h o f ++ [(Timeout 1000, Resolved VUndefined)]) fs.

(** The attempt that succeeds. *)
Definition success_answers (svc : Service) (v hv : value) : list response :=
  if has_hook svc "adapterConnected" then [Resolved v; Resolved hv]
  else [Resolved v].

Definition success_trace (svc : Service) (a : adapter) (h : string) (o : value)
  (v hv : value) : trace :=
  if has_hook svc "adapterConnected"
  then [(AdapterCall a connect [], Resolved v);
        (HookAdapterConnected a h o, Resolved hv)]
  else [(AdapterCall a connect [], Resolved v)].

(** The timers set in a trace, and the attempts made. *)
Definition waits (tr : trace) : list Z :=
  flat_map (fun ev => match fst ev with Timeout ms => [ms] | _ => [] end) tr.

Definition attempts (tr : trace) : nat :=
  List.length (filter (fun ev => calls_method connect (fst ev)) tr).

Section Connecting.

Variable svc : Service.
Variables (a : adapter) (h : string) (o : value).

Lemma connecting_fails_once (n : nat) (f : failure) s rs tr :
  possible svc f ->
  run (connecting svc (S n) a h o s) (failed_answers f ++ rs) tr =
  if autoReconnect svc
  then run ((sleep 1000 ;; connecting svc n a h o) s) rs
           (tr ++ failed_trace a h o f)
  else Finished (Err (failure_error f)) s rs (tr ++ failed_trace a h o f).
Proof.
  intros Hf. simpl connecting. unfold try_catch.
  rewrite run_catchR, run_bind, run_await by discriminate.
  destruct f as [e | v e]; simpl failed_answers; simpl app.
  - simpl. destruct (autoReconnect svc); reflexivity.
  - simpl in Hf. rewrite Hf. rewrite run_bind, run_await by discriminate.
    simpl. rewrite <- app_assoc. simpl.
    destruct (autoReconnect svc); reflexivity.
Qed.

Lemma connecting_succeeds (n : nat) (v hv : value) s rs tr :
  run (connecting svc (S n) a h o s) (success_answers svc v hv ++ rs) tr =
  Finished (Ok tt) s rs (tr ++ success_trace svc a h o v hv).
Proof.
  simpl connecting. unfold try_catch, success_answers, success_trace.
  rewrite run_catchR, run_bind.
  destruct (has_hook svc "adapterConnected"); simpl.
  - rewrite <- app_assoc. reflexivity.
  - reflexivity.
Qed.

Lemma connecting_waits (n : nat) s tr :
  run (connecting svc (S n) a h o s) [] tr =
  Suspended (AdapterCall a connect []) s tr.
Proof. reflexivity. Qed.

(** After the failures [fs], each followed by its timer, [connecting] is
    where it started, [length fs] timers later. *)
Lemma connecting_retries (fs : list failure) :
  autoReconnect svc = true ->
  Forall (possible svc) fs ->
  forall n s rs tr,
    run (connecting svc (List.length fs + n) a h o s) (retry_answers fs ++ rs) tr =
    run (connecting svc n a h o
           (Nat.iter (List.length fs) (after (Timeout 1000)) s))
        rs (tr ++ retry_trace a h o fs).
Proof.
  intros Hauto Hfs. induction Hfs as [|f fs Hf Hfs IH]; intros n s rs tr.
  - simpl. rewrite app_nil_r. reflexivity.
  - simpl retry_answers. simpl retry_trace. simpl List.length.
    rewrite <- !app_assoc.
    change (S (List.length fs) + n)%nat with (S (List.length fs + n)).
    rewrite connecting_fails_once by assumption.
    rewrite Hauto. rewrite run_bind. simpl app.
    change (run (sleep 1000 s) (Resolved VUndefined :: retry_answers fs ++ rs)
              (tr ++ failed_trace a h o f))
      with (Finished (Ok tt) (after (Timeout 1000) s) (retry_answers fs ++ rs)
              ((tr ++ failed_trace a h o f) ++ [(Timeout 1000, Resolved VUndefined)])).
    cbv beta iota. rewrite IH. rewrite <- !app_assoc.
    replace (Nat.iter (List.length fs) (after (Timeout 1000)) (after (Timeout 1000) s))
      with (Nat.iter (S (List.length fs)) (after (Timeout 1000)) s).
    + reflexivity.
    + apply Nat.iter_succ_r.
Qed.

Lemma waits_retry_trace (fs : list failure) :
  waits (retry_trace a h o fs) = repeat 1000 (List.length fs).
Proof.
  induction fs as [|f fs IH]; simpl; [reflexivity|].
  unfold waits in *. rewrite flat_map_app. rewrite IH.
  destruct f; reflexivity.
Qed.

Lemma waits_success_trace (v hv : value) :
  waits (success_trace svc a h o v hv) = [].
Proof. unfold success_trace. destruct (has_hook svc _); reflexivity. Qed.

Lemma attempts_retry_trace (fs : list failure) :
  attempts (retry_trace a h o fs) = List.length fs.
Proof.
  induction fs as [|f fs IH]; simpl; [reflexivity|].
  unfold attempts in *. rewrite filter_app, length_app, IH.
  destruct f; reflexivity.
Qed.

Lemma attempts_success_trace (v hv : value) :
  attempts (success_trace svc a h o v hv) = 1%nat.
Proof. unfold success_trace. destruct (has_hook svc _); reflexivity. Qed.

Lemma clock_elapsed (k : nat) s :
  clock (Nat.iter k (after (Timeout 1000)) s) = clock s + 1000 * Z.of_nat k.
Proof.
  induction k as [|k IH].
  - simpl. lia.
  - rewrite Nat2Z.inj_succ.
    change (Nat.iter (S k) (after (Timeout 1000)) s)
      with (after (Timeout 1000) (Nat.iter k (after (Timeout 1000)) s)).
    change (clock (after (Timeout 1000) (Nat.iter k (after (Timeout 1000)) s)))
      with (clock (Nat.iter k (after (Timeout 1000)) s) + 1000).
    rewrite IH. lia.
Qed.

End Connecting.

(** What [_connect] does with the answers of the adapter, from any point
    of a run: with [autoReconnect] off it rejects with the error of the
    first failure and sets no timer; with [autoReconnect] on, after any
    number of failed attempts the next attempt is made 1000 ms after the
    last, always the same interval; the promise stays pending while the
    attempts fail and resolves at the first that succeeds, after as many
    waits as there were failures. *)
Lemma connect_retries :
  forall (svc : Service) (a : adapter) (h : string) (o : value) (s : State)
         (fs : list failure) (n : nat) (rs : list response) (tr : trace),
    Forall (possible svc) fs ->
    (List.length fs < n)%nat ->
    (autoReconnect svc = false ->
     forall f, possible svc f ->
       run (_connect svc n a h o s) (failed_answers f ++ rs) tr =
       Finished (Err (failure_error f)) s rs (tr ++ failed_trace a h o f) /\
       waits (failed_trace a h o f) = []) /\
    (autoReconnect svc = true ->
     (forall v hv,
        run (_connect svc n a h o s)
            (retry_answers fs ++ success_answers svc v hv ++ rs) tr =
        Finished (Ok tt) (Nat.iter (List.length fs) (after (Timeout 1000)) s) rs
                 (tr ++ retry_trace a h o fs ++ success_trace svc a h o v hv) /\
        waits (retry_trace a h o fs ++ success_trace svc a h o v hv) =
        repeat 1000 (List.length fs) /\
        attempts (retry_trace a h o fs ++ success_trace svc a h o v hv) =
        S (List.length fs)) /\
     run (_connect svc n a h o s) (retry_answers fs) tr =
     Suspended (AdapterCall a connect [])
               (Nat.iter (List.length fs) (after (Timeout 1000)) s)
               (tr ++ retry_trace a h o fs)).
Proof.
  intros svc a h o s fs n rs tr Hfs Hn. unfold _connect.
  destruct n as [|n]; [lia|]. split.
  - intros Hoff f Hf. split.
    + rewrite connecting_fails_once by assumption. rewrite Hoff. reflexivity.
    + destruct f; reflexivity.
  - intros Hon.
    replace (S n) with (List.length fs + S (n - List.length fs))%nat by lia.
    split.
    + intros v hv. split; [|split].
      * rewrite connecting_retries by assumption.
        rewrite connecting_succeeds. rewrite <- app_assoc. reflexivity.
      * unfold waits. rewrite flat_map_app.
        fold (waits (retry_trace a h o fs)).
        fold (waits (success_trace svc a h o v hv)).
        rewrite waits_retry_trace, waits_success_trace, app_nil_r. reflexivity.
      * unfold attempts. rewrite filter_app, length_app.
        fold (attempts (retry_trace a h o fs)).
        fold (attempts (success_trace svc a h o v hv)).
        rewrite attempts_retry_trace, attempts_success_trace. lia.
    + rewrite <- (app_nil_r (retry_answers fs)).
      rewrite connecting_retries by assumption.
      rewrite connecting_waits. reflexivity.
Qed.

(** ** The maintenance pass *)

(** A pool as [getAdapter] builds it: one entry per key (it is a [Map]) and
    one per handle (each entry gets the handle made for it). *)
Definition pool_wf (p : list Item) : Prop :=
  NoDup (map hash p) /\ NoDup (map adapter_of p).

Definition older (x y : Item) : Prop := touched x <= touched y.

(** What [_disconnect] does to the pool. *)
Definition release (a : adapter) (p : list Item) : list Item :=
  match Pool.find_adapter a p with
  | Some item => Pool.delete (hash item) p
  | None => p
  end.

Definition release_all (l : list Item) (p : list Item) : list Item :=
  fold_left (fun p it => release (adapter_of it) p) l p.

(** The entries a maintenance pass closes. *)
Definition closeable (maximum : Z) (p : list Item) : list Item :=
  firstn (Z.to_nat (Z.of_nat (List.length p) - maximum)) (Pool.sort p).

Section PoolFacts.

Lemma place_perm (x : Item) (l : list Item) :
  Permutation (Pool.place x l) (x :: l).
Proof.
  induction l as [|y l IH]; simpl.
  - apply Permutation_refl.
  - destruct (touched x <=? touched y).
    + apply Permutation_refl.
    + eapply Permutation_trans; [apply perm_skip, IH | apply perm_swap].
Qed.

Lemma sort_perm (l : list Item) : Permutation (Pool.sort l) l.
Proof.
  induction l as [|x l IH]; simpl.
  - constructor.
  - eapply Permutation_trans; [apply place_perm | apply perm_skip, IH].
Qed.

Lemma place_sorted (x : Item) (l : list Item) :
  StronglySorted older l -> StronglySorted older (Pool.place x l).
Proof.
  induction 1 as [|y l Hl IH Hy]; simpl.
  - repeat constructor.
  - destruct (touched x <=? touched y) eqn:E.
    + apply Z.leb_le in E. constructor; [constructor; assumption|].
      constructor; [exact E|].
      eapply Forall_impl; [|exact Hy]. unfold older. intros; lia.
    + apply Z.leb_gt in E. constructor; [exact IH|].
      eapply Permutation_Forall; [apply Permutation_sym, place_perm|].
      constructor; [unfold older; lia | exact Hy].
Qed.

Lemma sort_sorted (l : list Item) : StronglySorted older (Pool.sort l).
Proof.
  induction l as [|x l IH]; simpl.
  - constructor.
  - apply place_sorted, IH.
Qed.

(** In a sorted list nothing among the first [k] is younger than
    anything after them. *)
Lemma sorted_split (l : list Item) :
  StronglySorted older l ->
  forall k e r, In e (firstn k l) -> In r (skipn k l) -> older e r.
Proof.
  induction 1 as [|y l Hl IH Hy]; intros k e r He Hr.
  - rewrite firstn_nil in He. destruct He.
  - destruct k as [|k]; simpl in *; [destruct He|].
    destruct He as [<- | He].
    + rewrite Forall_forall in Hy. apply Hy.
      rewrite <- (firstn_skipn k l). apply in_or_app. right. exact Hr.
    + eapply IH; eassumption.
Qed.

Lemma delete_absent (h : string) (p : list Item) :
  ~ In h (map hash p) -> Pool.delete h p = p.
Proof.
  induction p as [|it p IH]; simpl; intros Hn; [reflexivity|].
  destruct (String.eqb h (hash it)) eqn:E.
  - apply String.eqb_eq in E. subst. exfalso. apply Hn. left. reflexivity.
  - simpl. f_equal. apply IH. intros H. apply Hn. right. exact H.
Qed.

Lemma delete_perm (it : Item) (p : list Item) :
  NoDup (map hash p) -> In it p ->
  Permutation p (it :: Pool.delete (hash it) p).
Proof.
  induction p as [|x p IH]; simpl; intros Hnd Hin; [destruct Hin|].
  inversion Hnd as [|? ? Hx Hp]; subst.
  destruct Hin as [-> | Hin].
  - rewrite String.eqb_refl. simpl.
    rewrite delete_absent by assumption. apply Permutation_refl.
  - destruct (String.eqb (hash it) (hash x)) eqn:E.
    + apply String.eqb_eq in E. exfalso. apply Hx. rewrite <- E.
      apply in_map. exact Hin.
    + simpl. eapply Permutation_trans; [apply perm_skip, IH; assumption|].
      apply perm_swap.
Qed.

Lemma find_adapter_own (it : Item) (p : list Item) :
  NoDup (map adapter_of p) -> In it p ->
  Pool.find_adapter (adapter_of it) p = Some it.
Proof.
  unfold Pool.find_adapter.
  induction p as [|x p IH]; simpl; intros Hnd Hin; [destruct Hin|].
  inversion Hnd as [|? ? Hx Hp]; subst.
  destruct Hin as [-> | Hin].
  - rewrite Nat.eqb_refl. reflexivity.
  - destruct (Nat.eqb (adapter_of x) (adapter_of it)) eqn:E.
    + apply Nat.eqb_eq in E. exfalso. apply Hx. rewrite E.
      apply in_map. exact Hin.
    + apply IH; assumption.
Qed.

Lemma release_perm (it : Item) (p : list Item) :
  pool_wf p -> In it p ->
  Permutation p (it :: release (adapter_of it) p).
Proof.
  intros [Hh Ha] Hin. unfold release.
  rewrite find_adapter_own by assumption. apply delete_perm; assumption.
Qed.

Lemma pool_wf_perm (p q : list Item) :
  Permutation p q -> pool_wf p -> pool_wf q.
Proof.
  intros Hpq [Hh Ha]. split.
  - eapply Permutation_NoDup; [apply Permutation_map, Hpq | exact Hh].
  - eapply Permutation_NoDup; [apply Permutation_map, Hpq | exact Ha].
Qed.

Lemma pool_wf_tail (it : Item) (p : list Item) :
  pool_wf (it :: p) -> pool_wf p /\ ~ In it p.
Proof.
  intros [Hh Ha]. simpl in *.
  inversion Hh as [|? ? Hx Hp]; inversion Ha as [|? ? Hx' Hp']; subst.
  repeat split; auto.
  intros Hin. apply Hx. apply in_map. exact Hin.
Qed.

(** Releasing entries of the pool, each once, leaves the others. *)
Lemma release_all_perm (l : list Item) :
  forall p, pool_wf p -> NoDup l -> incl l p ->
            Permutation p (l ++ release_all l p) /\ pool_wf (release_all l p).
Proof.
  induction l as [|it l IH]; intros p Hwf Hnd Hincl; simpl.
  - split; [apply Permutation_refl | exact Hwf].
  - inversion Hnd as [|? ? Hit Hl]; subst.
    assert (Hin : In it p) by (apply Hincl; left; reflexivity).
    pose proof (@release_perm it p Hwf Hin) as Hp.
    pose proof (@pool_wf_perm _ _ Hp Hwf) as Hwf'.
    apply pool_wf_tail in Hwf'. destruct Hwf' as [Hwf' _].
    assert (Hincl' : incl l (release (adapter_of it) p)).
    { intros x Hx.
      assert (Hxp : In x (it :: release (adapter_of it) p)).
      { eapply Permutation_in; [exact Hp|]. apply Hincl. right. exact Hx. }
      destruct Hxp as [<- | Hxp]; [contradiction | exact Hxp]. }
    destruct (IH _ Hwf' Hl Hincl') as [Hperm Hwf2].
    split; [|exact Hwf2].
    eapply Permutation_trans; [exact Hp|]. apply perm_skip. exact Hperm.
Qed.

Lemma closeable_length (maximum : Z) (p : list Item) :
  List.length (closeable maximum p) =
  Z.to_nat (Z.of_nat (List.length p) - maximum) \/
  (maximum < 0 /\ List.length (closeable maximum p) = List.length p).
Proof.
  unfold closeable. rewrite length_firstn.
  rewrite (Permutation_length (sort_perm p)).
  destruct (Z_lt_le_dec maximum 0); [right | left]; lia.
Qed.

End PoolFacts.

Lemma run_ret {A} (a : A) s rs tr :
  run (ret a s) rs tr = Finished (Ok a) s rs tr.
Proof. reflexivity. Qed.

Lemma run_throw {A} (e : error) s rs tr :
  run (@throw A e s) rs tr = Finished (Err e) s rs tr.
Proof. reflexivity. Qed.

Lemma run_get_state s rs tr :
  run (get_state s) rs tr = Finished (Ok s) s rs tr.
Proof. reflexivity. Qed.

Lemma run_modify f s rs tr :
  run (modify f s) rs tr = Finished (Ok tt) (f s) rs tr.
Proof. reflexivity. Qed.

(** The handles whose [disconnect] is called in a trace, in order. *)
Definition disconnected (tr : trace) : list adapter :=
  flat_map (fun ev => match fst ev with
                      | AdapterCall a disconnect _ => [a]
                      | _ => []
                      end) tr.

Definition is_resolved (r : response) : bool :=
  match r with
  | Resolved _ => true
  | Rejected _ => false
  end.

Section Maintenance.

Variable svc : Service.

Lemma disconnected_app tr1 tr2 :
  disconnected (tr1 ++ tr2) = disconnected tr1 ++ disconnected tr2.
Proof. apply flat_map_app. Qed.

(** The pool is updated before [_disconnect] waits for anything. *)
Lemma disconnect_pool a h s :
  exists s1,
    adapters s1 = release a (adapters s) /\
    forall rs tr,
      run (_disconnect svc a h s) rs tr =
      run (((if hasDisconnect svc a
             then await (AdapterCall a disconnect []) ;; ret tt
             else ret tt) ;;
            (if has_hook svc "adapterDisconnected"
             then await (HookAdapterDisconnected a h) ;; ret tt
             else ret tt)) s1) rs tr.
Proof.
  exists (match Pool.find_adapter a (adapters s) with
          | Some item => with_adapters (Pool.delete (hash item) (adapters s)) s
          | None => s
          end).
  split.
  - unfold release. destruct (Pool.find_adapter a (adapters s)); reflexivity.
  - intros rs tr. unfold _disconnect. rewrite run_bind, run_get_state.
    rewrite run_bind.
    destruct (Pool.find_adapter a (adapters s)); reflexivity.
Qed.

Lemma disconnect_finished a h s rs tr s' rs' tr' :
  run (_disconnect svc a h s) rs tr = Finished (Ok tt) s' rs' tr' ->
  adapters s' = release a (adapters s) /\
  disconnected tr' =
  disconnected tr ++ (if hasDisconnect svc a then [a] else []).
Proof.
  destruct (disconnect_pool a h s) as (s1 & Hs1 & ->).
  rewrite run_bind.
  destruct (hasDisconnect svc a).
  - rewrite run_bind, run_await by discriminate.
    destruct rs as [|[v|e] rs1]; try discriminate. rewrite run_ret.
    destruct (has_hook svc "adapterDisconnected").
    + rewrite run_bind, run_await by discriminate.
      destruct rs1 as [|[v1|e1] rs2]; try discriminate. rewrite run_ret.
      intros H; inversion H; subst. split; [assumption|].
      rewrite !disconnected_app. simpl. rewrite app_nil_r. reflexivity.
    + rewrite run_ret. intros H; inversion H; subst. split; [assumption|].
      rewrite !disconnected_app. reflexivity.
  - rewrite run_ret.
    destruct (has_hook svc "adapterDisconnected").
    + rewrite run_bind, run_await by discriminate.
      destruct rs as [|[v1|e1] rs2]; try discriminate. rewrite run_ret.
      intros H; inversion H; subst. split; [assumption|].
      rewrite !disconnected_app. simpl. rewrite app_nil_r. reflexivity.
    + rewrite run_ret. intros H; inversion H; subst. split; [assumption|].
      rewrite app_nil_r. reflexivity.
Qed.

(** [_disconnect] returns when the adapter and the hook answer. *)
Lemma disconnect_returns a h s rs tr :
  forallb is_resolved rs = true -> (2 <= List.length rs)%nat ->
  exists s' rs' tr',
    run (_disconnect svc a h s) rs tr = Finished (Ok tt) s' rs' tr' /\
    forallb is_resolved rs' = true /\
    (List.length rs <= 2 + List.length rs')%nat.
Proof.
  intros Hres Hlen.
  destruct (disconnect_pool a h s) as (s1 & Hs1 & ->).
  destruct rs as [|[v1|e1] [|[v2|e2] rs]]; simpl in Hres, Hlen;
    try discriminate; try lia.
  rewrite run_bind.
  destruct (hasDisconnect svc a).
  - rewrite run_bind, run_await by discriminate. rewrite run_ret.
    destruct (has_hook svc "adapterDisconnected").
    + rewrite run_bind, run_await by discriminate. rewrite run_ret.
      do 3 eexists. split; [reflexivity|]. split; [exact Hres | simpl; lia].
    + rewrite run_ret.
      do 3 eexists. split; [reflexivity|]. split; [exact Hres | simpl; lia].
  - rewrite run_ret.
    destruct (has_hook svc "adapterDisconnected").
    + rewrite run_bind, run_await by discriminate. rewrite run_ret.
      do 3 eexists. split; [reflexivity|]. split; [exact Hres | simpl; lia].
    + rewrite run_ret.
      do 3 eexists. split; [reflexivity|]. split; [exact Hres | simpl; lia].
Qed.

Definition release_loop (l : list Item) : M unit :=
  forEach l (fun it => await_ (_disconnect svc (adapter_of it) (hash it))).

Lemma release_loop_finished (l : list Item) :
  forall s rs tr s' rs' tr',
    run (release_loop l s) rs tr = Finished (Ok tt) s' rs' tr' ->
    adapters s' = release_all l (adapters s) /\
    disconnected tr' =
    disconnected tr ++ filter (hasDisconnect svc) (map adapter_of l).
Proof.
  unfold release_loop.
  induction l as [|it l IH]; intros s rs tr s' rs' tr'; simpl forEach.
  - rewrite run_ret. intros H; inversion H; subst.
    simpl. rewrite app_nil_r. auto.
  - rewrite run_bind, run_await_.
    destruct (run (_disconnect svc (adapter_of it) (hash it) s) rs tr)
      as [[[]|e|] s1 rs1 tr1|] eqn:E; try discriminate.
    apply disconnect_finished in E. destruct E as [Hs1 Ht1].
    intros H. apply IH in H. destruct H as [Hs' Ht'].
    split.
    + rewrite Hs', Hs1. reflexivity.
    + rewrite Ht', Ht1, <- app_assoc. simpl.
      destruct (hasDisconnect svc (adapter_of it)); reflexivity.
Qed.

Lemma release_loop_returns (l : list Item) :
  forall s rs tr,
    forallb is_resolved rs = true ->
    (2 * List.length l <= List.length rs)%nat ->
    exists s' rs' tr',
      run (release_loop l s) rs tr = Finished (Ok tt) s' rs' tr'.
Proof.
  unfold release_loop.
  induction l as [|it l IH]; intros s rs tr Hres Hlen; simpl forEach.
  - rewrite run_ret. eauto.
  - simpl in Hlen. rewrite run_bind, run_await_.
    destruct (@disconnect_returns (adapter_of it) (hash it) s rs tr Hres)
      as (s1 & rs1 & tr1 & -> & Hres1 & Hlen1); [lia|].
    apply IH; [assumption | lia].
Qed.

Lemma maintenance_is_release_loop (maximum : Z) s :
  maximumAdapters svc = Some maximum -> 1 <= maximum ->
  forall rs tr,
    run (maintenanceAdapters svc s) rs tr =
    run (release_loop (closeable maximum (adapters s)) s) rs tr.
Proof.
  intros Hmax Hle rs tr. unfold maintenanceAdapters. rewrite Hmax.
  destruct (maximum <? 1) eqn:E; [apply Z.ltb_lt in E; lia|].
  rewrite run_bind, run_get_state. unfold closeable.
  destruct (0 <? Z.of_nat (List.length (adapters s)) - maximum) eqn:E2.
  - reflexivity.
  - apply Z.ltb_ge in E2.
    replace (Z.to_nat (Z.of_nat (List.length (adapters s)) - maximum))
      with O by lia.
    reflexivity.
Qed.

End Maintenance.

(** C5: with a maximum pool size configured (at least 1), a maintenance
    pass that completes leaves at most that many entries in the pool; what
    it evicts are the [size - max] first entries of the pool sorted by
    [touched]: the pool is the evicted entries together with the retained
    ones, and no evicted entry was touched later than a retained one.  The
    pass completes when the adapters and the hook answer. *)
Theorem maintenance_keeps_most_recent :
  forall (svc : Service) (maximum : Z) (s : State),
    maximumAdapters svc = Some maximum ->
    1 <= maximum ->
    pool_wf (adapters s) ->
    let size := Z.of_nat (List.length (adapters s)) in
    let evicted := closeable maximum (adapters s) in
    (forall rs s' rs' tr,
       exec (maintenanceAdapters svc) s rs = Finished (Ok tt) s' rs' tr ->
       Z.of_nat (List.length (adapters s')) <= maximum /\
       Z.of_nat (List.length evicted) = Z.max 0 (size - maximum) /\
       Permutation (adapters s) (evicted ++ adapters s') /\
       (forall e r, In e evicted -> In r (adapters s') -> touched e <= touched r) /\
       disconnected tr = filter (hasDisconnect svc) (map adapter_of evicted)) /\
    (forall rs,
       forallb is_resolved rs = true ->
       (2 * List.length evicted <= List.length rs)%nat ->
       exists s' rs' tr,
         exec (maintenanceAdapters svc) s rs = Finished (Ok tt) s' rs' tr).
Proof.
  intros svc maximum s Hmax Hle Hwf size evicted. unfold exec. split.
  - intros rs s' rs' tr Hrun.
    rewrite (@maintenance_is_release_loop svc maximum s Hmax Hle) in Hrun.
    apply release_loop_finished in Hrun. destruct Hrun as [Hs' Htr].
    fold evicted in Hs', Htr.
    assert (Hlen : Z.of_nat (List.length evicted) = Z.max 0 (size - maximum)).
    { subst evicted size. unfold closeable. rewrite length_firstn.
      rewrite (Permutation_length (sort_perm (adapters s))). lia. }
    assert (Hsplit : Pool.sort (adapters s) =
                     evicted ++ skipn (Z.to_nat (size - maximum))
                                      (Pool.sort (adapters s))).
    { subst evicted size. unfold closeable. symmetry. apply firstn_skipn. }
    assert (Hnd : NoDup evicted /\ incl evicted (adapters s)).
    { assert (Hs : NoDup (Pool.sort (adapters s))).
      { destruct Hwf as [Hh _].
        eapply Permutation_NoDup; [apply Permutation_sym, sort_perm|].
        eapply NoDup_map_inv. exact Hh. }
      split.
      - rewrite Hsplit in Hs. eapply NoDup_app_remove_r. exact Hs.
      - intros x Hx. eapply Permutation_in; [apply sort_perm|].
        rewrite Hsplit. apply in_or_app. left. exact Hx. }
    destruct Hnd as [Hnd Hincl].
    destruct (@release_all_perm evicted (adapters s) Hwf Hnd Hincl) as [Hperm _].
    rewrite <- Hs' in Hperm.
    assert (Hrest : Permutation (adapters s')
                      (skipn (Z.to_nat (size - maximum)) (Pool.sort (adapters s)))).
    { eapply Permutation_app_inv_l with (l := evicted).
      rewrite <- Hsplit. eapply Permutation_trans.
      - apply Permutation_sym. exact Hperm.
      - apply Permutation_sym, sort_perm. }
    repeat split.
    + pose proof (Permutation_length Hperm) as Hl. rewrite length_app in Hl.
      subst size. lia.
    + exact Hlen.
    + exact Hperm.
    + intros e r He Hr.
      apply (@sorted_split (Pool.sort (adapters s)) (sort_sorted (adapters s))
               (Z.to_nat (size - maximum)) e r).
      * exact He.
      * eapply Permutation_in; [exact Hrest | exact Hr].
    + rewrite Htr. reflexivity.
  - intros rs Hres Hlen.
    destruct (@release_loop_returns svc evicted s rs [] Hres Hlen)
      as (s' & rs' & tr & Hrun).
    exists s', rs', tr.
    rewrite (@maintenance_is_release_loop svc maximum s Hmax Hle). exact Hrun.
Qed.

(** ** Properties of objects *)

Lemma get_set_same (k : string) (v : value) (o : obj) :
  Obj.get k (Obj.set k v o) = v.
Proof.
  induction o as [|[k' v'] o IH]; simpl.
  - rewrite String.eqb_refl. reflexivity.
  - destruct (String.eqb k k') eqn:E; simpl; rewrite ?String.eqb_refl, ?E; auto.
Qed.

Lemma get_set_other (k k' : string) (v : value) (o : obj) :
  k <> k' -> Obj.get k (Obj.set k' v o) = Obj.get k o.
Proof.
  intros Hk. induction o as [|[k2 v2] o IH]; simpl.
  - apply String.eqb_neq in Hk. rewrite Hk. reflexivity.
  - destruct (String.eqb k' k2) eqn:E; simpl.
    + apply String.eqb_eq in E. subst k2.
      apply String.eqb_neq in Hk. rewrite Hk. reflexivity.
    + destruct (String.eqb k k2); auto.
Qed.

Lemma has_set (k k' : string) (v : value) (o : obj) :
  Obj.has k (Obj.set k' v o) = String.eqb k k' || Obj.has k o.
Proof.
  induction o as [|[k2 v2] o IH]; simpl.
  - reflexivity.
  - destruct (String.eqb k' k2) eqn:E; simpl.
    + apply String.eqb_eq in E. subst k2.
      destruct (String.eqb k k'); reflexivity.
    + rewrite IH. destruct (String.eqb k k2), (String.eqb k k'); reflexivity.
Qed.

(** * The scope resolver *)

(** The names [settings.scopes] answers to: the authority check is asked
    about each of them, in order. *)
Definition defined_names (svc : Service) (names : list string) : list string :=
  filter (fun n => match scope_named svc n with
                   | Some _ => true
                   | None => false
                   end) names.

(** The names that survive, given the answers of the authority check. *)
Fixpoint permitted (svc : Service) (names : list string) (answers : list value)
  : list string :=
  match names with
  | [] => []
  | n :: names' =>
      match scope_named svc n with
      | None => permitted svc names' answers
      | Some _ =>
          match answers with
          | [] => []
          | a :: answers' =>
              if truthy a then n :: permitted svc names' answers'
              else permitted svc names' answers'
          end
      end
  end.

(** The scopes they stand for. *)
Fixpoint permitted_scopes (svc : Service) (names : list string)
  (answers : list value) : list Scope :=
  match names with
  | [] => []
  | n :: names' =>
      match scope_named svc n with
      | None => permitted_scopes svc names' answers
      | Some sc =>
          match answers with
          | [] => []
          | a :: answers' =>
              if truthy a then sc :: permitted_scopes svc names' answers'
              else permitted_scopes svc names' answers'
          end
      end
  end.

Fixpoint authority_trace (svc : Service) (ctx : value) (names : list string)
  (answers : list value) : trace :=
  match names with
  | [] => []
  | n :: names' =>
      match scope_named svc n with
      | None => authority_trace svc ctx names' answers
      | Some sc =>
          match answers with
          | [] => []
          | a :: answers' =>
              (CheckScopeAuthority ctx (Some n) (Some sc), Resolved a)
                :: authority_trace svc ctx names' answers'
          end
      end
  end.

(** What folding a scope into a query means: a function is called with the
    query and the context and gives the new query; a partial query is
    merged under the query, which keeps what it has. *)
Definition fold_scope (ctx : value) (sc : Scope) (query : value) : completion :=
  match sc with
  | FunctionScope f => f query ctx
  | StaticScope d => Returns (defaultsDeep query d)
  end.

(** The scopes [scs] folded into [query], the first one first. *)
Fixpoint fold_scopes (ctx : value) (scs : list Scope) (query : value)
  : completion :=
  match scs with
  | [] => Returns query
  | sc :: rest =>
      match fold_scope ctx sc query with
      | Returns query' => fold_scopes ctx rest query'
      | Throws e => Throws e
      end
  end.

(** The query the scopes are folded into: the caller's, or an empty one. *)
Definition start_query (params : obj) : value :=
  if truthy (Obj.get "query" params) then Obj.get "query" params else VObj [].

(** What [params] become when the scopes [names] are asked for and the
    authority check gives [answers]: the permitted scopes are folded into
    the query.  Nothing is touched when no scope is asked for. *)
Definition scoped_params (svc : Service) (ctx : value)
  (names : option (list string)) (answers : list value) (params : obj)
  : result obj :=
  match names with
  | Some (n :: l) =>
      match fold_scopes ctx (permitted_scopes svc (n :: l) answers)
              (start_query params) with
      | Returns query => Ok (Obj.set "query" query params)
      | Throws e => Err e
      end
  | _ => Ok params
  end.

Definition names_of (names : option (list string)) : list string :=
  match names with
  | Some l => l
  | None => []
  end.

Definition is_scalar (v : value) : bool :=
  match v with
  | VNull | VBool _ | VNum _ | VStr _ => true
  | _ => false
  end.

Definition is_static (sc : Scope) : bool :=
  match sc with
  | StaticScope _ => true
  | FunctionScope _ => false
  end.

(** A key that no object has before it is given one. *)
Definition ordinary (k : string) : bool :=
  negb (member k ("__proto__" :: "constructor" :: objectMembers)).

(** The value the first of the static scopes [scs] that has the key [k]
    holds under it. *)
Fixpoint default_of (k : string) (scs : list Scope) : value :=
  match scs with
  | [] => VUndefined
  | StaticScope d :: rest => if Obj.has k d then Obj.get k d else default_of k rest
  | FunctionScope _ :: rest => default_of k rest
  end.

Lemma has_get_undefined (k : string) (o : obj) :
  Obj.has k o = false -> Obj.get k o = VUndefined.
Proof.
  induction o as [|[k' v'] o IH]; simpl; [reflexivity|].
  destruct (String.eqb k k'); [discriminate | exact IH].
Qed.

(** ** What a static scope leaves in a query *)

Section Defaults.

Lemma ordinary_inv (k : string) :
  ordinary k = true ->
  String.eqb k "__proto__" = false /\
  String.eqb k "constructor" = false /\
  member k objectMembers = false.
Proof.
  unfold ordinary, member. intros H. apply negb_true_iff in H.
  change (String.eqb k "__proto__" ||
          (String.eqb k "constructor" || existsb (String.eqb k) objectMembers) = false)
    in H.
  apply orb_false_iff in H. destruct H as [H1 H].
  apply orb_false_iff in H. destruct H as [H2 H3]. auto.
Qed.

(** A scalar is kept against any default. *)
Lemma defaults_value_scalar (dv sv : value) :
  is_scalar dv = true -> defaults_value dv sv = dv.
Proof. destruct sv; destruct dv; try discriminate; reflexivity. Qed.

(** A key other than [k] leaves [k] alone. *)
Lemma defaults_key_other members (d : obj) (k k' : string) (sv merged : value) :
  k <> k' ->
  Obj.get k (defaults_key members d k' sv merged) = Obj.get k d /\
  Obj.has k (defaults_key members d k' sv merged) = Obj.has k d.
Proof.
  intros Hne. unfold defaults_key.
  assert (Hb : String.eqb k k' = false) by (apply String.eqb_neq; exact Hne).
  repeat match goal with
         | |- context [if ?b then _ else _] => destruct b
         end;
    rewrite ?get_set_other, ?has_set, ?Hb by exact Hne; auto.
Qed.

(** The key [k] itself: a scalar the destination has is kept. *)
Lemma defaults_key_keeps members (d : obj) (k k' : string) (sv : value) :
  k <> "__proto__" ->
  is_scalar (Obj.get k d) = true ->
  Obj.get k (defaults_key members d k' sv (defaults_value (Obj.get k' d) sv)) =
  Obj.get k d.
Proof.
  intros Hp Hk. destruct (String.eqb k k') eqn:E.
  - apply String.eqb_eq in E. subst k'. unfold defaults_key.
    assert (Hb : String.eqb k "__proto__" = false) by (apply String.eqb_neq; exact Hp).
    rewrite Hb.
    destruct (Obj.has k d) eqn:Hh.
    + rewrite get_set_same. apply defaults_value_scalar. exact Hk.
    + rewrite (has_get_undefined _ _ Hh) in Hk. discriminate.
  - apply defaults_key_other. intros ->. rewrite String.eqb_refl in E. discriminate.
Qed.

(** The properties of the plain object [sub] as defaults of [d]. *)
Definition defaults_into (members : list string) (sub d : obj) : obj :=
  fold_left
    (fun d kv => defaults_key members d (fst kv) (snd kv)
                   (defaults_value (Obj.get (fst kv) d) (snd kv)))
    sub d.

Lemma defaults_object (sub d : obj) :
  defaults_value (VObj d) (VObj sub) = VObj (defaults_into objectMembers sub d).
Proof.
  simpl. f_equal. unfold defaults_into. revert d.
  induction sub as [|[k v] sub IH]; intros d; simpl; [reflexivity|].
  apply IH.
Qed.

Lemma defaultsDeep_object (q sc : obj) :
  defaultsDeep (VObj q) sc = VObj (defaults_into objectMembers sc q).
Proof. unfold defaultsDeep. simpl toObject. apply defaults_object. Qed.

Lemma defaults_into_keeps members (sub : obj) :
  forall (d : obj) k,
    k <> "__proto__" ->
    is_scalar (Obj.get k d) = true ->
    Obj.get k (defaults_into members sub d) = Obj.get k d.
Proof.
  unfold defaults_into.
  induction sub as [|[k' v'] sub IH]; intros d k Hp Hk; simpl; [reflexivity|].
  rewrite IH; [|exact Hp|]; rewrite defaults_key_keeps; auto.
Qed.

(** A key the destination does not have takes the value of the first
    default there is for it. *)
Lemma defaults_into_fills (sub : obj) :
  forall (d : obj) k,
    ordinary k = true ->
    Obj.get k d = VUndefined ->
    Obj.has k sub = true ->
    is_scalar (Obj.get k sub) = true ->
    Obj.get k (defaults_into objectMembers sub d) = Obj.get k sub.
Proof.
  unfold defaults_into.
  induction sub as [|[k' v'] sub IH]; intros d k Hord Hd Hhas Hv; simpl in *;
    [discriminate|].
  destruct (ordinary_inv k Hord) as (Hb & Hc & Hm).
  assert (Hp : k <> "__proto__") by (apply String.eqb_neq; exact Hb).
  destruct (String.eqb k k') eqn:E.
  - apply String.eqb_eq in E. subst k'.
    fold (defaults_into objectMembers sub
            (defaults_key objectMembers d k v' (defaults_value (Obj.get k d) v'))).
    assert (Hnow : Obj.get k (defaults_key objectMembers d k v'
                                (defaults_value (Obj.get k d) v')) = v').
    { unfold defaults_key. rewrite Hb, Hd.
      destruct (Obj.has k d).
      - rewrite get_set_same. destruct v'; reflexivity.
      - rewrite Hm, Hc. simpl. apply get_set_same. }
    rewrite defaults_into_keeps; [exact Hnow | exact Hp | rewrite Hnow; exact Hv].
  - assert (Hne : k <> k').
    { intros ->. rewrite String.eqb_refl in E. discriminate. }
    apply IH; [exact Hord| |exact Hhas|exact Hv].
    rewrite (proj1 (defaults_key_other objectMembers d k k' v' _ Hne)). exact Hd.
Qed.

(** A key no default is there for is left as it is. *)
Lemma defaults_into_absent members (sub : obj) :
  forall (d : obj) k,
    Obj.has k sub = false ->
    Obj.get k (defaults_into members sub d) = Obj.get k d.
Proof.
  unfold defaults_into.
  induction sub as [|[k' v'] sub IH]; intros d k Hhas; simpl in *; [reflexivity|].
  apply orb_false_iff in Hhas. destruct Hhas as [E Hhas].
  rewrite IH by exact Hhas.
  apply defaults_key_other. intros ->. rewrite String.eqb_refl in E. discriminate.
Qed.

(** Static scopes folded into a plain object: what each key holds in the
    end. *)
Lemma fold_static_scopes (ctx : value) (scs : list Scope) :
  forallb is_static scs = true ->
  forall q0 : obj,
  exists q : obj,
    fold_scopes ctx scs (VObj q0) = Returns (VObj q) /\
    (forall k, k <> "__proto__" -> is_scalar (Obj.get k q0) = true ->
               Obj.get k q = Obj.get k q0) /\
    (forall k, ordinary k = true -> Obj.get k q0 = VUndefined ->
               is_scalar (default_of k scs) = true ->
               Obj.get k q = default_of k scs).
Proof.
  induction scs as [|sc scs IH]; intros Hst q0; simpl in *.
  - exists q0. split; [reflexivity|]. split; [auto|]. intros k _ _ H. discriminate.
  - apply andb_true_iff in Hst. destruct Hst as [Hsc Hst].
    destruct sc as [d|f]; [|discriminate]. simpl fold_scope.
    rewrite defaultsDeep_object.
    destruct (IH Hst (defaults_into objectMembers d q0)) as (q & Hq & Hkeep & Hfill).
    exists q. split; [exact Hq|]. split.
    + intros k Hp Hk. rewrite Hkeep; [|exact Hp|];
        rewrite defaults_into_keeps; auto.
    + intros k Hord Hk Hdef.
      assert (Hp : k <> "__proto__")
        by (apply String.eqb_neq; apply (ordinary_inv k Hord)).
      destruct (Obj.has k d) eqn:Hh.
      * rewrite Hkeep; [|exact Hp|];
          rewrite defaults_into_fills; auto.
      * apply Hfill; [exact Hord| |exact Hdef].
        rewrite defaults_into_absent; assumption.
Qed.

End Defaults.

Section Scopes.

Variable svc : Service.
Variable ctx : value.

Lemma filter_by_permission_run (names : list string) :
  forall answers s rs tr,
    List.length answers = List.length (defined_names svc names) ->
    run (_filterScopeNamesByPermission svc ctx names s)
        (map Resolved answers ++ rs) tr =
    Finished (Ok (permitted svc names answers)) s rs
             (tr ++ authority_trace svc ctx names answers).
Proof.
  induction names as [|n names IH]; intros answers s rs tr Hlen; simpl in *.
  - destruct answers; [|discriminate]. simpl. rewrite app_nil_r. reflexivity.
  - destruct (scope_named svc n) as [sc|].
    + destruct answers as [|a answers]; [discriminate|]. simpl in Hlen.
      rewrite run_bind, run_await by discriminate. simpl map. simpl app.
      cbv beta iota. rewrite run_bind.
      rewrite IH by (simpl; lia). rewrite run_ret.
      rewrite <- app_assoc. simpl. destruct (truthy a); reflexivity.
    + apply IH. exact Hlen.
Qed.

(** The names the code folds over stand for the permitted scopes. *)
Lemma reduce_permitted (names : list string) :
  forall answers query,
    reduce_scopes svc ctx (permitted svc names answers) query =
    fold_scopes ctx (permitted_scopes svc names answers) query.
Proof.
  induction names as [|n names IH]; intros answers query; simpl; [reflexivity|].
  destruct (scope_named svc n) as [sc|] eqn:Hsc; [|apply IH].
  destruct answers as [|a answers]; [reflexivity|].
  destruct (truthy a); [|apply IH].
  simpl. unfold applyScope. rewrite Hsc.
  destruct sc as [d|f]; simpl.
  - apply IH.
  - destruct (f query ctx); [apply IH | reflexivity].
Qed.

Lemma apply_scope_names_run (names : option (list string)) (params : obj) :
  forall answers s rs tr,
    List.length answers = List.length (defined_names svc (names_of names)) ->
    run (applyScopeNames svc names params ctx s) (map Resolved answers ++ rs) tr =
    Finished (scoped_params svc ctx names answers params) s rs
             (tr ++ authority_trace svc ctx (names_of names) answers).
Proof.
  intros answers s rs tr Hlen. unfold applyScopeNames, scoped_params.
  destruct names as [[|n l]|]; simpl names_of in *.
  - destruct answers; [|discriminate]. simpl. rewrite app_nil_r. reflexivity.
  - rewrite run_bind, run_await_.
    rewrite filter_by_permission_run by exact Hlen.
    rewrite reduce_permitted. fold (start_query params).
    destruct (fold_scopes ctx (permitted_scopes svc (n :: l) answers)
                (start_query params)); reflexivity.
  - destruct answers; [|discriminate]. simpl. rewrite app_nil_r. reflexivity.
Qed.

End Scopes.

(** C7: with [scope: false], [_applyScopes] asks the authority check
    whether no scope may be applied ([checkScopeAuthority(ctx, null, null)]).
    If the answer is yes the parameters come back as they are, no scope
    applied; if it is no, the default scopes are applied as they are for a
    request that has no [scope] at all: the authority check is asked about
    each default scope and those it permits are folded into the query, in
    their order, a function scope by calling it, a static scope by merging
    it under the query.  When they are static and the query is a plain
    object, the query keeps every scalar the caller has put in it and
    holds, under a key the caller has left out, what the first permitted
    default scope has for that key. *)
Theorem scope_bypass_needs_permission :
  forall (svc : Service) (ctx : value) (params : obj) (s : State)
         (answers : list value) (rs : list response),
    let names := names_of (defaultScopes svc) in
    let asked := authority_trace svc ctx names answers in
    let allowed := permitted_scopes svc names answers in
    let defaults := scoped_params svc ctx (defaultScopes svc) answers params in
    let bypass := CheckScopeAuthority ctx None None in
    List.length answers = List.length (defined_names svc names) ->
    (Obj.get "scope" params = VBool false ->
     forall ok,
       (truthy ok = true ->
        exec (_applyScopes svc params ctx) s (Resolved ok :: rs) =
        Finished (Ok params) s rs [(bypass, Resolved ok)]) /\
       (truthy ok = false ->
        exec (_applyScopes svc params ctx) s
             (Resolved ok :: map Resolved answers ++ rs) =
        Finished defaults s rs ((bypass, Resolved ok) :: asked))) /\
    (Obj.get "scope" params = VUndefined ->
     exec (_applyScopes svc params ctx) s (map Resolved answers ++ rs) =
     Finished defaults s rs asked) /\
    (names <> [] ->
     forallb is_static allowed = true ->
     forall q0, start_query params = VObj q0 ->
     exists q,
       defaults = Ok (Obj.set "query" (VObj q) params) /\
       (forall k, k <> "__proto__" -> is_scalar (Obj.get k q0) = true ->
                  Obj.get k q = Obj.get k q0) /\
       (forall k, ordinary k = true -> Obj.get k q0 = VUndefined ->
                  is_scalar (default_of k allowed) = true ->
                  Obj.get k q = default_of k allowed)).
Proof.
  intros svc ctx params s answers rs names asked allowed defaults bypass Hlen.
  unfold exec. split; [|split].
  - intros Hscope ok. unfold _applyScopes. rewrite Hscope. simpl truthy.
    cbv iota. split; intros Hok.
    + rewrite run_bind, run_bind, run_await by discriminate.
      rewrite Hok, run_ret. reflexivity.
    + rewrite run_bind, run_bind, run_await by discriminate.
      rewrite Hok, run_ret. simpl after.
      rewrite (@apply_scope_names_run svc ctx (defaultScopes svc) params answers
                 s rs _ Hlen).
      reflexivity.
  - intros Hscope. unfold _applyScopes. rewrite Hscope. simpl truthy. cbv iota.
    rewrite run_bind, run_ret.
    apply (@apply_scope_names_run svc ctx (defaultScopes svc) params answers
             s rs [] Hlen).
  - intros Hnames Hst q0 Hq0. subst defaults allowed names.
    unfold scoped_params.
    destruct (defaultScopes svc) as [[|n l]|]; simpl names_of in *;
      try contradiction.
    rewrite Hq0.
    destruct (fold_static_scopes ctx _ Hst q0) as (q & Hq & Hkeep & Hfill).
    exists q. rewrite Hq. auto.
Qed.

(** * The entity pipeline *)

(** ** Induction on values *)

Section ValueInduction.

Variable P : value -> Prop.

Hypothesis P_undefined : P VUndefined.
Hypothesis P_null : P VNull.
Hypothesis P_bool : forall b, P (VBool b).
Hypothesis P_num : forall n, P (VNum n).
Hypothesis P_str : forall s, P (VStr s).
Hypothesis P_arr : forall items, Forall P items -> P (VArr items).
Hypothesis P_obj :
  forall props, Forall (fun kv => P (snd kv)) props -> P (VObj props).
Hypothesis P_instance :
  forall cls props, Forall (fun kv => P (snd kv)) props ->
                    P (VInstance cls props).

Fixpoint value_induction (v : value) : P v :=
  match v with
  | VUndefined => P_undefined
  | VNull => P_null
  | VBool b => P_bool b
  | VNum n => P_num n
  | VStr s => P_str s
  | VArr items =>
      P_arr items ((fix all (l : list value) : Forall P l :=
                match l with
                | [] => Forall_nil P
                | x :: l' => Forall_cons x (value_induction x) (all l')
                end) items)
  | VObj props =>
      P_obj props ((fix all (l : obj) : Forall (fun kv => P (snd kv)) l :=
                match l with
                | [] => Forall_nil _
                | kv :: l' =>
                    Forall_cons kv (value_induction (snd kv)) (all l')
                end) props)
  | VInstance cls props =>
      P_instance cls props
        ((fix all (l : obj) : Forall (fun kv => P (snd kv)) l :=
            match l with
            | [] => Forall_nil _
            | kv :: l' =>
                Forall_cons kv (value_induction (snd kv)) (all l')
            end) props)
  end.

End ValueInduction.

(** ** What the methods call *)

Definition is_pool_call (c : call) : bool :=
  match c with
  | Timeout _
  | AdapterCall _ (connect | disconnect) _
  | HookAdapterConnected _ _ _
  | HookAdapterDisconnected _ _ => true
  | _ => false
  end.

Definition is_authority_call (c : call) : bool :=
  match c with
  | CheckScopeAuthority _ _ _ => true
  | _ => false
  end.

Definition is_lookup_call (c : call) : bool :=
  match c with
  | CheckScopeAuthority _ _ _
  | AdapterCall _ find _
  | HookAfterResolveEntities _ _ _ _ _
  | TransformResult _ _ _ _ => true
  | _ => is_pool_call c
  end.

Ltac sat_step :=
  lazymatch goal with
  | |- Sat _ _ _ (bind _ _) =>
      eapply Sat_bind with (Q1 := fun _ => True); [ | intros ? _ ]
  | |- Sat _ _ _ (ret _) => apply Sat_ret; exact Logic.I
  | |- Sat _ _ _ (throw _) => apply Sat_throw
  | |- Sat _ _ _ out_of_fuel => apply Sat_out_of_fuel
  | |- Sat _ _ _ (await _) => apply Sat_await; reflexivity
  | |- Sat _ _ _ tick => apply Sat_tick
  | |- Sat _ _ _ (sleep _) => apply Sat_sleep; reflexivity
  | |- Sat _ _ _ (await_ _) => apply Sat_await_
  | |- Sat _ _ _ get_state =>
      eapply Sat_weaken; [ | apply Sat_get_state ]; intros; exact Logic.I
  | |- Sat _ _ _ (modify _) =>
      apply Sat_modify; intros ? ?; simpl; assumption
  | |- Sat _ _ _ (try_catch _ _) => apply Sat_try_catch; [ | intros ? ]
  | |- Sat _ _ _ (forEach _ _) => apply Sat_forEach; intros ? _
  | |- Sat _ _ _ (mapM _ _) => apply Sat_mapM; intros ? _
  | |- Sat _ _ _ (allM _ _) => apply Sat_allM; intros ? _
  | |- Sat _ _ _ (if ?b then _ else _) => destruct b
  | |- Sat _ _ _ (match ?x with _ => _ end) => destruct x
  end.

Ltac sat := repeat sat_step.

(** A method that calls nothing outside and leaves the events alone adds
    nothing to the trace and does not suspend. *)
Definition quiet (c : call) : Prop := False.

Section Footprints.

Variable svc : Service.
Variable fuel : nat.

(** Whatever holds of the events sent so far still holds. *)
Variable R : list Emitted -> Prop.
Let I := fun s : State => R (emitted s).

Let pool := fun c => is_pool_call c = true.
Let authority := fun c => is_authority_call c = true.
Let lookup := fun c => is_lookup_call c = true.

Lemma I_after (c : call) (s : State) : I s -> I (after c s).
Proof. destruct c; simpl; auto. Qed.

Lemma Date_now_calls P : Sat P I (fun _ => True) Date_now.
Proof. intros s Hs. simpl. auto. Qed.

Lemma Adapters_resolve_calls P v : Sat P I (fun _ => True) (Adapters_resolve v).
Proof. intros s Hs. simpl. auto. Qed.

Lemma disconnect_calls a h : Sat pool I (fun _ => True) (_disconnect svc a h).
Proof. unfold _disconnect. sat. Qed.

Lemma maintenance_calls : Sat pool I (fun _ => True) (maintenanceAdapters svc).
Proof. unfold maintenanceAdapters. sat. apply disconnect_calls. Qed.

Lemma connecting_calls n a h o :
  Sat pool I (fun _ => True) (connecting svc n a h o).
Proof. induction n; simpl; sat. apply IHn. Qed.

Lemma getAdapter_calls ctx :
  Sat pool I (fun _ => True) (getAdapter svc fuel ctx).
Proof.
  unfold getAdapter. sat;
    try apply Date_now_calls; try apply Adapters_resolve_calls.
  - apply maintenance_calls.
  - apply connecting_calls.
Qed.

Lemma getColumnName_calls P f :
  Sat P I (fun _ => True) (_getColumnNameFromFieldName svc f).
Proof. unfold _getColumnNameFromFieldName. sat. Qed.

Lemma sortField_calls P v : Sat P I (fun _ => True) (sortField svc v).
Proof. unfold sortField. sat; apply getColumnName_calls. Qed.

Lemma sortFieldNameConversion_calls P v :
  Sat P I (fun _ => True) (_sortFieldNameConversion svc v).
Proof. unfold _sortFieldNameConversion. sat. apply sortField_calls. Qed.

Lemma queryFieldNameConversion_calls P q recursive :
  Sat P I (fun _ => True) (_queryFieldNameConversion svc q recursive).
Proof.
  induction q as [| | | | s | items IH | props IH | cls props IH]
    using value_induction; simpl; try (sat; fail).
  - generalize (@nil (string * value)) as res. generalize O as i.
    induction (chars s) as [|v items IHitems]; intros i res; sat;
      try apply getColumnName_calls; auto.
  - generalize (@nil (string * value)) as res. generalize O as i.
    induction IH as [|v items Hv _ IHitems]; intros i res; sat;
      try apply getColumnName_calls; auto.
  - generalize (@nil (string * value)) as res.
    induction IH as [|[k v] props Hv _ IHprops]; intros res; sat;
      try apply getColumnName_calls; auto.
  - generalize (@nil (string * value)) as res.
    induction IH as [|[k v] props Hv _ IHprops]; intros res; sat;
      try apply getColumnName_calls; auto.
Qed.

Lemma paramsFieldNameConversion_calls P p :
  Sat P I (fun _ => True) (paramsFieldNameConversion svc p).
Proof.
  unfold paramsFieldNameConversion. sat;
    try apply sortFieldNameConversion_calls;
    try apply queryFieldNameConversion_calls.
Qed.

Lemma filterScopeNames_calls ctx names :
  Sat authority I (fun _ => True) (_filterScopeNamesByPermission svc ctx names).
Proof. induction names as [|n names IH]; simpl; sat; apply IH. Qed.

Lemma applyScopes_calls ctx params :
  Sat authority I (fun _ => True) (_applyScopes svc params ctx).
Proof.
  unfold _applyScopes, applyScopeNames. sat; apply filterScopeNames_calls.
Qed.

End Footprints.

Lemma Sat_calls_weaken {A} (P P' : call -> Prop) I (Q : A -> Prop) (m : M A) :
  (forall c, P c -> P' c) -> Sat P I Q m -> Sat P' I Q m.
Proof.
  intros HP Hm s Hs. specialize (Hm s Hs).
  induction (m s) as [[a|e|] s1 | c s1 k IH]; simpl in *; auto.
  destruct Hm as (Hc & Hs1 & Hk). repeat split; auto.
  destruct c; auto.
Qed.

Lemma sat_stage {A} (P : call -> Prop) (I : State -> Prop) (Q : A -> Prop)
  (m : M A) (s : State) rs tr :
  (forall c s, I s -> I (after c s)) -> Sat P I Q m -> I s ->
  exists evs,
    Forall (fun ev => P (fst ev)) evs /\
    trace_of (run (m s) rs tr) = tr ++ evs /\
    I (state_of (run (m s) rs tr)) /\
    (forall a, result_of (run (m s) rs tr) = Some (Ok a) -> Q a).
Proof.
  intros HI Hm Hs.
  destruct (sat_run P I HI Q (m s) (Hm s Hs) rs tr) as (evs & H1 & H2 & H3 & H4).
  exists evs. auto.
Qed.

(** The answered calls of a trace that [sel] selects. *)
Definition events (sel : call -> bool) (tr : trace) : trace :=
  filter (fun ev => sel (fst ev)) tr.

Lemma events_app sel tr1 tr2 : events sel (tr1 ++ tr2) = events sel tr1 ++ events sel tr2.
Proof. apply filter_app. Qed.

Lemma events_none (P : call -> Prop) sel evs :
  Forall (fun ev => P (fst ev)) evs ->
  (forall c, P c -> sel c = false) ->
  events sel evs = [].
Proof.
  intros H HP. induction H as [|ev evs Hev _ IH]; simpl; [reflexivity|].
  rewrite (HP _ Hev). exact IH.
Qed.

Lemma events_in sel ev tr : In ev tr -> sel (fst ev) = true -> In ev (events sel tr).
Proof. intros. apply filter_In. auto. Qed.

Lemma pool_is_lookup c : is_pool_call c = true -> is_lookup_call c = true.
Proof. destruct c as [| | a m args | | | | | |]; try discriminate; try reflexivity.
  destruct m; try discriminate; reflexivity. Qed.

Lemma authority_is_lookup c : is_authority_call c = true -> is_lookup_call c = true.
Proof. destruct c; try discriminate; reflexivity. Qed.

(** [v[k]] for a value that has properties. *)
Definition member_of (doc : value) (k : string) : value :=
  match doc with
  | VObj o | VInstance _ o => Obj.get k o
  | _ => VUndefined
  end.

(** ** The phases of [resolveEntities] *)

Section Resolve.
Variable svc : Service.
Variable fuel : nat.
Variables (ctx : value) (params opts : obj).

Definition requested_id : value := Obj.get (name (primaryField svc)) params.
Definition is_multi : bool := match requested_id with VArr _ => true | _ => false end.
Definition decoded_ids : list value :=
  map (fun id => _sanitizeID svc id opts)
      (match requested_id with VArr ids => ids | _ => [requested_id] end).

(** The filter [resolveEntities] sets on the query: the identifier, or
    the list of identifiers, decoded. *)
Definition id_filter : value :=
  if is_multi then VObj [("$in", VArr decoded_ids)]
  else nth O decoded_ids VUndefined.

(** Up to the adapter: the identifiers, the scopes, the field names. *)
Definition resolve_prepare : M (adapter * obj) :=
  id <- _getIDFromParams svc params ;;
  params1 <- await_ (_applyScopes svc
                       (if truthy (Obj.get "query" params) then params
                        else Obj.set "query" (VObj []) params) ctx) ;;
  params2 <- paramsFieldNameConversion svc params1 ;;
  query <- set_member (Obj.get "query" params2) (columnName (primaryField svc))
             (if is_multi then VObj [("$in", VArr decoded_ids)]
              else nth O decoded_ids VUndefined) ;;
  adapter <- await_ (getAdapter svc fuel ctx) ;;
  ret (adapter, Obj.set "query" query params2).

(** From what [adapter.find] gave. *)
Definition resolve_found (adapter : adapter) (params' : obj) (result : value)
  : M value :=
  if no_result result then
    if truthy (Obj.get "throwIfNotExist" opts)
    then throw (EntityNotFoundError requested_id)
    else ret (if is_true (Obj.get "mapping" params') then VObj []
              else if is_multi then VArr [] else VNull)
  else
    (if has_hook svc "afterResolveEntities" then
       await (HookAfterResolveEntities ctx
                (if is_multi then VArr decoded_ids else nth O decoded_ids VUndefined)
                (if is_multi then result else nth O (array_from result) VUndefined)
                params opts) ;; ret tt
     else ret tt) ;;
    result' <- (if wants_transform opts
               then await (TransformResult adapter result (VObj params') ctx)
               else ret result) ;;
    if is_true (Obj.get "mapping" params') then
      match result' with
      | VArr docs =>
          m <- mapping_reduce svc (columnName (primaryField svc)) docs (array_from result) O [] ;;
          ret (VObj m)
      | _ => throw (TypeError "result.reduce is not a function")
      end
    else if negb is_multi then get_member_index result'
    else ret result'.

Lemma resolveEntities_phases s rs tr :
  run (resolveEntities svc fuel ctx params opts s) rs tr =
  run ((x <- resolve_prepare ;;
        result <- await (AdapterCall (fst x) find [VObj (snd x)]) ;;
        resolve_found (fst x) (snd x) result) s) rs tr.
Proof.
  unfold resolveEntities, resolve_prepare, _getIDFromParams.
  fold requested_id. rewrite !run_bind.
  destruct (is_nullish requested_id); [reflexivity|].
  rewrite !run_ret. fold is_multi. fold decoded_ids.
  repeat (rewrite !run_bind;
          match goal with
          | |- context [match run (?m ?s0) ?rs0 ?tr0 with _ => _ end] =>
              destruct (run (m s0) rs0 tr0) as [[?|?|] ? ? ?|? ? ?]
          end; try reflexivity).
Qed.
End Resolve.

Definition is_prepare_call (c : call) : bool :=
  is_authority_call c || is_pool_call c.

Definition is_found_call (c : call) : bool :=
  match c with
  | HookAfterResolveEntities _ _ _ _ _ | TransformResult _ _ _ _ => true
  | _ => false
  end.

(** The properties of the parameters the scopes and the translator leave
    alone. *)
Definition kept (k : string) : Prop :=
  k <> "query" /\ k <> "sort" /\ k <> "searchFields".

Section ResolveFacts.
Variable svc : Service.
Variable fuel : nat.
Variable R : list Emitted -> Prop.
Let I := fun s : State => R (emitted s).

Lemma applyScopes_keeps ctx params :
  Sat (fun c => is_authority_call c = true) I
      (fun p' => forall k, kept k -> Obj.get k p' = Obj.get k params)
      (_applyScopes svc params ctx).
Proof.
  unfold _applyScopes.
  eapply Sat_bind with (Q1 := fun _ => True); [sat|].
  intros scopes _. unfold applyScopeNames.
  destruct scopes as [[|n l]|]; try (apply Sat_ret; reflexivity).
  eapply Sat_bind with (Q1 := fun _ => True).
  - apply Sat_await_. apply filterScopeNames_calls.
  - intros allowed _.
    destruct (reduce_scopes svc ctx allowed _); [|apply Sat_throw].
    apply Sat_ret. intros k (Hk & _).
    apply get_set_other. exact Hk.
Qed.

Lemma paramsFieldNameConversion_keeps P p :
  Sat P I (fun p' => forall k, kept k -> Obj.get k p' = Obj.get k p)
      (paramsFieldNameConversion svc p).
Proof.
  unfold paramsFieldNameConversion.
  eapply Sat_bind
    with (Q1 := fun p' => forall k, kept k -> Obj.get k p' = Obj.get k p).
  { destruct (truthy (Obj.get "sort" p)); [|apply Sat_ret; reflexivity].
    eapply Sat_bind with (Q1 := fun _ => True);
      [apply sortFieldNameConversion_calls|].
    intros v _. apply Sat_ret. intros k (_ & Hk & _).
    apply get_set_other. exact Hk. }
  intros p1 H1. cbv beta in H1.
  eapply Sat_bind
    with (Q1 := fun p' => forall k, kept k -> Obj.get k p' = Obj.get k p).
  { destruct (truthy (Obj.get "searchFields" p1)); [|apply Sat_ret; exact H1].
    eapply Sat_bind with (Q1 := fun _ => True);
      [apply sortFieldNameConversion_calls|].
    intros v _. apply Sat_ret. intros k Hk. rewrite <- (H1 k Hk).
    destruct Hk as (_ & _ & Hk). apply get_set_other. exact Hk. }
  intros p2 H2. cbv beta in H2.
  destruct (truthy (Obj.get "query" p2)); [|apply Sat_ret; exact H2].
  eapply Sat_bind with (Q1 := fun _ => True);
    [apply queryFieldNameConversion_calls|].
  intros v _. apply Sat_ret. intros k Hk. rewrite <- (H2 k Hk).
  destruct Hk as (Hk & _). apply get_set_other. exact Hk.
Qed.

Lemma resolve_prepare_calls ctx params opts :
  Sat (fun c => is_prepare_call c = true) I
      (fun x => forall k, kept k -> Obj.get k (snd x) = Obj.get k params)
      (resolve_prepare svc fuel ctx params opts).
Proof.
  unfold resolve_prepare.
  eapply Sat_bind with (Q1 := fun _ => True); [unfold _getIDFromParams; sat|].
  intros id _.
  eapply Sat_bind
    with (Q1 := fun p' => forall k, kept k -> Obj.get k p' = Obj.get k params).
  { apply Sat_await_.
    eapply Sat_calls_weaken with (P := fun c => is_authority_call c = true).
    - intros c Hc. unfold is_prepare_call. rewrite Hc. reflexivity.
    - eapply Sat_weaken; [|apply applyScopes_keeps].
      intros p' Hp' k Hk. rewrite (Hp' k Hk).
      destruct (truthy (Obj.get "query" params)); [reflexivity|].
      apply get_set_other. apply Hk. }
  intros p1 H1. cbv beta in H1.
  eapply Sat_bind
    with (Q1 := fun p' => forall k, kept k -> Obj.get k p' = Obj.get k params).
  { eapply Sat_weaken; [|apply paramsFieldNameConversion_keeps].
    intros p' Hp' k Hk. rewrite (Hp' k Hk). apply H1. exact Hk. }
  intros p2 H2. cbv beta in H2.
  eapply Sat_bind with (Q1 := fun _ => True); [unfold set_member; sat|].
  intros q _.
  eapply Sat_bind with (Q1 := fun _ => True).
  { apply Sat_await_.
    eapply Sat_calls_weaken with (P := fun c => is_pool_call c = true);
      [|apply getAdapter_calls].
    intros c Hc. unfold is_prepare_call. rewrite Hc. apply orb_true_r. }
  intros a _. apply Sat_ret. simpl. intros k Hk. rewrite <- (H2 k Hk).
  apply get_set_other. apply Hk.
Qed.

(** The query that goes to [adapter.find] holds the identifier filter. *)
Lemma resolve_prepare_filter ctx params opts :
  Sat (fun c => is_prepare_call c = true) I
      (fun x => member_of (Obj.get "query" (snd x)) (columnName (primaryField svc)) =
                id_filter svc params opts)
      (resolve_prepare svc fuel ctx params opts).
Proof.
  unfold resolve_prepare.
  eapply Sat_bind with (Q1 := fun _ => True); [unfold _getIDFromParams; sat|].
  intros id _.
  eapply Sat_bind with (Q1 := fun _ => True).
  { apply Sat_await_.
    eapply Sat_calls_weaken with (P := fun c => is_authority_call c = true).
    - intros c Hc. unfold is_prepare_call. rewrite Hc. reflexivity.
    - apply applyScopes_calls. }
  intros p1 _.
  eapply Sat_bind with (Q1 := fun _ => True);
    [apply paramsFieldNameConversion_calls|].
  intros p2 _.
  eapply Sat_bind
    with (Q1 := fun q => member_of q (columnName (primaryField svc)) =
                         id_filter svc params opts).
  { fold (is_multi svc params). fold (decoded_ids svc params opts).
    fold (id_filter svc params opts).
    destruct (Obj.get "query" p2); simpl set_member;
      try apply Sat_throw; apply Sat_ret; simpl; apply get_set_same. }
  intros q Hq. cbv beta in Hq.
  eapply Sat_bind with (Q1 := fun _ => True).
  { apply Sat_await_.
    eapply Sat_calls_weaken with (P := fun c => is_pool_call c = true);
      [|apply getAdapter_calls].
    intros c Hc. unfold is_prepare_call. rewrite Hc. apply orb_true_r. }
  intros a _. apply Sat_ret. simpl. rewrite get_set_same. exact Hq.
Qed.

Lemma mapping_reduce_calls P idField docs un i m :
  Sat P I (fun _ => True) (mapping_reduce svc idField docs un i m).
Proof.
  revert i m. induction docs as [|d docs IH]; intros i m; simpl; sat.
  - unfold get_member. sat.
  - apply IH.
Qed.

Lemma resolve_found_calls ctx params opts a p' result :
  Sat (fun c => is_found_call c = true) I (fun _ => True)
      (resolve_found svc ctx params opts a p' result).
Proof.
  unfold resolve_found, get_member_index. sat. apply mapping_reduce_calls.
Qed.
End ResolveFacts.

Lemma prepare_no_find c : is_prepare_call c = true -> calls_method find c = false.
Proof.
  destruct c as [| | a m args | | | | | |]; try reflexivity.
  destruct m; try reflexivity; discriminate.
Qed.

Lemma found_no_find c : is_found_call c = true -> calls_method find c = false.
Proof. destruct c; try reflexivity; discriminate. Qed.

Lemma prepare_no_mutation c : is_prepare_call c = true -> is_mutation c = false.
Proof.
  destruct c as [| | a m args | | | | | |]; try reflexivity.
  destruct m; try reflexivity; discriminate.
Qed.

Lemma found_no_mutation c : is_found_call c = true -> is_mutation c = false.
Proof. destruct c; try reflexivity; discriminate. Qed.

Lemma Forall_not_in (P : call -> Prop) (sel : call -> bool) (evs : trace) ev :
  Forall (fun ev => P (fst ev)) evs ->
  (forall c, P c -> sel c = false) ->
  In ev evs -> sel (fst ev) = true -> False.
Proof.
  intros H HP Hin Hsel. rewrite Forall_forall in H.
  specialize (HP _ (H _ Hin)). congruence.
Qed.

Lemma mutated_none (P : call -> Prop) (evs : trace) :
  Forall (fun ev => P (fst ev)) evs ->
  (forall c, P c -> is_mutation c = false) ->
  mutated evs = false.
Proof.
  intros H HP. induction H as [|ev evs Hev _ IH]; simpl; [reflexivity|].
  rewrite (HP _ Hev). exact IH.
Qed.

Lemma mutated_app tr1 tr2 : mutated (tr1 ++ tr2) = mutated tr1 || mutated tr2.
Proof. apply existsb_app. Qed.

(** What [resolveEntities] returns when nothing is found and it does not
    throw. *)
Definition nothing (svc : Service) (params : obj) : value :=
  if is_true (Obj.get "mapping" params) then VObj []
  else match Obj.get (name (primaryField svc)) params with
       | VArr _ => VArr []
       | _ => VNull
       end.

(** C8: when [adapter.find] returns nothing in [resolveEntities], the
    method throws [EntityNotFoundError] for the requested identifier if
    [throwIfNotExist] is set; otherwise it returns the empty mapping when
    [mapping] is true, the empty list for a list of identifiers and [null]
    for a single one.  No method that changes the store has been called. *)
Theorem resolve_nothing_found :
  forall (svc : Service) (fuel : nat) (ctx : value) (params opts : obj)
         (s : State) (rs : list response) (a : adapter) (args : list value)
         (found : value),
    let out := exec (resolveEntities svc fuel ctx params opts) s rs in
    In (AdapterCall a find args, Resolved found) (trace_of out) ->
    no_result found = true ->
    mutated (trace_of out) = false /\
    result_of out =
    Some (if truthy (Obj.get "throwIfNotExist" opts)
          then Err (EntityNotFoundError (Obj.get (name (primaryField svc)) params))
          else Ok (nothing svc params)).
Proof.
  intros svc fuel ctx params opts s rs a args found out Hin Hnone.
  subst out. unfold exec in *. rewrite resolveEntities_phases in *.
  rewrite run_bind in *.
  destruct (sat_stage _ _ _ (resolve_prepare svc fuel ctx params opts) s rs []
              (I_after (fun x => x = emitted s))
              (resolve_prepare_calls svc fuel (fun x => x = emitted s) ctx params opts) eq_refl)
    as (evs0 & HP0 & Ht0 & _ & HQ0).
  destruct (run (resolve_prepare svc fuel ctx params opts s) rs [])
    as [[[a1 p1]|err|] s1 rs1 tr1|c s1 tr1]; simpl in Ht0; subst tr1;
    try (exfalso; simpl in Hin;
         apply (Forall_not_in _ (calls_method find) _ _ HP0 prepare_no_find Hin);
         reflexivity).
  specialize (HQ0 _ eq_refl). simpl in HQ0.
  rewrite run_bind, run_await in * by discriminate.
  destruct rs1 as [|[v|err] rs2]; cbn [fst snd after app] in *.
  - exfalso; simpl in Hin.
    apply (Forall_not_in _ (calls_method find) _ _ HP0 prepare_no_find Hin);
      reflexivity.
  - destruct (sat_stage _ _ _ (resolve_found svc ctx params opts a1 p1 v) s1 rs2
                (evs0 ++ [(AdapterCall a1 find [VObj p1], Resolved v)])
                (I_after (fun x => x = emitted s1))
                (resolve_found_calls svc (fun x => x = emitted s1) ctx params opts a1 p1 v) eq_refl)
      as (evs2 & HP2 & Ht2 & _).
    rewrite Ht2 in Hin. simpl in Hin.
    assert (Hv : found = v).
    { apply in_app_or in Hin. destruct Hin as [Hin|Hin].
      - apply in_app_or in Hin. destruct Hin as [Hin|[Hin|[]]].
        + exfalso.
          apply (Forall_not_in _ (calls_method find) _ _ HP0 prepare_no_find Hin);
            reflexivity.
        + inversion Hin. reflexivity.
      - exfalso.
        apply (Forall_not_in _ (calls_method find) _ _ HP2 found_no_find Hin);
          reflexivity. }
    subst v. clear Hin. split.
    + rewrite Ht2. simpl. rewrite !mutated_app.
      rewrite (mutated_none _ _ HP0 prepare_no_mutation).
      rewrite (mutated_none _ _ HP2 found_no_mutation). reflexivity.
    + unfold resolve_found. rewrite Hnone.
      destruct (truthy (Obj.get "throwIfNotExist" opts)).
      * rewrite run_throw. reflexivity.
      * rewrite run_ret. simpl. unfold nothing, is_multi, requested_id.
        rewrite HQ0 by (repeat split; discriminate).
        destruct (Obj.get (name (primaryField svc)) params); reflexivity.
  - exfalso. simpl in Hin. apply in_app_or in Hin. destruct Hin as [Hin|[Hin|[]]].
    + apply (Forall_not_in _ (calls_method find) _ _ HP0 prepare_no_find Hin);
        reflexivity.
    + discriminate.
Qed.

(** ** The mapping of [resolveEntities] *)

(** The identifier an entity is stored with, encoded again if the primary
    field is secure. *)
Definition stored_id (svc : Service) (doc : value) : value :=
  let id := member_of doc (columnName (primaryField svc)) in
  if secure (primaryField svc) then encodeID svc id else id.

(** The key an entity gets in the mapping. *)
Definition key_of (svc : Service) (doc : value) : string :=
  toPropertyKey (stored_id svc doc).

(** The identifiers whose key is here what it is in JavaScript: a number
    among them is a safe integer. *)
Fixpoint exact_key (v : value) : bool :=
  match v with
  | VNum n => Z.abs n <=? 9007199254740991
  | VArr items => forallb exact_key items
  | _ => true
  end.

(** Each transformed entity is stored under the key of the entity found at
    the same place. *)
Fixpoint mapping_of (svc : Service) (ts docs : list value) (m : obj) : obj :=
  match ts, docs with
  | t :: ts', d :: docs' => mapping_of svc ts' docs' (Obj.set (key_of svc d) t m)
  | _, _ => m
  end.

Section Mapping.
Variable svc : Service.

Lemma get_member_run doc k s rs tr :
  run (get_member doc k s) rs tr =
  Finished (if is_nullish doc then Err (TypeError "Cannot read properties")
            else Ok (member_of doc k)) s rs tr.
Proof. destruct doc; reflexivity. Qed.

Lemma mapping_reduce_run (ts : list value) :
  forall un i m s rs tr,
  exists x,
    run (mapping_reduce svc (columnName (primaryField svc)) ts un i m s) rs tr =
    Finished x s rs tr /\
    forall m', x = Ok m' ->
               m' = mapping_of svc ts (skipn i un) m /\
               (List.length ts <= List.length (skipn i un))%nat.
Proof.
  induction ts as [|t ts IH]; intros un i m s rs tr; simpl mapping_reduce.
  - exists (Ok m). rewrite run_ret. split; [reflexivity|].
    intros m' H; inversion H; subst. simpl. split; [reflexivity | lia].
  - rewrite run_bind, get_member_run.
    destruct (is_nullish (nth i un VUndefined)) eqn:Hn.
    + eexists. split; [reflexivity|]. intros m' H; discriminate.
    + assert (Hsk : skipn i un = nth i un VUndefined :: skipn (S i) un).
      { clear - Hn. revert i Hn. induction un as [|d un IH]; intros i Hn.
        - destruct i; discriminate.
        - destruct i as [|i]; [reflexivity|]. simpl in *. apply IH. exact Hn. }
      destruct (IH un (S i)
                   (Obj.set
                      (toPropertyKey
                         (if secure (primaryField svc)
                          then encodeID svc
                                 (member_of (nth i un VUndefined)
                                    (columnName (primaryField svc)))
                          else member_of (nth i un VUndefined)
                                 (columnName (primaryField svc)))) t m)
                   s rs tr) as (x & Hrun & Hx).
      exists x. split; [exact Hrun|].
      intros m' Hm'. destruct (Hx m' Hm') as [Hm Hl].
      rewrite Hsk. split; [exact Hm | change (S (List.length ts) <= S (List.length (skipn (S i) un)))%nat; lia].
Qed.

Lemma skipn_nth (un : list value) :
  forall i, is_nullish (nth i un VUndefined) = false ->
            skipn i un = nth i un VUndefined :: skipn (S i) un.
Proof.
  induction un as [|d un IH]; intros i Hn.
  - destruct i; discriminate.
  - destruct i as [|i]; [reflexivity|]. simpl in *. apply IH. exact Hn.
Qed.

(** The [reduce] goes through when there is an entity found, with
    properties to read, at the place of each transformed entity. *)
Lemma mapping_reduce_returns (ts : list value) :
  forall un i m s rs tr,
    (forall j, (j < List.length ts)%nat ->
               is_nullish (nth (i + j) un VUndefined) = false) ->
    run (mapping_reduce svc (columnName (primaryField svc)) ts un i m s) rs tr =
    Finished (Ok (mapping_of svc ts (skipn i un) m)) s rs tr.
Proof.
  induction ts as [|t ts IH]; intros un i m s rs tr Hdocs; simpl mapping_reduce.
  - rewrite run_ret. reflexivity.
  - pose proof (Hdocs O (Nat.lt_0_succ _)) as H0. rewrite Nat.add_0_r in H0.
    rewrite run_bind, get_member_run, H0.
    rewrite (skipn_nth un i H0). cbn [mapping_of].
    apply IH. intros j Hj.
    replace (S i + j)%nat with (i + S j)%nat by lia.
    apply Hdocs. simpl. lia.
Qed.

Lemma mapping_of_has (ts : list value) :
  forall docs m k,
    Obj.has k (mapping_of svc ts docs m) = true <->
    Obj.has k m = true \/
    exists doc, In doc (firstn (List.length ts) docs) /\ key_of svc doc = k.
Proof.
  induction ts as [|t ts IH]; intros docs m k; simpl.
  - split; [auto|]. intros [H|(doc & [] & _)]. exact H.
  - destruct docs as [|d docs]; simpl.
    + split; [auto|]. intros [H|(doc & [] & _)]. exact H.
    + rewrite IH. rewrite has_set. split.
      * intros [H|(doc & Hin & Hk)].
        -- apply orb_true_iff in H. destruct H as [H|H]; [|left; exact H].
           apply String.eqb_eq in H. right. exists d. split; [left; reflexivity|].
           symmetry. exact H.
        -- right. exists doc. split; [right; exact Hin | exact Hk].
      * intros [H|(doc & [Hin|Hin] & Hk)].
        -- left. rewrite H. apply orb_true_r.
        -- left. subst doc. rewrite <- Hk. rewrite String.eqb_refl. reflexivity.
        -- right. exists doc. split; assumption.
Qed.

Lemma mapping_of_get_other (ts : list value) :
  forall docs m k,
    (forall j doc, (j < List.length ts)%nat -> nth_error docs j = Some doc ->
                   key_of svc doc <> k) ->
    Obj.get k (mapping_of svc ts docs m) = Obj.get k m.
Proof.
  induction ts as [|t ts IH]; intros docs m k Hk; simpl; [reflexivity|].
  destruct docs as [|d docs]; [reflexivity|].
  rewrite IH.
  - apply get_set_other. intros E. apply (Hk O d); simpl; [lia | reflexivity | auto].
  - intros j doc Hj Hd. apply (Hk (S j) doc); simpl; [lia | exact Hd].
Qed.

Lemma mapping_of_get (ts : list value) :
  forall docs m i doc t,
    nth_error docs i = Some doc ->
    nth_error ts i = Some t ->
    (forall j doc', (i < j)%nat -> (j < List.length ts)%nat ->
                    nth_error docs j = Some doc' ->
                    key_of svc doc' <> key_of svc doc) ->
    Obj.get (key_of svc doc) (mapping_of svc ts docs m) = t.
Proof.
  induction ts as [|t0 ts IH]; intros docs m i doc t Hd Ht Hlater.
  - destruct i; discriminate.
  - destruct docs as [|d docs]; [destruct i; discriminate|].
    destruct i as [|i]; simpl in *.
    + inversion Hd; inversion Ht; subst.
      rewrite mapping_of_get_other.
      * apply get_set_same.
      * intros j doc' Hj Hd'. apply (Hlater (S j) doc'); simpl; [lia | lia | exact Hd'].
    + apply (IH docs _ i doc t Hd Ht).
      intros j doc' Hij Hj Hd'. apply (Hlater (S j) doc'); simpl; [lia | lia | exact Hd'].
Qed.

End Mapping.

Lemma optional_await_run (b : bool) (c : call) s rs tr :
  c <> Tick ->
  run ((if b then await c ;; ret tt else ret tt) s) rs tr =
  if b then
    match rs with
    | [] => Suspended c s tr
    | Resolved v :: rs' => Finished (Ok tt) (after c s) rs' (tr ++ [(c, Resolved v)])
    | Rejected e :: rs' => Finished (Err e) (after c s) rs' (tr ++ [(c, Rejected e)])
    end
  else Finished (Ok tt) s rs tr.
Proof.
  intros Hc. destruct b; [|reflexivity].
  rewrite run_bind, run_await by exact Hc.
  destruct rs as [|[v|e] rs']; reflexivity.
Qed.

Section MappingResult.
Variable svc : Service.
Variables (ctx : value) (opts : obj).

(** The end of [resolveEntities] when a mapping is asked for. *)
Lemma mapping_result_run (a1 : adapter) (v : value) (p1 : obj) s rs tr result :
  let out :=
    run ((result' <- (if wants_transform opts
                      then await (TransformResult a1 v (VObj p1) ctx)
                      else ret v) ;;
          match result' with
          | VArr docs =>
              m <- mapping_reduce svc (columnName (primaryField svc)) docs
                     (array_from v) O [] ;;
              ret (VObj m)
          | _ => throw (TypeError "result.reduce is not a function")
          end) s) rs tr in
  result_of out = Some (Ok result) ->
  exists ts,
    incl tr (trace_of out) /\
    (if wants_transform opts
     then In (TransformResult a1 v (VObj p1) ctx, Resolved (VArr ts)) (trace_of out)
     else v = VArr ts) /\
    result = VObj (mapping_of svc ts (array_from v) []) /\
    (List.length ts <= List.length (array_from v))%nat.
Proof.
  intros out Hres. subst out. rewrite run_bind in *.
  assert (Hfin : forall ts s2 rs2 tr2,
             result_of
               (run ((m <- mapping_reduce svc (columnName (primaryField svc)) ts
                            (array_from v) O [] ;;
                      ret (VObj m)) s2) rs2 tr2) = Some (Ok result) ->
             trace_of
               (run ((m <- mapping_reduce svc (columnName (primaryField svc)) ts
                            (array_from v) O [] ;;
                      ret (VObj m)) s2) rs2 tr2) = tr2 /\
             result = VObj (mapping_of svc ts (array_from v) []) /\
             (List.length ts <= List.length (array_from v))%nat).
  { intros ts s2 rs2 tr2. rewrite run_bind.
    destruct (mapping_reduce_run svc ts (array_from v) O [] s2 rs2 tr2)
      as (x & -> & Hx).
    destruct x as [m|err|]; try discriminate.
    rewrite run_ret. simpl. intros H; inversion H; subst result.
    destruct (Hx m eq_refl) as [-> Hl]. simpl in Hl. auto. }
  destruct (wants_transform opts).
  - rewrite run_await in * by discriminate.
    destruct rs as [|[r|err] rs']; try discriminate.
    destruct r as [| | | | |ts| |]; try discriminate.
    destruct (Hfin ts _ _ _ Hres) as (Ht & -> & Hl).
    exists ts. rewrite Ht. repeat split; auto.
    + intros x Hx. apply in_or_app. left. exact Hx.
    + apply in_or_app. right. left. reflexivity.
  - rewrite run_ret in *.
    destruct v as [| | | | |ts| |]; try discriminate.
    destruct (Hfin ts _ _ _ Hres) as (Ht & -> & Hl).
    exists ts. rewrite Ht. repeat split; auto.
    intros x Hx. exact Hx.
Qed.

End MappingResult.

(** What the hook and the transformation answer once [adapter.find] has
    found something. *)
Definition found_answers (svc : Service) (opts : obj) (hv : value)
  (ts : list value) : list response :=
  (if has_hook svc "afterResolveEntities" then [Resolved hv] else []) ++
  (if wants_transform opts then [Resolved (VArr ts)] else []).

Lemma resolve_mapping_returns svc fuel ctx params opts s rs a p s1 tr1
      docs hv ts rest :
  is_true (Obj.get "mapping" params) = true ->
  run (resolve_prepare svc fuel ctx params opts s) rs [] =
  Finished (Ok (a, p)) s1
           (Resolved (VArr docs) :: found_answers svc opts hv ts ++ rest) tr1 ->
  docs <> [] ->
  (wants_transform opts = false -> ts = docs) ->
  (forall j, (j < List.length ts)%nat ->
             is_nullish (nth j docs VUndefined) = false) ->
  result_of (exec (resolveEntities svc fuel ctx params opts) s rs) =
  Some (Ok (VObj (mapping_of svc ts docs []))).
Proof.
  intros Hmap Hprep Hne Hts Hdocs.
  unfold exec. rewrite resolveEntities_phases. rewrite run_bind.
  destruct (sat_stage _ _ _ (resolve_prepare svc fuel ctx params opts) s rs []
              (I_after (fun x => x = emitted s))
              (resolve_prepare_calls svc fuel (fun x => x = emitted s) ctx params opts)
              eq_refl)
    as (_ & _ & _ & _ & HQ0).
  rewrite Hprep in *. specialize (HQ0 _ eq_refl). simpl in HQ0.
  assert (Hmap1 : is_true (Obj.get "mapping" p) = true).
  { rewrite HQ0 by (repeat split; discriminate). exact Hmap. }
  clear HQ0.
  rewrite run_bind, run_await by discriminate.
  cbn [fst snd after]. unfold resolve_found. rewrite Hmap1.
  assert (Hsome : no_result (VArr docs) = false)
    by (destruct docs; [contradiction | reflexivity]).
  rewrite Hsome. rewrite run_bind.
  rewrite optional_await_run by discriminate.
  unfold found_answers.
  assert (Hend : forall s2 rs2 tr2,
             result_of
               (run ((result' <- (if wants_transform opts
                                  then await (TransformResult a (VArr docs) (VObj p) ctx)
                                  else ret (VArr docs)) ;;
                      match result' with
                      | VArr ds =>
                          m <- mapping_reduce svc (columnName (primaryField svc)) ds
                                 (array_from (VArr docs)) O [] ;;
                          ret (VObj m)
                      | _ => throw (TypeError "result.reduce is not a function")
                      end) s2)
                    ((if wants_transform opts then [Resolved (VArr ts)] else []) ++ rs2)
                    tr2) =
             Some (Ok (VObj (mapping_of svc ts docs [])))).
  { intros s2 rs2 tr2. rewrite run_bind.
    destruct (wants_transform opts).
    - rewrite run_await by discriminate. cbn [app after array_from].
      rewrite run_bind, mapping_reduce_returns by exact Hdocs.
      reflexivity.
    - rewrite (Hts eq_refl) in *. rewrite run_ret. cbn [app array_from].
      rewrite run_bind, mapping_reduce_returns by exact Hdocs.
      reflexivity. }
  destruct (has_hook svc "afterResolveEntities"); cbn [app]; rewrite <- ?app_assoc.
  - apply Hend.
  - apply Hend.
Qed.


(** ** Updating *)

Lemma lookup_no_mutation c : is_lookup_call c = true -> is_mutation c = false.
Proof.
  destruct c as [| | a m args | | | | | |]; try discriminate; try reflexivity.
  destruct m; try discriminate; reflexivity.
Qed.

Lemma lookup_not_called (m : method) c :
  is_mutation (AdapterCall O m []) = true ->
  is_lookup_call c = true -> calls_method m c = false.
Proof.
  intros Hm. destruct c as [| | a m' args | | | | | |]; try reflexivity.
  destruct m, m'; try reflexivity; try discriminate.
Qed.

Lemma called_app m tr1 tr2 : called m (tr1 ++ tr2) = called m tr1 || called m tr2.
Proof. apply existsb_app. Qed.

Lemma called_none (P : call -> Prop) m (evs : trace) :
  Forall (fun ev => P (fst ev)) evs ->
  (forall c, P c -> calls_method m c = false) ->
  called m evs = false.
Proof.
  intros H HP. induction H as [|ev evs Hev _ IH]; simpl; [reflexivity|].
  rewrite (HP _ Hev). exact IH.
Qed.

Section LookupFootprint.
Variable svc : Service.
Variable fuel : nat.
Variable R : list Emitted -> Prop.
Let I := fun s : State => R (emitted s).

Lemma resolveEntities_calls ctx params opts :
  Sat (fun c => is_lookup_call c = true) I (fun _ => True)
      (resolveEntities svc fuel ctx params opts).
Proof.
  unfold resolveEntities, _getIDFromParams, set_member, get_member_index. sat.
  all: try apply paramsFieldNameConversion_calls.
  all: try apply mapping_reduce_calls.
  all: try (eapply Sat_calls_weaken; [|apply applyScopes_calls];
            apply authority_is_lookup).
  all: try (eapply Sat_calls_weaken; [|apply getAdapter_calls];
            apply pool_is_lookup).
Qed.

Lemma getAdapter_lookup_calls ctx :
  Sat (fun c => is_lookup_call c = true) I (fun _ => True)
      (getAdapter svc fuel ctx).
Proof.
  eapply Sat_calls_weaken; [|apply getAdapter_calls]. apply pool_is_lookup.
Qed.
End LookupFootprint.

(** The options [updateEntity], [replaceEntity] and [removeEntity] resolve
    the existing entity with. *)
Definition existence_check : obj :=
  [("transform", VBool false); ("throwIfNotExist", VBool true)].

(** What is left of the parameters once the identifier is taken out. *)
Definition strip (svc : Service) (params : obj) : obj :=
  Obj.delete (name (primaryField svc))
    (Obj.delete (columnName (primaryField svc)) params).

Definition props_of (v : value) : obj :=
  match v with
  | VObj o | VInstance _ o => o
  | _ => []
  end.


Lemma run_trace_extends {A} (r : Res A) :
  forall rs tr, exists evs, trace_of (run r rs tr) = tr ++ evs.
Proof.
  induction r as [x s | c s k IH]; intros rs tr.
  - exists []. simpl. rewrite app_nil_r. reflexivity.
  - destruct c; simpl.
    1: apply IH.
    all: destruct rs as [|resp rs'];
      [ exists []; simpl; rewrite app_nil_r; reflexivity
      | match goal with
        | |- context [run (_ ?r1 ?s1) ?rs1 (?tr1 ++ [?ev])] =>
            destruct (IH r1 s1 rs1 (tr1 ++ [ev])) as (evs & ->);
            exists (ev :: evs); rewrite <- app_assoc; reflexivity
        end ].
Qed.

Section Update.
Variable svc : Service.
Variable fuel : nat.
Variables (ctx : value) (opts : obj).

(** [updateEntity] from the point where the parameters are validated. *)
Definition update_apply (adapter : adapter) (id oldEntity : value)
  (params : obj) : M value :=
  let rawUpdate := is_true (Obj.get "raw" opts) in
  let id := _sanitizeID svc id opts in
  let params := Obj.delete (columnName (primaryField svc)) params in
  let params := Obj.delete (name (primaryField svc)) params in
  let hasChanges := (0 <? Z.of_nat (List.length (Obj.keys params))) in
  result <- (if hasChanges then
               await (AdapterCall adapter updateById
                        [id; VObj params; VObj [("raw", VBool rawUpdate)]])
             else ret oldEntity) ;;
  result <- (if wants_transform opts
             then await (TransformResult adapter result (VObj []) ctx)
             else ret result) ;;
  (if hasChanges
   then await_ (_entityChanged svc "update" result ctx opts)
   else ret tt) ;;
  ret result.

Lemma updateEntity_phases (params : obj) :
  updateEntity svc fuel ctx params opts =
  (adapter <- await_ (getAdapter svc fuel ctx) ;;
   id <- _getIDFromParams svc params ;;
   oldEntity <- await_ (resolveEntities svc fuel ctx params existence_check) ;;
   params' <- (if negb (is_true (Obj.get "raw" opts)) then
                 v <- await (ValidateParams ctx (VObj params)
                               (validateOpts svc opts "update" (Some oldEntity)
                                  adapter)) ;;
                 expect_obj v
               else ret params) ;;
   update_apply adapter id oldEntity params').
Proof. reflexivity. Qed.

(** With nothing left to change, [updateEntity] goes straight to the
    transformation of the entity it resolved. *)
Lemma update_apply_unchanged a id old p s rs tr :
  strip svc p = [] ->
  run (update_apply a id old p s) rs tr =
  if wants_transform opts then
    match rs with
    | [] => Suspended (TransformResult a old (VObj []) ctx) s tr
    | Resolved v :: rs' =>
        Finished (Ok v) s rs' (tr ++ [(TransformResult a old (VObj []) ctx, Resolved v)])
    | Rejected e :: rs' =>
        Finished (Err e) s rs' (tr ++ [(TransformResult a old (VObj []) ctx, Rejected e)])
    end
  else Finished (Ok old) s rs tr.
Proof.
  intros Hp. unfold update_apply. unfold strip in Hp. rewrite Hp. simpl.
  destruct (wants_transform opts); [|reflexivity].
  destruct rs as [|[v|e] rs']; reflexivity.
Qed.

(** [updateEntity] up to that point: the adapter, the identifier, the
    entity as it is stored and the parameters to apply. *)
Definition update_lookup (params : obj) : M (adapter * value * value * obj) :=
  adapter <- await_ (getAdapter svc fuel ctx) ;;
  id <- _getIDFromParams svc params ;;
  oldEntity <- await_ (resolveEntities svc fuel ctx params existence_check) ;;
  params' <- (if negb (is_true (Obj.get "raw" opts)) then
                v <- await (ValidateParams ctx (VObj params)
                              (validateOpts svc opts "update" (Some oldEntity)
                                 adapter)) ;;
                expect_obj v
              else ret params) ;;
  ret (adapter, id, oldEntity, params').

Lemma updateEntity_lookup (params : obj) s rs tr :
  run (updateEntity svc fuel ctx params opts s) rs tr =
  match run (update_lookup params s) rs tr with
  | Finished (Ok (a, id, old, p)) s1 rs1 tr1 =>
      run (update_apply a id old p s1) rs1 tr1
  | Finished (Err e) s1 rs1 tr1 => Finished (Err e) s1 rs1 tr1
  | Finished OutOfFuel s1 rs1 tr1 => Finished OutOfFuel s1 rs1 tr1
  | Suspended c s1 tr1 => Suspended c s1 tr1
  end.
Proof.
  rewrite updateEntity_phases. unfold update_lookup.
  repeat (rewrite !run_bind;
          match goal with
          | |- context [match run (?m ?s0) ?rs0 ?tr0 with _ => _ end] =>
              destruct (run (m s0) rs0 tr0) as [[?|?|] ? ? ?|? ? ?]
          end; try reflexivity).
Qed.

(** With nothing left to change, [updateEntity] returns the stored entity
    once the transformation, if there is one, has answered. *)
Lemma update_unchanged_returns (params : obj) s rs a id old p s1 rs1 tr1 :
  run (update_lookup params s) rs [] = Finished (Ok (a, id, old, p)) s1 rs1 tr1 ->
  strip svc p = [] ->
  exec (updateEntity svc fuel ctx params opts) s rs =
  if wants_transform opts then
    match rs1 with
    | [] => Suspended (TransformResult a old (VObj []) ctx) s1 tr1
    | Resolved v :: rs' =>
        Finished (Ok v) s1 rs'
                 (tr1 ++ [(TransformResult a old (VObj []) ctx, Resolved v)])
    | Rejected e :: rs' =>
        Finished (Err e) s1 rs'
                 (tr1 ++ [(TransformResult a old (VObj []) ctx, Rejected e)])
    end
  else Finished (Ok old) s1 rs1 tr1.
Proof.
  intros Hlookup Hp. unfold exec.
  rewrite updateEntity_lookup, Hlookup.
  apply update_apply_unchanged. exact Hp.
Qed.

End Update.

(** C3: when nothing is left of the patch once the identifier fields are
    deleted from it (the validated parameters, or the caller's own in raw
    mode), [updateEntity] does not call [adapter.updateById], sends no
    event, and what it returns is the entity [resolveEntities] found,
    passed through the transformation unless [opts.transform] is false.
    It does return it: once the lookup and the validation are through, the
    call ends with that entity, or with the answer of the transformation. *)
Theorem update_without_changes :
  forall (svc : Service) (fuel : nat) (ctx : value) (params opts : obj)
         (s : State) (rs : list response),
    let out := exec (updateEntity svc fuel ctx params opts) s rs in
    ((if is_true (Obj.get "raw" opts)
      then strip svc params = []
      else forall c p o v, In (ValidateParams c p o, Resolved v) (trace_of out) ->
                           strip svc (props_of v) = []) ->
     called updateById (trace_of out) = false /\
     emitted (state_of out) = emitted s /\
     forall result,
       result_of out = Some (Ok result) ->
       exists a old s1 rs1 tr1 s2 rs2 tr2 evs,
         run (resolveEntities svc fuel ctx params existence_check s1) rs1 tr1 =
         Finished (Ok old) s2 rs2 tr2 /\
         trace_of out = tr2 ++ evs /\
         if wants_transform opts
         then In (TransformResult a old (VObj []) ctx, Resolved result) (trace_of out)
         else result = old) /\
    (forall a id old p s1 rs1 tr1,
        run (update_lookup svc fuel ctx opts params s) rs [] =
        Finished (Ok (a, id, old, p)) s1 rs1 tr1 ->
        strip svc p = [] ->
        out =
        if wants_transform opts then
          match rs1 with
          | [] => Suspended (TransformResult a old (VObj []) ctx) s1 tr1
          | Resolved v :: rs' =>
              Finished (Ok v) s1 rs'
                       (tr1 ++ [(TransformResult a old (VObj []) ctx, Resolved v)])
          | Rejected e :: rs' =>
              Finished (Err e) s1 rs'
                       (tr1 ++ [(TransformResult a old (VObj []) ctx, Rejected e)])
          end
        else Finished (Ok old) s1 rs1 tr1).
Proof.
  intros svc fuel ctx params opts s rs out. split.
  2: { intros a id old p s1 rs1 tr1 Hlookup Hp. subst out.
       apply (update_unchanged_returns svc fuel ctx opts params s rs a id old p
                s1 rs1 tr1 Hlookup Hp). }
  intros Hempty.
  subst out. unfold exec in *. rewrite updateEntity_phases in *.
  rewrite run_bind, run_await_ in *.
  destruct (sat_stage _ _ _ (getAdapter svc fuel ctx) s rs []
              (I_after (fun x => x = emitted s))
              (getAdapter_lookup_calls svc fuel (fun x => x = emitted s) ctx) eq_refl)
    as (evs0 & HP0 & Ht0 & HI0 & _).
  assert (Hnone : forall evs : trace,
             Forall (fun ev => is_lookup_call (fst ev) = true) evs ->
             called updateById evs = false).
  { intros evs H.
    apply (called_none (fun c => is_lookup_call c = true) updateById evs H).
    intros c Hc. apply (lookup_not_called updateById c eq_refl Hc). }
  destruct (run (getAdapter svc fuel ctx s) rs [])
    as [[a1|err|] s1 rs1 tr1|c s1 tr1]; simpl in Ht0, HI0; subst tr1;
    try (simpl; split; [apply Hnone; exact HP0
                       | split; [exact HI0 | intros ? ?; discriminate]]).
  rewrite run_bind in *. unfold _getIDFromParams in *.
  destruct (is_nullish (Obj.get (name (primaryField svc)) params)).
  { rewrite run_throw in *. simpl.
    split; [apply Hnone; exact HP0|]. split; [exact HI0 | intros ? ?; discriminate]. }
  rewrite run_ret in *. rewrite run_bind, run_await_ in *.
  destruct (sat_stage _ _ _ (resolveEntities svc fuel ctx params existence_check)
              s1 rs1 evs0 (I_after (fun x => x = emitted s1))
              (resolveEntities_calls svc fuel (fun x => x = emitted s1) ctx params existence_check)
              eq_refl)
    as (evs1 & HP1 & Ht1 & HI1 & _).
  destruct (run (resolveEntities svc fuel ctx params existence_check s1) rs1 evs0)
    as [[old|err|] s2 rs2 tr2|c s2 tr2] eqn:Hresolve;
    simpl in Ht1, HI1; subst tr2;
    try (simpl; rewrite called_app, (Hnone _ HP0), (Hnone _ HP1);
         split; [reflexivity|]; split; [congruence | intros ? ?; discriminate]).
  rewrite run_bind in *.
  assert (Htail : forall p s3 rs3 (tr3 : trace) evs,
             tr3 = (evs0 ++ evs1) ++ evs ->
             called updateById evs = false ->
             emitted s3 = emitted s ->
             strip svc p = [] ->
             called updateById
               (trace_of (run (update_apply svc ctx opts a1
                                 (Obj.get (name (primaryField svc)) params) old p s3)
                              rs3 tr3)) = false /\
             emitted (state_of (run (update_apply svc ctx opts a1
                                       (Obj.get (name (primaryField svc)) params)
                                       old p s3) rs3 tr3)) = emitted s /\
             forall result,
               result_of (run (update_apply svc ctx opts a1
                                 (Obj.get (name (primaryField svc)) params) old p s3)
                              rs3 tr3) = Some (Ok result) ->
               exists a old0 s1' rs1' tr1' s2' rs2' tr2' evs',
                 run (resolveEntities svc fuel ctx params existence_check s1') rs1' tr1' =
                 Finished (Ok old0) s2' rs2' tr2' /\
                 trace_of (run (update_apply svc ctx opts a1
                                  (Obj.get (name (primaryField svc)) params) old p s3)
                               rs3 tr3) = tr2' ++ evs' /\
                 if wants_transform opts
                 then In (TransformResult a old0 (VObj []) ctx, Resolved result)
                         (trace_of (run (update_apply svc ctx opts a1
                                           (Obj.get (name (primaryField svc)) params)
                                           old p s3) rs3 tr3))
                 else result = old0).
  { intros p s3 rs3 tr3 evs -> Hevs Hs3 Hp.
    rewrite (update_apply_unchanged svc ctx opts a1 _ old p s3 rs3 _ Hp).
    destruct (wants_transform opts) eqn:Hw.
    - destruct rs3 as [|[v|err] rs4]; simpl.
      + rewrite !called_app, (Hnone _ HP0), (Hnone _ HP1), Hevs.
        split; [reflexivity|]. split; [exact Hs3 | intros ? ?; discriminate].
      + rewrite !called_app, (Hnone _ HP0), (Hnone _ HP1), Hevs.
        split; [reflexivity|]. split; [exact Hs3|].
        intros result H. inversion H; subst result.
        exists a1, old, s1, rs1, evs0, s2, rs2, (evs0 ++ evs1).
        eexists. split; [exact Hresolve|]. split.
        * rewrite <- app_assoc. reflexivity.
        * apply in_or_app. right. left. reflexivity.
      + rewrite !called_app, (Hnone _ HP0), (Hnone _ HP1), Hevs.
        split; [reflexivity|]. split; [exact Hs3 | intros ? ?; discriminate].
    - simpl. rewrite !called_app, (Hnone _ HP0), (Hnone _ HP1), Hevs.
      split; [reflexivity|]. split; [exact Hs3|].
      intros result H. inversion H; subst result.
      exists a1, old, s1, rs1, evs0, s2, rs2, (evs0 ++ evs1), evs.
      split; [exact Hresolve|]. split; reflexivity. }
  destruct (is_true (Obj.get "raw" opts)); cbn [negb] in *.
  - rewrite run_ret in *.
    apply (Htail params s2 rs2 _ []); auto.
    + rewrite app_nil_r. reflexivity.
    + congruence.
  - rewrite run_bind, run_await in * by discriminate.
    destruct rs2 as [|[v|err] rs3]; cbn [after] in *.
    + simpl. rewrite called_app, (Hnone _ HP0), (Hnone _ HP1).
      split; [reflexivity|]. split; [congruence | intros ? ?; discriminate].
    + set (vc := ValidateParams ctx (VObj params)
                   (validateOpts svc opts "update" (Some old) a1)) in *.
      assert (Hobj : forall o,
                 props_of v = o ->
                 In (vc, Resolved v)
                    (trace_of
                       (run (update_apply svc ctx opts a1
                               (Obj.get (name (primaryField svc)) params) old o s2)
                            rs3 ((evs0 ++ evs1) ++ [(vc, Resolved v)])))).
      { intros o _.
        match goal with
        | |- context [run ?r ?rs0 ?tr0] =>
            destruct (run_trace_extends r rs0 tr0) as (evsx & ->)
        end.
        apply in_or_app. left. apply in_or_app. right. left. reflexivity. }
      destruct v as [| | | | | |o|cls o]; simpl expect_obj in *;
        rewrite ?run_throw, ?run_ret in *;
        try (simpl; rewrite !called_app, (Hnone _ HP0), (Hnone _ HP1);
             split; [reflexivity|]; split; [congruence | intros ? ?; discriminate]).
      * apply (Htail o s2 rs3 _ [(vc, Resolved (VObj o))]);
          [reflexivity | reflexivity | congruence|].
        apply (Hempty _ _ _ _ (Hobj o eq_refl)).
      * apply (Htail o s2 rs3 _ [(vc, Resolved (VInstance cls o))]);
          [reflexivity | reflexivity | congruence|].
        apply (Hempty _ _ _ _ (Hobj o eq_refl)).
    + simpl. rewrite !called_app, (Hnone _ HP0), (Hnone _ HP1).
      split; [reflexivity|]. split; [congruence | intros ? ?; discriminate].
Qed.

(** ** The lookup of the existing entity *)

Lemma quiet_run {A} (I : State -> Prop) (Q : A -> Prop) (r : Res A) :
  sat quiet I Q r ->
  exists x s', forall rs tr, run r rs tr = Finished x s' rs tr.
Proof.
  induction r as [x s | c s k IH]; intros Hr.
  - exists x, s. reflexivity.
  - simpl in Hr. destruct Hr as (Hc & Hs & Hk).
    destruct c; try contradiction.
    destruct (IH (Resolved VUndefined) s (Hk _ _ Hs)) as (x & s' & Hrun).
    exists x, s'. intros rs tr. simpl. apply Hrun.
Qed.

Lemma paramsFieldNameConversion_run (svc : Service) (p : obj) (s : State) :
  exists x s',
    emitted s' = emitted s /\
    forall rs tr,
      run (paramsFieldNameConversion svc p s) rs tr = Finished x s' rs tr.
Proof.
  pose proof (paramsFieldNameConversion_calls svc (fun x => x = emitted s) quiet p s eq_refl)
    as Hsat.
  destruct (quiet_run _ _ _ Hsat) as (x & s' & Hrun).
  exists x, s'. split; [|exact Hrun].
  destruct (sat_run quiet _ (I_after (fun x => x = emitted s)) _ _ Hsat [] [])
    as (evs & _ & _ & HI & _).
  rewrite Hrun in HI. exact HI.
Qed.

Section ScopeInversion.
Variable svc : Service.
Variable ctx : value.

Lemma filter_by_permission_inv (names : list string) :
  forall s rs tr l s' rs' tr',
    run (_filterScopeNamesByPermission svc ctx names s) rs tr =
    Finished (Ok l) s' rs' tr' ->
    exists answers,
      List.length answers = List.length (defined_names svc names) /\
      rs = map Resolved answers ++ rs' /\
      l = permitted svc names answers /\
      s' = s /\
      tr' = tr ++ authority_trace svc ctx names answers.
Proof.
  induction names as [|n names IH]; intros s rs tr l s' rs' tr';
    cbn [_filterScopeNamesByPermission].
  - rewrite run_ret. intros H; inversion H; subst.
    exists []. simpl. rewrite app_nil_r. auto.
  - unfold defined_names. cbn [filter permitted authority_trace].
    destruct (scope_named svc n) as [sc|] eqn:Hsc.
    + rewrite run_bind, run_await by discriminate.
      destruct rs as [|[v|err] rs1]; try discriminate.
      cbn [after]. rewrite run_bind.
      destruct (run (_filterScopeNamesByPermission svc ctx names s) rs1
                    (tr ++ [(CheckScopeAuthority ctx (Some n) (Some sc), Resolved v)]))
        as [[l1|err|] s1 rs2 tr1|c s1 tr1] eqn:Hrec; try discriminate.
      rewrite run_ret. intros H; inversion H; subst.
      apply IH in Hrec. destruct Hrec as (answers & Hlen & -> & -> & -> & ->).
      exists (v :: answers). simpl.
      rewrite <- app_assoc. simpl.
      unfold defined_names in Hlen. rewrite Hlen.
      repeat split; auto.
    + intros H. apply IH in H. destruct H as (answers & Hlen & -> & -> & -> & ->).
      exists answers. auto.
Qed.

Lemma applyScopes_default_inv (params : obj) :
  Obj.get "scope" params = VUndefined ->
  forall s rs tr p1 s' rs' tr',
    run (_applyScopes svc params ctx s) rs tr = Finished (Ok p1) s' rs' tr' ->
    exists answers,
      List.length answers =
      List.length (defined_names svc (names_of (defaultScopes svc))) /\
      scoped_params svc ctx (defaultScopes svc) answers params = Ok p1 /\
      s' = s /\
      tr' = tr ++ authority_trace svc ctx (names_of (defaultScopes svc)) answers.
Proof.
  intros Hscope s rs tr p1 s' rs' tr'. unfold _applyScopes. rewrite Hscope.
  simpl truthy. cbv iota. rewrite run_bind, run_ret.
  unfold applyScopeNames, scoped_params.
  destruct (defaultScopes svc) as [[|n l]|]; simpl names_of.
  - rewrite run_ret. intros H; inversion H; subst.
    exists []. simpl. rewrite app_nil_r. auto.
  - rewrite run_bind, run_await_.
    destruct (run (_filterScopeNamesByPermission svc ctx (n :: l) s) rs tr)
      as [[l1|err|] s1 rs1 tr1|c s1 tr1] eqn:Hf; try discriminate.
    apply filter_by_permission_inv in Hf.
    destruct Hf as (answers & Hlen & -> & -> & -> & ->).
    rewrite reduce_permitted. fold (start_query params).
    destruct (fold_scopes ctx (permitted_scopes svc (n :: l) answers)
                (start_query params)) as [q|e] eqn:Hfold.
    + rewrite run_ret. intros H; inversion H; subst.
      exists answers. rewrite Hfold. auto.
    + rewrite run_throw. discriminate.
  - rewrite run_ret. intros H; inversion H; subst.
    exists []. simpl. rewrite app_nil_r. auto.
Qed.

End ScopeInversion.

(** The parameters [resolveEntities] hands to [adapter.find] when the
    caller names no scope: [p1] are the caller's with the default scopes
    the authority check permits folded into the query; their field names
    translated, they are [p] but for the identifier filter, which the
    query of [p] holds under the identifier column. *)
Definition lookup_params (svc : Service) (ctx : value) (params opts : obj)
  (answers : list value) (p1 p : obj) : Prop :=
  scoped_params svc ctx (defaultScopes svc) answers
    (if truthy (Obj.get "query" params) then params
     else Obj.set "query" (VObj []) params) = Ok p1 /\
  exists s1 s2 p2,
    exec (paramsFieldNameConversion svc p1) s1 [] = Finished (Ok p2) s2 [] [] /\
    (forall k, k <> "query" -> Obj.get k p = Obj.get k p2) /\
    member_of (Obj.get "query" p) (columnName (primaryField svc)) =
    id_filter svc params opts /\
    (forall k, k <> columnName (primaryField svc) ->
               member_of (Obj.get "query" p) k = member_of (Obj.get "query" p2) k).

Section Lookup.
Variable svc : Service.
Variable fuel : nat.
Variables (ctx : value) (params opts : obj).

Lemma set_member_run (target : value) (k : string) (v : value) s rs tr q s' rs' tr' :
  run (set_member target k v s) rs tr = Finished (Ok q) s' rs' tr' ->
  s' = s /\ rs' = rs /\ tr' = tr /\
  member_of q k = v /\
  forall k', k' <> k -> member_of q k' = member_of target k'.
Proof.
  destruct target; simpl; rewrite ?run_ret, ?run_throw; try discriminate;
    intros H; inversion H; subst; simpl;
    (repeat split; [apply get_set_same | intros k' Hk'; apply get_set_other; exact Hk']).
Qed.

Lemma resolve_prepare_inv s rs tr a1 p s1 rs1 tr1 :
  Obj.get "scope" params = VUndefined ->
  run (resolve_prepare svc fuel ctx params opts s) rs tr =
  Finished (Ok (a1, p)) s1 rs1 tr1 ->
  exists answers p1 evs,
    List.length answers =
    List.length (defined_names svc (names_of (defaultScopes svc))) /\
    lookup_params svc ctx params opts answers p1 p /\
    tr1 = tr ++ authority_trace svc ctx (names_of (defaultScopes svc)) answers
             ++ evs.
Proof.
  intros Hscope. unfold resolve_prepare. rewrite run_bind.
  unfold _getIDFromParams.
  destruct (is_nullish (Obj.get (name (primaryField svc)) params));
    [rewrite run_throw; discriminate|].
  rewrite run_ret, run_bind, run_await_.
  set (params0 := if truthy (Obj.get "query" params) then params
                  else Obj.set "query" (VObj []) params).
  assert (Hscope0 : Obj.get "scope" params0 = VUndefined).
  { subst params0. destruct (truthy (Obj.get "query" params)); [exact Hscope|].
    rewrite get_set_other by discriminate. exact Hscope. }
  destruct (run (_applyScopes svc params0 ctx s) rs tr)
    as [[pA|err|] sA rsA trA|c sA trA] eqn:HA; try discriminate.
  apply (applyScopes_default_inv svc ctx params0 Hscope0) in HA.
  destruct HA as (answers & Hlen & HpA & -> & ->).
  rewrite run_bind.
  destruct (paramsFieldNameConversion_run svc pA s) as (x & s2 & _ & Hconv).
  rewrite Hconv. destruct x as [p2|err|]; try discriminate.
  rewrite run_bind.
  fold (is_multi svc params). fold (decoded_ids svc params opts).
  fold (id_filter svc params opts).
  destruct (run (set_member (Obj.get "query" p2) (columnName (primaryField svc))
                   (id_filter svc params opts) s2) rsA
              (tr ++ authority_trace svc ctx (names_of (defaultScopes svc)) answers))
    as [[q|err|] s3 rs3 tr3|c s3 tr3] eqn:Hset; try discriminate.
  apply set_member_run in Hset. destruct Hset as (-> & -> & -> & Hq & Hother).
  rewrite run_bind, run_await_.
  destruct (run_trace_extends (getAdapter svc fuel ctx s2) rsA
              (tr ++ authority_trace svc ctx (names_of (defaultScopes svc)) answers))
    as (evs & Hext).
  destruct (run (getAdapter svc fuel ctx s2) rsA
              (tr ++ authority_trace svc ctx (names_of (defaultScopes svc)) answers))
    as [[a|err|] s3 rs3 tr3|c s3 tr3]; try discriminate.
  rewrite run_ret. intros H; inversion H; subst. simpl in Hext.
  exists answers, pA, evs. split; [exact Hlen|]. split.
  - split; [exact HpA|]. exists s, s2, p2. unfold exec. rewrite Hconv.
    split; [reflexivity|]. rewrite get_set_same. split; [|split; assumption].
    intros k Hk. apply get_set_other. exact Hk.
  - rewrite Hext, <- app_assoc. reflexivity.
Qed.

End Lookup.

Section ResolveLookup.
Variable svc : Service.
Variable fuel : nat.
Variables (ctx : value) (params opts : obj).

(** What a run of [resolveEntities] adds to the trace: calls of the
    lookup only; the [find] it makes has the scoped parameters; when
    [find] comes back with nothing the method ends as C8 says; and with
    [throwIfNotExist] it returns only what a [find] has found. *)
Lemma resolve_lookup s rs tr0 :
  exists evs,
    trace_of (run (resolveEntities svc fuel ctx params opts s) rs tr0) = tr0 ++ evs /\
    Forall (fun ev => is_lookup_call (fst ev) = true) evs /\
    (forall a args resp,
      In (AdapterCall a find args, resp) evs ->
      (Obj.get "scope" params = VUndefined ->
       exists answers p1 p,
         List.length answers =
         List.length (defined_names svc (names_of (defaultScopes svc))) /\
         incl (authority_trace svc ctx (names_of (defaultScopes svc)) answers) evs /\
         args = [VObj p] /\
         lookup_params svc ctx params opts answers p1 p) /\
      (forall found,
          resp = Resolved found -> no_result found = true ->
          result_of (run (resolveEntities svc fuel ctx params opts s) rs tr0) =
          Some (if truthy (Obj.get "throwIfNotExist" opts)
                then Err (EntityNotFoundError
                            (Obj.get (name (primaryField svc)) params))
                else Ok (nothing svc params)))) /\
    (forall v,
        result_of (run (resolveEntities svc fuel ctx params opts s) rs tr0) =
        Some (Ok v) ->
        truthy (Obj.get "throwIfNotExist" opts) = true ->
        exists a p found,
          In (AdapterCall a find [VObj p], Resolved found) evs /\
          no_result found = false).
Proof.
  destruct (sat_stage _ _ _ (resolveEntities svc fuel ctx params opts) s rs tr0
              (I_after (fun x => x = emitted s))
              (resolveEntities_calls svc fuel (fun x => x = emitted s) ctx params opts) eq_refl)
    as (evs & HP & Ht & _).
  exists evs. split; [exact Ht|]. split; [exact HP|].
  revert Ht. rewrite resolveEntities_phases. rewrite run_bind.
  destruct (sat_stage _ _ _ (resolve_prepare svc fuel ctx params opts) s rs tr0
              (I_after (fun x => x = emitted s))
              (resolve_prepare_calls svc fuel (fun x => x = emitted s) ctx params opts) eq_refl)
    as (evs0 & HP0 & Ht0 & _ & HQ0).
  assert (Hnofind : forall a args resp,
             In (AdapterCall a find args, resp) evs0 -> False).
  { intros a args resp Hin.
    apply (Forall_not_in _ (calls_method find) _ _ HP0 prepare_no_find Hin).
    reflexivity. }
  destruct (run (resolve_prepare svc fuel ctx params opts s) rs tr0)
    as [[[a1 p1]|err|] s1 rs1 tr1|c s1 tr1] eqn:Hprep; simpl in Ht0; subst tr1;
    try (simpl; intros Ht; apply app_inv_head in Ht; subst evs0;
         split; [intros a args resp Hin; exfalso; exact (Hnofind _ _ _ Hin)
                | intros v Hv; discriminate]).
  specialize (HQ0 _ eq_refl). simpl in HQ0.
  rewrite run_bind, run_await by discriminate.
  destruct rs1 as [|[v|err] rs2]; cbn [fst snd after].
  - simpl; intros Ht; apply app_inv_head in Ht; subst evs0.
    split; [intros a args resp Hin; exfalso; exact (Hnofind _ _ _ Hin)
           | intros v Hv; discriminate].
  - destruct (sat_stage _ _ _ (resolve_found svc ctx params opts a1 p1 v) s1 rs2
                ((tr0 ++ evs0) ++ [(AdapterCall a1 find [VObj p1], Resolved v)])
                (I_after (fun x => x = emitted s1))
                (resolve_found_calls svc (fun x => x = emitted s1) ctx params opts a1 p1 v)
                eq_refl)
      as (evs2 & HP2 & Ht2 & _).
    rewrite Ht2. rewrite <- !app_assoc. intros Ht.
    apply app_inv_head in Ht. subst evs.
    assert (Hfind : In (AdapterCall a1 find [VObj p1], Resolved v)
                       (evs0 ++ [(AdapterCall a1 find [VObj p1], Resolved v)] ++ evs2)).
    { apply in_or_app. right. left. reflexivity. }
    split.
    + intros a args resp Hin.
      assert (Hev : (AdapterCall a find args, resp) =
                    (AdapterCall a1 find [VObj p1], Resolved v)).
      { apply in_app_or in Hin. destruct Hin as [Hin|[Hin|Hin]].
        - exfalso. exact (Hnofind _ _ _ Hin).
        - symmetry. exact Hin.
        - exfalso.
          apply (Forall_not_in _ (calls_method find) _ _ HP2 found_no_find Hin);
            reflexivity. }
      inversion Hev; subst a args resp. clear Hev Hin. split.
      * intros Hscope.
        destruct (resolve_prepare_inv svc fuel ctx params opts s rs tr0 a1 p1 s1 _ _
                    Hscope Hprep) as (answers & pA & evsA & Hlen & Hlook & HtA).
        apply app_inv_head in HtA. subst evs0.
        exists answers, pA, p1. split; [exact Hlen|].
        split; [|split; [reflexivity|exact Hlook]].
        intros x Hx. apply in_or_app. left. apply in_or_app. left. exact Hx.
      * intros found Hf Hnone. inversion Hf; subst found.
        unfold resolve_found. rewrite Hnone.
        destruct (truthy (Obj.get "throwIfNotExist" opts)).
        -- rewrite run_throw. reflexivity.
        -- rewrite run_ret. simpl. unfold nothing, is_multi, requested_id.
           rewrite HQ0 by (repeat split; discriminate).
           destruct (Obj.get (name (primaryField svc)) params); reflexivity.
    + intros v0 Hv0 Hthrow. exists a1, p1, v. split; [exact Hfind|].
      unfold resolve_found in Hv0. rewrite Hthrow in Hv0.
      destruct (no_result v); [|reflexivity].
      rewrite run_throw in Hv0. discriminate.
  - simpl. rewrite <- app_assoc. intros Ht. apply app_inv_head in Ht. subst evs.
    split; [|intros v Hv; discriminate].
    intros a args resp Hin. split.
    + intros Hscope.
      assert (Hev : (AdapterCall a find args, resp) =
                    (AdapterCall a1 find [VObj p1], Rejected err)).
      { apply in_app_or in Hin. destruct Hin as [Hin|[Hin|[]]].
        - exfalso. exact (Hnofind _ _ _ Hin).
        - symmetry. exact Hin. }
      inversion Hev; subst a args resp.
      destruct (resolve_prepare_inv svc fuel ctx params opts s rs tr0 a1 p1 s1 _ _
                  Hscope Hprep) as (answers & pA & evsA & Hlen & Hlook & HtA).
      apply app_inv_head in HtA. subst evs0.
      exists answers, pA, p1. split; [exact Hlen|].
      split; [|split; [reflexivity|exact Hlook]].
      intros x Hx. apply in_or_app. left. apply in_or_app. left. exact Hx.
    + intros found Hf Hnone. subst resp. exfalso.
      apply in_app_or in Hin. destruct Hin as [Hin|[Hin|[]]].
      * exact (Hnofind _ _ _ Hin).
      * discriminate.
Qed.

End ResolveLookup.

(** ** The operations that check the entity first *)

Section Tails.
Variable svc : Service.
Variable fuel : nat.
Variables (ctx : value) (params opts : obj).

(** [updateEntity] once the entity is resolved. *)
Definition update_validated (adapter : adapter) (id oldEntity : value)
  : M value :=
  params' <- (if negb (is_true (Obj.get "raw" opts)) then
                v <- await (ValidateParams ctx (VObj params)
                              (validateOpts svc opts "update" (Some oldEntity)
                                 adapter)) ;;
                expect_obj v
              else ret params) ;;
  update_apply svc ctx opts adapter id oldEntity params'.

(** [replaceEntity] once the entity is resolved. *)
Definition replace_apply (id oldEntity : value) : M value :=
  adapter <- await_ (getAdapter svc fuel ctx) ;;
  v <- await (ValidateParams ctx (VObj params)
                (validateOpts svc opts "replace" (Some oldEntity) adapter)) ;;
  params <- expect_obj v ;;
  let id := _sanitizeID svc id opts in
  let params := Obj.delete (columnName (primaryField svc)) params in
  let params :=
    if negb (String.eqb (columnName (primaryField svc)) (name (primaryField svc)))
    then Obj.delete (name (primaryField svc)) params
    else params in
  result <- await (AdapterCall adapter replaceById [id; VObj params]) ;;
  result <- (if wants_transform opts
             then await (TransformResult adapter result (VObj []) ctx)
             else ret result) ;;
  await_ (_entityChanged svc "replace" result ctx opts) ;;
  ret result.

(** [removeEntity] once the entity is resolved. *)
Definition remove_apply (id entity : value) : M value :=
  let origID := id in
  adapter <- await_ (getAdapter svc fuel ctx) ;;
  params <- await (ValidateParams ctx (VObj params)
                     (validateOpts svc opts "remove" None adapter)) ;;
  let id := _sanitizeID svc id opts in
  entity <- (if softDelete svc then
               await (AdapterCall adapter updateById [id; params])
             else
               await (AdapterCall adapter removeById [id]) ;;
               ret entity) ;;
  entity <- (if wants_transform opts
             then await (TransformResult adapter entity params ctx)
             else ret entity) ;;
  await_ (_entityChanged svc "remove" entity ctx
            (Obj.set "softDelete" (VBool (softDelete svc)) opts)) ;;
  ret origID.

Lemma replaceEntity_phases :
  replaceEntity svc fuel ctx params opts =
  (id <- _getIDFromParams svc params ;;
   oldEntity <- await_ (resolveEntities svc fuel ctx params existence_check) ;;
   replace_apply id oldEntity).
Proof. reflexivity. Qed.

Lemma removeEntity_phases :
  removeEntity svc fuel ctx params opts =
  (id <- _getIDFromParams svc params ;;
   entity <- await_ (resolveEntities svc fuel ctx params existence_check) ;;
   remove_apply id entity).
Proof. reflexivity. Qed.

Lemma updateEntity_phases' :
  updateEntity svc fuel ctx params opts =
  (adapter <- await_ (getAdapter svc fuel ctx) ;;
   id <- _getIDFromParams svc params ;;
   oldEntity <- await_ (resolveEntities svc fuel ctx params existence_check) ;;
   update_validated adapter id oldEntity).
Proof. reflexivity. Qed.

(** None of them looks anything up again. *)
Let no_find := fun c => calls_method find c = false.
Let any := fun _ : State => True.

Lemma any_after (c : call) (s : State) : any s -> any (after c s).
Proof. intros; exact Logic.I. Qed.

Lemma getAdapter_no_find :
  Sat no_find any (fun _ => True) (getAdapter svc fuel ctx).
Proof.
  eapply Sat_calls_weaken
    with (P := fun c => is_prepare_call c = true).
  - apply prepare_no_find.
  - eapply Sat_calls_weaken; [|apply (getAdapter_calls svc fuel (fun _ => True))].
    intros c Hc. unfold is_prepare_call. rewrite Hc. apply orb_true_r.
Qed.

Lemma entityChanged_no_find type data o :
  Sat no_find any (fun _ => True) (_entityChanged svc type data ctx o).
Proof. unfold _entityChanged, entityChanged, emit. sat. Qed.

Lemma update_validated_no_find a id old :
  Sat no_find any (fun _ => True) (update_validated a id old).
Proof.
  unfold update_validated, update_apply, expect_obj. sat;
    apply entityChanged_no_find.
Qed.

Lemma replace_apply_no_find id old :
  Sat no_find any (fun _ => True) (replace_apply id old).
Proof.
  unfold replace_apply, expect_obj. sat;
    try apply entityChanged_no_find; apply getAdapter_no_find.
Qed.

Lemma remove_apply_no_find id old :
  Sat no_find any (fun _ => True) (remove_apply id old).
Proof.
  unfold remove_apply. sat;
    try apply entityChanged_no_find; apply getAdapter_no_find.
Qed.

End Tails.

Lemma pool_no_find c : is_pool_call c = true -> calls_method find c = false.
Proof.
  destruct c as [| | a m args | | | | | |]; try reflexivity.
  destruct m; try reflexivity; discriminate.
Qed.

Lemma pool_no_mutation c : is_pool_call c = true -> is_mutation c = false.
Proof.
  destruct c as [| | a m args | | | | | |]; try reflexivity.
  destruct m; try reflexivity; discriminate.
Qed.

Section Guarded.
Variable svc : Service.
Variable fuel : nat.
Variables (ctx : value) (params : obj).

Lemma guarded_lookup {X} (pre : M X) (post : X -> value -> M value) :
  Sat (fun c => is_pool_call c = true) (fun _ => True) (fun _ => True) pre ->
  (forall x old,
      Sat (fun c => calls_method find c = false) (fun _ => True) (fun _ => True)
          (post x old)) ->
  forall s rs,
    let out :=
      run ((x <- pre ;;
            old <- await_ (resolveEntities svc fuel ctx params existence_check) ;;
            post x old) s) rs [] in
    (Obj.get "scope" params = VUndefined ->
     mutated (trace_of out) = true \/ (exists v, result_of out = Some (Ok v)) ->
     exists answers p1 p a found,
       List.length answers =
       List.length (defined_names svc (names_of (defaultScopes svc))) /\
       incl (authority_trace svc ctx (names_of (defaultScopes svc)) answers)
            (trace_of out) /\
       In (AdapterCall a find [VObj p], Resolved found) (trace_of out) /\
       no_result found = false /\
       lookup_params svc ctx params existence_check answers p1 p) /\
    (forall a args found,
        In (AdapterCall a find args, Resolved found) (trace_of out) ->
        no_result found = true ->
        result_of out =
        Some (Err (EntityNotFoundError (Obj.get (name (primaryField svc)) params))) /\
        mutated (trace_of out) = false).
Proof.
  intros Hpre Hpost s rs out. subst out.
  rewrite run_bind in *.
  destruct (sat_stage _ (fun _ => True) _ pre s rs [] (fun _ _ _ => Logic.I)
              Hpre Logic.I)
    as (evsP & HPP & HtP & _).
  assert (HmP : mutated evsP = false)
    by exact (mutated_none _ _ HPP pool_no_mutation).
  assert (HfP : forall a args resp, In (AdapterCall a find args, resp) evsP -> False).
  { intros a args resp Hin.
    apply (Forall_not_in _ (calls_method find) _ _ HPP pool_no_find Hin).
    reflexivity. }
  destruct (run (pre s) rs []) as [[x|err|] s1 rs1 tr1|c s1 tr1];
    simpl in HtP; subst tr1;
    try (simpl; split;
         [ intros _ [Hm|[v Hv]]; [rewrite HmP in Hm|]; discriminate
         | intros a args found Hin _; exfalso; exact (HfP _ _ _ Hin) ]).
  rewrite run_bind, run_await_ in *.
  destruct (resolve_lookup svc fuel ctx params existence_check s1 rs1 evsP)
    as (evsR & HtR & HPR & HfR & HokR).
  assert (HmR : mutated evsR = false)
    by exact (mutated_none _ _ HPR lookup_no_mutation).
  assert (Hfinal : forall a args resp (evsT : trace),
             Forall (fun ev => calls_method find (fst ev) = false) evsT ->
             In (AdapterCall a find args, resp) ((evsP ++ evsR) ++ evsT) ->
             In (AdapterCall a find args, resp) evsR).
  { intros a args resp evsT HPT H. apply in_app_or in H. destruct H as [H|H].
    - apply in_app_or in H. destruct H as [H|H]; [|exact H]. exfalso.
      exact (HfP _ _ _ H).
    - exfalso. rewrite Forall_forall in HPT. specialize (HPT _ H).
      simpl in HPT. discriminate. }
  destruct (run (resolveEntities svc fuel ctx params existence_check s1) rs1 evsP)
    as [[old|err|] s2 rs2 tr2|c s2 tr2]; simpl in HtR; subst tr2.
  - destruct (sat_stage _ (fun _ => True) _ (post x old) s2 rs2 (evsP ++ evsR)
                (fun _ _ _ => Logic.I) (Hpost x old) Logic.I)
      as (evsT & HPT & HtT & _).
    rewrite HtT in *. split.
    + intros Hscope _.
      destruct (HokR old eq_refl eq_refl) as (a & p & found & Hin & Hsome).
      destruct (proj1 (HfR _ _ _ Hin) Hscope)
        as (answers & p1 & p' & Hlen & Hincl & Hargs & Hl).
      inversion Hargs; subst p'.
      exists answers, p1, p, a, found. split; [exact Hlen|]. split; [|split].
      * intros ev Hev. apply in_or_app. left. apply in_or_app. right.
        apply Hincl. exact Hev.
      * apply in_or_app. left. apply in_or_app. right. exact Hin.
      * split; assumption.
    + intros a args found Hin Hnone. apply (Hfinal _ _ _ evsT HPT) in Hin.
      pose proof (proj2 (HfR _ _ _ Hin) found eq_refl Hnone) as HB.
      discriminate.
  - simpl. split.
    + intros _ [Hm|[v Hv]]; [|discriminate].
      rewrite mutated_app, HmP, HmR in Hm. discriminate.
    + intros a args found Hin Hnone.
      rewrite <- (app_nil_r (evsP ++ evsR)) in Hin.
      apply (Hfinal _ _ _ [] (Forall_nil _)) in Hin.
      pose proof (proj2 (HfR _ _ _ Hin) found eq_refl Hnone) as HB.
      split; [exact HB|]. rewrite mutated_app, HmP, HmR. reflexivity.
  - simpl. split.
    + intros _ [Hm|[v Hv]]; [|discriminate].
      rewrite mutated_app, HmP, HmR in Hm. discriminate.
    + intros a args found Hin Hnone.
      rewrite <- (app_nil_r (evsP ++ evsR)) in Hin.
      apply (Hfinal _ _ _ [] (Forall_nil _)) in Hin.
      pose proof (proj2 (HfR _ _ _ Hin) found eq_refl Hnone) as HB.
      discriminate.
  - simpl. split.
    + intros _ [Hm|[v Hv]]; [|discriminate].
      rewrite mutated_app, HmP, HmR in Hm. discriminate.
    + intros a args found Hin Hnone.
      rewrite <- (app_nil_r (evsP ++ evsR)) in Hin.
      apply (Hfinal _ _ _ [] (Forall_nil _)) in Hin.
      pose proof (proj2 (HfR _ _ _ Hin) found eq_refl Hnone) as HB.
      discriminate.
Qed.

End Guarded.

(** The operations that resolve the entity before they change it. *)
Inductive guarded : Type := Update | Replace | Remove.

Definition perform (svc : Service) (fuel : nat) (op : guarded)
  (ctx : value) (params opts : obj) : M value :=
  match op with
  | Update => updateEntity svc fuel ctx params opts
  | Replace => replaceEntity svc fuel ctx params opts
  | Remove => removeEntity svc fuel ctx params opts
  end.


(** * Change notifications *)

Section CacheOff.
Variable svc : Service.
Variable fuel : nat.

(** With the cache off [cacheOpts] is [null]. *)
Hypothesis cache_off : cacheOpts svc = None.

Variable R : list Emitted -> Prop.
Let I := fun s : State => R (emitted s).
Let any := fun _ : call => True.

Lemma entityChanged_off {Q : unit -> Prop} type data ctx opts :
  Sat any I Q (_entityChanged svc type data ctx opts).
Proof. unfold _entityChanged. rewrite cache_off. apply Sat_throw. Qed.

Ltac sat_off :=
  repeat first
    [ lazymatch goal with
      | |- Sat _ _ _ (bind (await_ (_entityChanged _ _ _ _ _)) _) =>
          eapply Sat_bind with (Q1 := fun _ => False);
          [ apply Sat_await_; apply entityChanged_off | intros ? [] ]
      | |- Sat _ _ _ (await_ (_entityChanged _ _ _ _ _)) =>
          apply Sat_await_; apply entityChanged_off
      end
    | lazymatch goal with
      | |- Sat _ _ _ (bind _ _) =>
          eapply Sat_bind with (Q1 := fun _ => True); [ | intros ? _ ]
      | |- Sat _ _ _ (throw _) => apply Sat_throw
      | |- Sat _ _ _ (ret _) => apply Sat_ret; exact Logic.I
      | |- Sat _ _ _ (await _) => apply Sat_await; exact Logic.I
      | |- Sat _ _ _ (await_ _) => apply Sat_await_
      | |- Sat _ _ _ (mapM _ _) => apply Sat_mapM; intros ? _
      | |- Sat _ _ _ (allM _ _) => apply Sat_allM; intros ? _
      | |- Sat _ _ _ (if ?b then _ else _) => destruct b
      | |- Sat _ _ _ (match ?x with _ => _ end) => destruct x
      end ].

Lemma getAdapter_any ctx : Sat any I (fun _ => True) (getAdapter svc fuel ctx).
Proof.
  eapply Sat_calls_weaken; [|apply (getAdapter_calls svc fuel R)].
  intros; exact Logic.I.
Qed.

Lemma resolveEntities_any ctx params opts :
  Sat any I (fun _ => True) (resolveEntities svc fuel ctx params opts).
Proof.
  eapply Sat_calls_weaken; [|apply (resolveEntities_calls svc fuel R)].
  intros; exact Logic.I.
Qed.

Lemma getID_any (Q : value -> Prop) params :
  (forall v, Q v) -> Sat any I Q (_getIDFromParams svc params).
Proof.
  intros HQ. unfold _getIDFromParams.
  destruct (is_nullish _); [apply Sat_throw | apply Sat_ret; apply HQ].
Qed.

Lemma create_off ctx params opts :
  Sat any I (fun _ => False) (createEntity svc fuel ctx params opts).
Proof. unfold createEntity. sat_off. apply getAdapter_any. Qed.

Lemma createMany_off ctx params opts :
  Sat any I (fun _ => False) (createEntities svc fuel ctx params opts).
Proof. unfold createEntities. sat_off. apply getAdapter_any. Qed.

Lemma replace_off ctx params opts :
  Sat any I (fun _ => False) (replaceEntity svc fuel ctx params opts).
Proof.
  unfold replaceEntity, expect_obj. sat_off;
    try apply getAdapter_any; try apply resolveEntities_any;
    try (apply getID_any; auto); try (apply Sat_ret; exact Logic.I).
Qed.

Lemma remove_off ctx params opts :
  Sat any I (fun _ => False) (removeEntity svc fuel ctx params opts).
Proof.
  unfold removeEntity. sat_off;
    try apply getAdapter_any; try apply resolveEntities_any;
    try (apply getID_any; auto); try (apply Sat_ret; exact Logic.I).
Qed.

Lemma clear_off ctx params :
  Sat any I (fun _ => False) (clearEntities svc fuel ctx params).
Proof. unfold clearEntities. sat_off. apply getAdapter_any. Qed.

Lemma update_off ctx params opts :
  Sat any I (fun _ => True) (updateEntity svc fuel ctx params opts).
Proof.
  unfold updateEntity, expect_obj. sat_off;
    try apply getAdapter_any; try apply resolveEntities_any;
    try (apply getID_any; auto); try (apply Sat_ret; exact Logic.I).
Qed.

End CacheOff.

Definition sends_nothing {A} (m : M A) (s : State) (rs : list response) : Prop :=
  emitted (state_of (exec m s rs)) = emitted s.

Definition never_returns {A} (m : M A) (s : State) (rs : list response) : Prop :=
  forall v, result_of (exec m s rs) <> Some (Ok v).

Lemma off_run {A} (m : M A) (s : State) (rs : list response) :
  Sat (fun _ => True) (fun s' => emitted s' = emitted s) (fun _ => False) m ->
  sends_nothing m s rs /\ never_returns m s rs.
Proof.
  intros Hm.
  destruct (sat_stage _ _ _ m s rs [] (I_after (fun x => x = emitted s)) Hm eq_refl)
    as (evs & _ & _ & HI & HQ).
  split; [exact HI|]. intros v Hv. exact (HQ v Hv).
Qed.

(** C2: the code does not let the two channels be configured apart.  With
    the cache off, [cacheOpts] is [null] and [_entityChanged] throws when
    it reads [cacheOpts.eventType], before [entityChanged] is reached: no
    write operation sends an event, not even the lifecycle one, and
    [createEntity], [createEntities], [replaceEntity], [removeEntity] and
    [clearEntities] never return. *)
Theorem notifications_need_the_cache :
  forall (svc : Service) (fuel : nat) (ctx : value) (s : State)
         (rs : list response),
    cacheOpts svc = None ->
    (forall params opts,
        sends_nothing (createEntity svc fuel ctx params opts) s rs /\
        never_returns (createEntity svc fuel ctx params opts) s rs) /\
    (forall params opts,
        sends_nothing (createEntities svc fuel ctx params opts) s rs /\
        never_returns (createEntities svc fuel ctx params opts) s rs) /\
    (forall params opts,
        sends_nothing (updateEntity svc fuel ctx params opts) s rs) /\
    (forall params opts,
        sends_nothing (replaceEntity svc fuel ctx params opts) s rs /\
        never_returns (replaceEntity svc fuel ctx params opts) s rs) /\
    (forall params opts,
        sends_nothing (removeEntity svc fuel ctx params opts) s rs /\
        never_returns (removeEntity svc fuel ctx params opts) s rs) /\
    (forall params,
        sends_nothing (clearEntities svc fuel ctx params) s rs /\
        never_returns (clearEntities svc fuel ctx params) s rs).
Proof.
  intros svc fuel ctx s rs Hoff.
  split; [intros; apply off_run;
          apply (create_off svc fuel Hoff (fun x => x = emitted s))|].
  split; [intros; apply off_run;
          apply (createMany_off svc fuel Hoff (fun x => x = emitted s))|].
  split.
  { intros params opts. unfold sends_nothing.
    destruct (sat_stage _ _ _ (updateEntity svc fuel ctx params opts) s rs []
                (I_after (fun x => x = emitted s))
                (update_off svc fuel Hoff (fun x => x = emitted s) ctx params opts)
                eq_refl)
      as (evs & _ & _ & HI & _).
    exact HI. }
  split; [intros; apply off_run;
          apply (replace_off svc fuel Hoff (fun x => x = emitted s))|].
  split; [intros; apply off_run;
          apply (remove_off svc fuel Hoff (fun x => x = emitted s))|].
  intros; apply off_run;
          apply (clear_off svc fuel Hoff (fun x => x = emitted s)).
Qed.

(** * Concurrent calls of [getAdapter]

    Calls of [getAdapter] run one at a time between their [await]s: a call
    runs until it suspends, and is resumed, with the shared state as the
    other calls have left it, when the environment answers.  Any number of
    calls may be made, at any time, and resumed in any order. *)

(** A call in progress: suspended at an [await], or settled. *)
Inductive task (A : Type) : Type :=
| Waiting (c : call) (k : response -> State -> Res A)
| Settled (r : result A).

Arguments Waiting {A} c k.
Arguments Settled {A} r.

(** Where a method that has run as far as it can stops, and the state it
    leaves to the others. *)
Definition park {A} (r : Res A) : task A * State :=
  match r with
  | Done x s => (Settled x, s)
  | Await c s k => (Waiting c k, s)
  end.

(** The calls in progress, each with the context it was made with, the
    shared state, the calls they have issued to the outside ([issued]
    pairs each with the number of the task that made it), and the handles
    [Adapters.resolve] has made, each with the key of the call it was made
    for. *)
Record World : Type := mkWorld {
  shared : State;
  acquires : list (value * task adapter);
  issued : list (nat * call);
  made : list (string * adapter)
}.

Definition issue (i : nat) (t : task adapter) : list (nat * call) :=
  match t with
  | Waiting c _ => [(i, c)]
  | Settled _ => []
  end.

(** The handles made between the states [s] and [s'], for the key [k]. *)
Definition new_handles (k : string) (s s' : State) : list (string * adapter) :=
  map (pair k) (seq (nextAdapter s) (nextAdapter s' - nextAdapter s)).

Fixpoint replace_nth {A} (i : nat) (x : A) (l : list A) : list A :=
  match l, i with
  | [], _ => []
  | _ :: l', O => x :: l'
  | y :: l', S i' => y :: replace_nth i' x l'
  end.

Section Concurrent.

Variable svc : Service.
Variable fuel : nat.

(** The key of the tenant a call is for. *)
Definition tenant (ctx : value) : string :=
  fst (getAdapterByContext svc ctx (adapterDef svc)).

Inductive step : World -> World -> Prop :=
| step_call w ctx t s' :
    (* a new call: it runs up to its first [await] *)
    park (getAdapter svc fuel ctx (shared w)) = (t, s') ->
    step w (mkWorld s' (acquires w ++ [(ctx, t)])
              (issued w ++ issue (List.length (acquires w)) t)
              (made w ++ new_handles (tenant ctx) (shared w) s'))
| step_resume w i ctx c k resp t s' :
    (* the environment answers the call task [i] waits for *)
    nth_error (acquires w) i = Some (ctx, Waiting c k) ->
    park (k resp (shared w)) = (t, s') ->
    step w (mkWorld s' (replace_nth i (ctx, t) (acquires w))
              (issued w ++ issue i t)
              (made w ++ new_handles (tenant ctx) (shared w) s'))
| step_time w t :
    (* the clock is read anew *)
    step w (mkWorld (with_now t (shared w)) (acquires w) (issued w) (made w)).

(** The worlds that can be reached from an empty pool and no call. *)
Inductive reachable : World -> Prop :=
| reach_start s : adapters s = [] -> nextAdapter s = O ->
                  reachable (mkWorld s [] [] [])
| reach_step w w' : reachable w -> step w w' -> reachable w'.

(** The keys of the calls that have been made. *)
Definition tenants (w : World) : list string :=
  map (fun ct => tenant (fst ct)) (acquires w).

(** The pool has room for every tenant that has called: no entry has to
    be closed. *)
Definition roomy (w : World) : Prop :=
  match maximumAdapters svc with
  | None => True
  | Some maximum =>
      maximum < 1 \/
      Z.of_nat (List.length (nodup string_dec (tenants w))) <= maximum
  end.

End Concurrent.

(** ** What a task does to the state others share *)

(** What a task may do to the pool between two [await]s, as the others see
    it. *)
Class Frame (F : State -> State -> Prop) : Prop := {
  frame_refl : forall s, F s s;
  frame_trans : forall s0 s1 s2, F s0 s1 -> F s1 s2 -> F s0 s2
}.

(** The task has made no handle and has put nothing in the pool: what is
    in the pool was there when the task was resumed. *)
Definition frame (s0 s : State) : Prop :=
  nextAdapter s = nextAdapter s0 /\ incl (adapters s) (adapters s0).

(** The pool and the handle counter are as the task found them. *)
Definition same_pool (s0 s : State) : Prop :=
  adapters s = adapters s0 /\ nextAdapter s = nextAdapter s0.

#[export] Instance frame_Frame : Frame frame.
Proof.
  split.
  - intros s. split; [reflexivity | apply incl_refl].
  - intros s0 s1 s2 [H1 H2] [H3 H4]. split; [congruence|].
    eapply incl_tran; eassumption.
Qed.

#[export] Instance same_pool_Frame : Frame same_pool.
Proof.
  split.
  - intros s. split; reflexivity.
  - intros s0 s1 s2 [H1 H2] [H3 H4]. split; congruence.
Qed.

(** [rsat F P Q r s0]: resumed in [s0], [r] does to the pool what [F]
    allows up to its next [await], issues only calls in [P], and does so
    again whatever state it is resumed in; its value, if any, is in [Q]. *)
Fixpoint rsat {A} (F : State -> State -> Prop) (P : call -> Prop)
  (Q : A -> Prop) (r : Res A) (s0 : State) : Prop :=
  match r with
  | Done (Ok a) s => F s0 s /\ Q a
  | Done _ s => F s0 s
  | Await c s k =>
      match c with Tick => True | _ => P c end /\
      F s0 s /\ forall resp s', rsat F P Q (k resp s') s'
  end.

Definition RSat {A} (F : State -> State -> Prop) (P : call -> Prop)
  (Q : A -> Prop) (m : M A) : Prop :=
  forall s, rsat F P Q (m s) s.

Section RSatLemmas.

Context {F : State -> State -> Prop} `{Frame F}.
Variable P : call -> Prop.

Lemma rsat_bindR {A B} (Q1 : A -> Prop) (Q2 : B -> Prop) (r : Res A)
  (f : A -> M B) s0 :
  rsat F P Q1 r s0 -> (forall a, Q1 a -> RSat F P Q2 (f a)) ->
  rsat F P Q2 (bindR r f) s0.
Proof.
  intros Hr Hf. revert s0 Hr.
  induction r as [[a|e|] s | c s k IH]; intros s0 Hr; simpl in *.
  - destruct Hr as [Hs Ha]. specialize (Hf a Ha s).
    destruct (f a s) as [[b|e|] s2 | c s2 k2]; simpl in *.
    + destruct Hf as [Hf Hb]. split; [eapply frame_trans; eassumption|exact Hb].
    + eapply frame_trans; eassumption.
    + eapply frame_trans; eassumption.
    + destruct Hf as (Hc & Hf & Hk). split; [exact Hc|].
      split; [eapply frame_trans; eassumption | exact Hk].
  - assumption.
  - assumption.
  - destruct Hr as (Hc & Hs & Hk). split; [exact Hc|]. split; [exact Hs|].
    intros resp s'. apply IH. apply Hk.
Qed.

Lemma RSat_bind {A B} (Q1 : A -> Prop) (Q2 : B -> Prop) (m : M A)
  (f : A -> M B) :
  RSat F P Q1 m -> (forall a, Q1 a -> RSat F P Q2 (f a)) ->
  RSat F P Q2 (bind m f).
Proof. intros Hm Hf s. unfold bind. eapply rsat_bindR; eauto. Qed.

Lemma RSat_ret {A} (Q : A -> Prop) (a : A) : Q a -> RSat F P Q (ret a).
Proof. intros Ha s. simpl. split; [apply frame_refl | exact Ha]. Qed.

Lemma RSat_throw {A} (Q : A -> Prop) (e : error) : RSat F P Q (throw e).
Proof. intros s. simpl. apply frame_refl. Qed.

Lemma RSat_out_of_fuel {A} (Q : A -> Prop) : RSat F P Q out_of_fuel.
Proof. intros s. simpl. apply frame_refl. Qed.

Lemma RSat_await (c : call) :
  match c with Tick => True | _ => P c end ->
  RSat F P (fun _ => True) (await c).
Proof.
  intros Hc s. simpl. split; [exact Hc|]. split; [apply frame_refl|].
  intros [v|e] s'; simpl; [|apply frame_refl].
  split; [apply frame_refl | exact Logic.I].
Qed.

Lemma RSat_tick : RSat F P (fun _ => True) tick.
Proof.
  intros s. simpl. split; [exact Logic.I|]. split; [apply frame_refl|].
  intros _ s'. simpl. split; [apply frame_refl | exact Logic.I].
Qed.

Lemma RSat_sleep (ms : Z) :
  P (Timeout ms) -> RSat F P (fun _ => True) (sleep ms).
Proof.
  intros Hc s. simpl. split; [exact Hc|]. split; [apply frame_refl|].
  intros _ s'. simpl. split; [apply frame_refl | exact Logic.I].
Qed.

Lemma RSat_await_ {A} (Q : A -> Prop) (m : M A) :
  RSat F P Q m -> RSat F P Q (await_ m).
Proof.
  intros Hm. unfold await_. eapply RSat_bind; [exact Hm|].
  intros a Ha. eapply RSat_bind; [apply RSat_tick|].
  intros _ _. apply RSat_ret. exact Ha.
Qed.

Lemma rsat_catchR {A} (Q : A -> Prop) (r : Res A) (h : error -> M A) s0 :
  rsat F P Q r s0 -> (forall e, RSat F P Q (h e)) -> rsat F P Q (catchR r h) s0.
Proof.
  intros Hr Hh. revert s0 Hr.
  induction r as [[a|e|] s | c s k IH]; intros s0 Hr; simpl in *.
  - assumption.
  - specialize (Hh e s).
    destruct (h e s) as [[b|e'|] s2 | c s2 k2]; simpl in *.
    + destruct Hh as [Hf Hb]. split; [eapply frame_trans; eassumption|exact Hb].
    + eapply frame_trans; eassumption.
    + eapply frame_trans; eassumption.
    + destruct Hh as (Hc & Hf & Hk). split; [exact Hc|].
      split; [eapply frame_trans; eassumption | exact Hk].
  - assumption.
  - destruct Hr as (Hc & Hs & Hk). split; [exact Hc|]. split; [exact Hs|].
    intros resp s'. apply IH. apply Hk.
Qed.

Lemma RSat_try_catch {A} (Q : A -> Prop) (m : M A) (h : error -> M A) :
  RSat F P Q m -> (forall e, RSat F P Q (h e)) -> RSat F P Q (try_catch m h).
Proof. intros Hm Hh s. unfold try_catch. apply rsat_catchR; auto. Qed.

(** Fewer calls, fewer values. *)
Lemma rsat_weaken {A} (P' : call -> Prop) (Q Q' : A -> Prop) (r : Res A) :
  (forall c, P c -> P' c) -> (forall a, Q a -> Q' a) ->
  forall s0, rsat F P Q r s0 -> rsat F P' Q' r s0.
Proof.
  intros HP HQ.
  induction r as [[a|e|] s | c s k IH]; intros s0; simpl; auto.
  - intros [Hs Ha]. auto.
  - intros (Hc & Hs & Hk). split; [destruct c; auto|]. split; [exact Hs|].
    intros resp s'. apply IH. apply Hk.
Qed.

Lemma RSat_forEach {A} (l : list A) (f : A -> M unit) :
  (forall x, RSat F P (fun _ => True) (f x)) ->
  RSat F P (fun _ => True) (forEach l f).
Proof.
  intros Hf. induction l as [|x l IH]; simpl.
  - apply RSat_ret. exact Logic.I.
  - eapply RSat_bind; [apply Hf|]. intros _ _. exact IH.
Qed.

End RSatLemmas.

(** ** The steps of one call *)

(** The calls of a task that connects the handle [a] and no other: it may
    close others. *)
Definition connects_handle (a : adapter) (c : call) : Prop :=
  match c with
  | AdapterCall a' connect _ => a' = a
  | HookAdapterConnected a' _ _ => a' = a
  | _ => True
  end.

Section OneCall.

Variable svc : Service.
Variable fuel : nat.

(** Connecting leaves the pool alone. *)
Lemma connecting_rsat {F} `{Frame F} n a h o :
  RSat F (connects_handle a) (fun _ => True) (connecting svc n a h o).
Proof.
  induction n as [|n IH]; simpl.
  - apply RSat_out_of_fuel.
  - apply RSat_try_catch.
    + eapply RSat_bind with (Q1 := fun _ => True).
      * apply RSat_await. reflexivity.
      * intros _ _. destruct (has_hook svc "adapterConnected").
        -- eapply RSat_bind with (Q1 := fun _ => True).
           ++ apply RSat_await. reflexivity.
           ++ intros _ _. apply RSat_ret. exact Logic.I.
        -- apply RSat_ret. exact Logic.I.
    + intros e. destruct (autoReconnect svc).
      * eapply RSat_bind with (Q1 := fun _ => True).
        -- apply RSat_sleep. exact Logic.I.
        -- intros _ _. exact IH.
      * apply RSat_throw.
Qed.

(** [_disconnect] takes an entry out of the pool, if any, and calls
    nothing that connects. *)
Lemma disconnect_rsat a0 a h :
  RSat frame (connects_handle a0) (fun _ => True) (_disconnect svc a h).
Proof.
  intros s. unfold _disconnect, bind. cbn [get_state bindR].
  set (rest := fun _ : unit =>
                 (_ <- (if hasDisconnect svc a
                        then (_ <- await (AdapterCall a disconnect []) ;; ret tt)
                        else ret tt) ;;
                  (if has_hook svc "adapterDisconnected"
                   then (_ <- await (HookAdapterDisconnected a h) ;; ret tt)
                   else ret tt))).
  assert (Hrest : forall x,
             RSat frame (connects_handle a0) (fun _ => True) (rest x)).
  { intros x. unfold rest.
    eapply RSat_bind with (Q1 := fun _ => True).
    - destruct (hasDisconnect svc a).
      + eapply RSat_bind with (Q1 := fun _ => True).
        * apply RSat_await. exact Logic.I.
        * intros _ _. apply RSat_ret. exact Logic.I.
      + apply RSat_ret. exact Logic.I.
    - intros _ _. destruct (has_hook svc "adapterDisconnected").
      + eapply RSat_bind with (Q1 := fun _ => True).
        * apply RSat_await. exact Logic.I.
        * intros _ _. apply RSat_ret. exact Logic.I.
      + apply RSat_ret. exact Logic.I. }
  destruct (Pool.find_adapter a (adapters s)) as [item|].
  - apply (rsat_bindR _ (fun _ => True) _
             (Done (Ok tt) (with_adapters (Pool.delete (hash item) (adapters s)) s))
             rest s).
    + simpl. split; [|exact Logic.I]. split; [reflexivity|].
      simpl. unfold Pool.delete. intros x Hx. apply filter_In in Hx. tauto.
    + intros x _. apply Hrest.
  - apply (rsat_bindR _ (fun _ => True) _ (Done (Ok tt) s) rest s).
    + simpl. split; [apply frame_refl | exact Logic.I].
    + intros x _. apply Hrest.
Qed.

Lemma maintenance_rsat a0 :
  RSat frame (connects_handle a0) (fun _ => True) (maintenanceAdapters svc).
Proof.
  unfold maintenanceAdapters.
  destruct (maximumAdapters svc) as [maximum|]; [|apply RSat_ret; exact Logic.I].
  destruct (maximum <? 1); [apply RSat_ret; exact Logic.I|].
  intros s. unfold bind. cbn [get_state bindR].
  destruct (0 <? Z.of_nat (List.length (adapters s)) - maximum).
  - apply RSat_forEach. intros it. apply RSat_await_. apply disconnect_rsat.
  - apply RSat_ret. exact Logic.I.
Qed.

(** When no entry has to be closed the maintenance pass returns at once. *)
Lemma maintenance_idle s :
  match maximumAdapters svc with
  | None => True
  | Some maximum =>
      maximum < 1 \/ Z.of_nat (List.length (adapters s)) <= maximum
  end ->
  maintenanceAdapters svc s = Done (Ok tt) s.
Proof.
  unfold maintenanceAdapters. destruct (maximumAdapters svc) as [m|]; [|reflexivity].
  intros [H0|H0].
  - apply Z.ltb_lt in H0. rewrite H0. reflexivity.
  - destruct (m <? 1); [reflexivity|]. unfold bind. simpl.
    assert (E : (0 <? Z.of_nat (List.length (adapters s)) - m) = false)
      by (apply Z.ltb_ge; lia).
    rewrite E. reflexivity.
Qed.

(** [getAdapter] from the moment the handle is in the pool. *)
Definition connect_and_return (a : adapter) (h : string) (o : value)
  : M adapter :=
  await_ (maintenanceAdapters svc) ;;
  await_ (_connect svc fuel a h o) ;; ret a.

Lemma connect_and_return_rsat a h o :
  RSat frame (connects_handle a) (eq a) (connect_and_return a h o).
Proof.
  unfold connect_and_return.
  eapply RSat_bind with (Q1 := fun _ => True).
  - apply RSat_await_. apply maintenance_rsat.
  - intros _ _. eapply RSat_bind with (Q1 := fun _ => True).
    + apply RSat_await_. apply connecting_rsat.
    + intros _ _. apply RSat_ret. reflexivity.
Qed.

(** While the pool has room it is left as it is. *)
Lemma connect_and_return_idle a h o s :
  match maximumAdapters svc with
  | None => True
  | Some maximum =>
      maximum < 1 \/ Z.of_nat (List.length (adapters s)) <= maximum
  end ->
  rsat same_pool (fun _ => True) (fun _ => True) (connect_and_return a h o s) s.
Proof.
  intros Hroom. unfold connect_and_return, bind.
  unfold await_ at 1. unfold bind. rewrite (maintenance_idle s Hroom). simpl.
  split; [exact Logic.I|]. split; [apply frame_refl|].
  intros _ s'.
  apply (rsat_weaken (connects_handle a) (fun _ => True) (eq a) (fun _ => True));
    [exact (fun _ _ => Logic.I) | exact (fun _ _ => Logic.I) |].
  apply (RSat_bind (connects_handle a) (fun _ => True) (eq a)
           (await_ (_connect svc fuel a h o)) (fun _ => ret a)).
  - apply RSat_await_. apply connecting_rsat.
  - intros _ _. apply RSat_ret. reflexivity.
Qed.

(** [getAdapter] after its first [await]. *)
Definition lookup_or_create (h : string) (adapterOpts : value) : M adapter :=
  s <- get_state ;;
  match Pool.get h (adapters s) with
  | Some item =>
      t <- Date_now ;;
      modify (fun s => with_adapters
                (Pool.set (mkItem (hash item) (adapter_of item) t) (adapters s)) s) ;;
      ret (adapter_of item)
  | None =>
      a <- Adapters_resolve adapterOpts ;;
      t <- Date_now ;;
      modify (fun s => with_adapters (Pool.set (mkItem h a t) (adapters s)) s) ;;
      await_ (maintenanceAdapters svc) ;;
      await_ (_connect svc fuel a h adapterOpts) ;;
      ret a
  end.

(** A call that has been made and not resumed yet. *)
Definition fresh (ctx : value) : task adapter :=
  Waiting Tick
    (fun _ s' =>
       lookup_or_create (fst (getAdapterByContext svc ctx (adapterDef svc)))
         (snd (getAdapterByContext svc ctx (adapterDef svc))) s').

Lemma park_getAdapter ctx s :
  park (getAdapter svc fuel ctx s) = (fresh ctx, s).
Proof.
  unfold getAdapter, fresh.
  destruct (getAdapterByContext svc ctx (adapterDef svc)) as [h o].
  reflexivity.
Qed.

(** The key is in the pool: the call touches the entry and returns its
    handle. *)
Lemma lookup_hit h o s item :
  Pool.get h (adapters s) = Some item ->
  lookup_or_create h o s =
  Done (Ok (adapter_of item))
       (with_adapters
          (Pool.set (mkItem (hash item) (adapter_of item) (clock s)) (adapters s)) s).
Proof. intros H. unfold lookup_or_create, bind. simpl. rewrite H. reflexivity. Qed.

(** The key is not in the pool: the call makes a handle, puts it in the
    pool and goes on with the maintenance pass and the connection. *)
Lemma lookup_miss h o s :
  Pool.get h (adapters s) = None ->
  lookup_or_create h o s =
  connect_and_return (nextAdapter s) h o
    (mkState (Pool.set (mkItem h (nextAdapter s) (clock s)) (adapters s))
       (cacheColumnName s) (clock s) (S (nextAdapter s)) (emitted s)).
Proof.
  intros Hget. unfold lookup_or_create, bind. simpl. rewrite Hget. reflexivity.
Qed.

End OneCall.

(** ** Facts about the pool *)

Section PoolLookup.

Lemma pool_get_in h p it : Pool.get h p = Some it -> In it p /\ hash it = h.
Proof.
  induction p as [|x p IH]; simpl; [discriminate|].
  destruct (String.eqb h (hash x)) eqn:E.
  - intros H; inversion H; subst. apply String.eqb_eq in E. auto.
  - intros H. destruct (IH H). auto.
Qed.

Lemma pool_get_none h p : Pool.get h p = None -> ~ In h (map hash p).
Proof.
  induction p as [|x p IH]; simpl; [auto|].
  destruct (String.eqb h (hash x)) eqn:E; [discriminate|].
  apply String.eqb_neq in E. intros H [H1|H1]; [congruence|].
  exact (IH H H1).
Qed.

(** Putting a new key in the pool. *)
Lemma pool_set_new it p :
  Pool.get (hash it) p = None -> Pool.set it p = p ++ [it].
Proof.
  induction p as [|x p IH]; simpl; [reflexivity|].
  destruct (String.eqb (hash it) (hash x)); [discriminate|].
  intros H. rewrite (IH H). reflexivity.
Qed.

Lemma pool_get_app_other h p it :
  hash it <> h -> Pool.get h (p ++ [it]) = Pool.get h p.
Proof.
  intros Hne. induction p as [|x p IH]; simpl.
  - destruct (String.eqb h (hash it)) eqn:E; [|reflexivity].
    apply String.eqb_eq in E. congruence.
  - destruct (String.eqb h (hash x)); [reflexivity | exact IH].
Qed.

Lemma pool_get_app_new p it :
  Pool.get (hash it) p = None -> Pool.get (hash it) (p ++ [it]) = Some it.
Proof.
  induction p as [|x p IH]; simpl.
  - rewrite String.eqb_refl. reflexivity.
  - destruct (String.eqb (hash it) (hash x)); [discriminate | exact IH].
Qed.

(** Touching an entry changes neither the keys nor the handles. *)
Lemma pool_touch h p item t :
  Pool.get h p = Some item ->
  map hash (Pool.set (mkItem (hash item) (adapter_of item) t) p) = map hash p /\
  map adapter_of (Pool.set (mkItem (hash item) (adapter_of item) t) p) =
  map adapter_of p /\
  forall k, option_map adapter_of
              (Pool.get k (Pool.set (mkItem (hash item) (adapter_of item) t) p)) =
            option_map adapter_of (Pool.get k p).
Proof.
  induction p as [|x p IH]; simpl; [discriminate|].
  destruct (String.eqb h (hash x)) eqn:E.
  - intros H; inversion H; subst item. rewrite String.eqb_refl. simpl.
    repeat split. intros k. destruct (String.eqb k (hash x)); reflexivity.
  - intros H. destruct (pool_get_in _ _ _ H) as [_ Hh].
    assert (E' : String.eqb (hash item) (hash x) = false) by (rewrite Hh; exact E).
    rewrite E'. simpl. destruct (IH H) as (H1 & H2 & H3).
    rewrite H1, H2. repeat split.
    intros k. destruct (String.eqb k (hash x)); [reflexivity | apply H3].
Qed.

End PoolLookup.

(** The entries of a pool in which an entry has been touched are the
    entries it had, up to the time they were touched at. *)
Lemma pool_touch_in h p item t it :
  Pool.get h p = Some item ->
  In it (Pool.set (mkItem (hash item) (adapter_of item) t) p) ->
  exists it0, In it0 p /\ hash it = hash it0 /\ adapter_of it = adapter_of it0.
Proof.
  induction p as [|x p IH]; simpl; [discriminate|].
  destruct (String.eqb h (hash x)) eqn:E.
  - intros H; inversion H; subst item. rewrite String.eqb_refl. simpl.
    intros [Hit|Hit].
    + subst it. exists x. auto.
    + exists it. auto.
  - intros H. destruct (pool_get_in _ _ _ H) as [_ Hh].
    assert (E' : String.eqb (hash item) (hash x) = false) by (rewrite Hh; exact E).
    rewrite E'. simpl. intros [Hit|Hit].
    + subst it. exists x. auto.
    + destruct (IH H Hit) as (it0 & Hin & Hk & Ha). exists it0. auto.
Qed.

(** ** The invariant of the concurrent calls *)

Inductive role : Type :=
| Fresh
| Creator (a : adapter)
| Follower (a : adapter).

(** The pool holds the handle [a] under the key [k]. *)
Definition holds (k : string) (a : adapter) (s : State) : Prop :=
  option_map adapter_of (Pool.get k (adapters s)) = Some a.

Definition is_connect (c : call) : bool := calls_method connect c.

(** Task [i] has started a connect sequence. *)
Definition connects (i : nat) (log : list (nat * call)) : Prop :=
  exists c, In (i, c) log /\ is_connect c = true.

Section Invariant.

Variable svc : Service.
Variable fuel : nat.

(** What a call is doing: it has not looked its key up yet; it has made
    the handle [a] for its key and connects it; or it has found [a] in the
    pool and has returned it. *)
Definition task_ok (handles : list (string * adapter)) (log : list (nat * call))
  (i : nat) (ctx : value) (t : task adapter) (r : role) : Prop :=
  match r with
  | Fresh => t = fresh svc fuel ctx /\ ~ connects i log
  | Creator a =>
      In (tenant svc ctx, a) handles /\
      (forall c, In (i, c) log -> is_connect c = true -> connects_handle a c) /\
      match t with
      | Settled (Ok a') => a' = a
      | Settled _ => True
      | Waiting c k =>
          forall resp s', rsat frame (connects_handle a) (eq a) (k resp s') s'
      end
  | Follower a =>
      In (tenant svc ctx, a) handles /\ t = Settled (Ok a) /\ ~ connects i log
  end.

Record invariant (w : World) (roles : list role) : Prop := mkInvariant {
  inv_roles : List.length roles = List.length (acquires w);
  inv_tasks :
    forall i ctx t, nth_error (acquires w) i = Some (ctx, t) ->
                    exists r, nth_error roles i = Some r /\
                              task_ok (made w) (issued w) i ctx t r;
  (* a handle is connected by the call that made it, and by no other *)
  inv_creators :
    forall i j a,
      nth_error roles i = Some (Creator a) ->
      nth_error roles j = Some (Creator a) -> i = j;
  inv_log : forall i c, In (i, c) (issued w) -> (i < List.length (acquires w))%nat;
  (* an entry of the pool is a handle made for its key *)
  inv_pool :
    forall it, In it (adapters (shared w)) -> In (hash it, adapter_of it) (made w);
  inv_fresh :
    forall k a, In (k, a) (made w) -> (a < nextAdapter (shared w))%nat;
  (* a handle is made once, for one key *)
  inv_made : NoDup (map snd (made w))
}.

(** A task keeps its role when it issues nothing. *)
Lemma task_ok_other handles log handles' log' i ctx t r :
  incl handles handles' ->
  (forall c, In (i, c) log' -> In (i, c) log) ->
  task_ok handles log i ctx t r -> task_ok handles' log' i ctx t r.
Proof.
  intros Hmade Hlog. destruct r as [|a|a]; simpl.
  - intros [Ht Hn]. split; [exact Ht|]. intros (c & Hc & Hcc). apply Hn.
    exists c. split; [apply Hlog; exact Hc | exact Hcc].
  - intros (Hh & Hc & Ht). split; [apply Hmade; exact Hh|]. split; [|exact Ht].
    intros c Hin. apply Hc. apply Hlog. exact Hin.
  - intros (Hh & Ht & Hn). split; [apply Hmade; exact Hh|]. split; [exact Ht|].
    intros (c & Hc & Hcc). apply Hn.
    exists c. split; [apply Hlog; exact Hc | exact Hcc].
Qed.

End Invariant.

Section ReplaceNth.

Context {A : Type}.

Lemma replace_nth_same (l : list A) : forall i x y,
  nth_error l i = Some y -> nth_error (replace_nth i x l) i = Some x.
Proof.
  induction l as [|z l IH]; intros [|i] x y; simpl; try discriminate; auto.
  apply IH.
Qed.

Lemma replace_nth_other (l : list A) : forall i j x,
  i <> j -> nth_error (replace_nth i x l) j = nth_error l j.
Proof.
  induction l as [|z l IH]; intros [|i] [|j] x Hij; simpl; try reflexivity.
  - congruence.
  - apply IH. congruence.
Qed.

Lemma replace_nth_length (l : list A) : forall i x,
  List.length (replace_nth i x l) = List.length l.
Proof.
  induction l as [|z l IH]; intros [|i] x; simpl; auto.
Qed.

Lemma replace_nth_map {B} (f : A -> B) (l : list A) : forall i x y,
  nth_error l i = Some y -> f x = f y ->
  map f (replace_nth i x l) = map f l.
Proof.
  induction l as [|z l IH]; intros [|i] x y; simpl; try discriminate.
  - intros H E; inversion H; subst. rewrite E. reflexivity.
  - intros H E. rewrite (IH i x y H E). reflexivity.
Qed.

End ReplaceNth.

Section Preservation.

Variable svc : Service.
Variable fuel : nat.

Lemma not_connects_snoc i log j c :
  ~ connects i log -> (j <> i \/ is_connect c = false) ->
  ~ connects i (log ++ [(j, c)]).
Proof.
  intros Hn Hj (c' & Hin & Hc'). apply in_app_or in Hin.
  destruct Hin as [Hin|[Hin|[]]].
  - apply Hn. exists c'. auto.
  - inversion Hin; subst. destruct Hj; congruence.
Qed.

Lemma new_handles_none k s s' :
  nextAdapter s' = nextAdapter s -> new_handles k s s' = [].
Proof. intros H. unfold new_handles. rewrite H, Nat.sub_diag. reflexivity. Qed.

Lemma preserve_call w roles ctx :
  invariant svc fuel w roles ->
  invariant svc fuel
    (mkWorld (shared w) (acquires w ++ [(ctx, fresh svc fuel ctx)])
       (issued w ++ issue (List.length (acquires w)) (fresh svc fuel ctx))
       (made w ++ new_handles (tenant svc ctx) (shared w) (shared w)))
    (roles ++ [Fresh]).
Proof.
  intros Hinv. pose proof (inv_roles _ _ _ _ Hinv) as Hlen.
  rewrite new_handles_none by reflexivity. rewrite (app_nil_r (made w)).
  simpl issue.
  assert (Hlog : forall i c,
             (i < List.length (acquires w))%nat ->
             In (i, c) (issued w ++ [(List.length (acquires w), Tick)]) ->
             In (i, c) (issued w)).
  { intros i c Hi Hin. apply in_app_or in Hin. destruct Hin as [H|[H|[]]]; [exact H|].
    inversion H; subst. lia. }
  constructor; simpl.
  - rewrite !length_app, Hlen. reflexivity.
  - intros i ctx' t Hnth.
    destruct (Nat.lt_ge_cases i (List.length (acquires w))) as [Hi|Hi].
    + rewrite nth_error_app1 in Hnth by exact Hi.
      destruct (inv_tasks _ _ _ _ Hinv i ctx' t Hnth) as (r & Hr & Hok).
      exists r. split; [rewrite nth_error_app1 by lia; exact Hr|].
      eapply task_ok_other; [apply incl_refl| |exact Hok]; auto.
    + rewrite nth_error_app2 in Hnth by exact Hi.
      destruct (i - List.length (acquires w))%nat as [|d] eqn:Hd;
        [|destruct d; discriminate].
      simpl in Hnth. inversion Hnth; subst ctx' t.
      assert (i = List.length (acquires w)) by lia. subst i.
      exists Fresh. split.
      * rewrite nth_error_app2 by lia. rewrite Hlen, Nat.sub_diag. reflexivity.
      * split; [reflexivity|]. apply not_connects_snoc; [|right; reflexivity].
        intros (c & Hc & _). apply (inv_log _ _ _ _ Hinv) in Hc. lia.
  - intros i j a Hri Hrj.
    assert (Hi' : (i < List.length roles)%nat).
    { destruct (Nat.lt_ge_cases i (List.length roles)) as [H|H]; [lia|].
      rewrite nth_error_app2 in Hri by exact H.
      destruct (i - List.length roles)%nat as [|[|d]]; discriminate. }
    assert (Hj' : (j < List.length roles)%nat).
    { destruct (Nat.lt_ge_cases j (List.length roles)) as [H|H]; [lia|].
      rewrite nth_error_app2 in Hrj by exact H.
      destruct (j - List.length roles)%nat as [|[|d]]; discriminate. }
    rewrite nth_error_app1 in Hri, Hrj by lia.
    eapply (inv_creators _ _ _ _ Hinv); eassumption.
  - intros i c Hin. rewrite length_app. simpl.
    apply in_app_or in Hin. destruct Hin as [H|[H|[]]].
    + apply (inv_log _ _ _ _ Hinv) in H. lia.
    + inversion H; subst. lia.
  - apply (inv_pool _ _ _ _ Hinv).
  - apply (inv_fresh _ _ _ _ Hinv).
  - apply (inv_made _ _ _ _ Hinv).
Qed.

Lemma preserve_time w roles t :
  invariant svc fuel w roles ->
  invariant svc fuel
    (mkWorld (with_now t (shared w)) (acquires w) (issued w) (made w)) roles.
Proof.
  intros Hinv. constructor; simpl.
  - apply (inv_roles _ _ _ _ Hinv).
  - apply (inv_tasks _ _ _ _ Hinv).
  - apply (inv_creators _ _ _ _ Hinv).
  - apply (inv_log _ _ _ _ Hinv).
  - apply (inv_pool _ _ _ _ Hinv).
  - apply (inv_fresh _ _ _ _ Hinv).
  - apply (inv_made _ _ _ _ Hinv).
Qed.

End Preservation.

Section Resume.

Variable svc : Service.
Variable fuel : nat.

Lemma issue_other i j t c : In (j, c) (issue i t) -> j = i.
Proof.
  destruct t as [c' k|x]; simpl; [|intros []].
  intros [H|[]]. inversion H. reflexivity.
Qed.

(** Resuming task [i]: what has to be shown of the state it leaves and of
    the task itself; the other tasks keep their roles. *)
Lemma preserve_resume_with w roles i ctx c k t s' handles r' :
  invariant svc fuel w roles ->
  nth_error (acquires w) i = Some (ctx, Waiting c k) ->
  incl (made w) handles ->
  (forall it, In it (adapters s') -> In (hash it, adapter_of it) handles) ->
  (forall h a, In (h, a) handles -> (a < nextAdapter s')%nat) ->
  NoDup (map snd handles) ->
  task_ok svc fuel handles (issued w ++ issue i t) i ctx t r' ->
  (forall a, r' = Creator a ->
             nth_error roles i = Some (Creator a) \/
             forall j, nth_error roles j <> Some (Creator a)) ->
  invariant svc fuel
    (mkWorld s' (replace_nth i (ctx, t) (acquires w)) (issued w ++ issue i t)
       handles)
    (replace_nth i r' roles).
Proof.
  intros Hinv Hnth Hmade Hpool Hfresh Hnodup Hok Hcreator.
  assert (Hri : exists r, nth_error roles i = Some r).
  { destruct (inv_tasks _ _ _ _ Hinv i ctx _ Hnth) as (r & Hr & _). eauto. }
  destruct Hri as (ri & Hri).
  constructor; simpl.
  - rewrite !replace_nth_length. apply (inv_roles _ _ _ _ Hinv).
  - intros j cj tj Hj. destruct (Nat.eq_dec i j) as [<-|Hij].
    + rewrite (replace_nth_same _ _ _ _ Hnth) in Hj. inversion Hj; subst cj tj.
      exists r'. split; [apply (replace_nth_same _ _ _ _ Hri) | exact Hok].
    + rewrite replace_nth_other in Hj by exact Hij.
      destruct (inv_tasks _ _ _ _ Hinv j cj tj Hj) as (r & Hr & Hokj).
      exists r. split; [rewrite replace_nth_other by exact Hij; exact Hr|].
      eapply task_ok_other; [exact Hmade| |exact Hokj].
      intros c0 Hin. apply in_app_or in Hin. destruct Hin as [H|H]; [exact H|].
      apply issue_other in H. congruence.
  - intros j1 j2 a Hr1 Hr2.
    destruct (Nat.eq_dec j1 j2) as [E|Hne]; [exact E|]. exfalso.
    destruct (Nat.eq_dec i j1) as [<-|Hi1].
    + rewrite (replace_nth_same _ _ _ _ Hri) in Hr1. inversion Hr1; subst r'.
      rewrite replace_nth_other in Hr2 by exact Hne.
      destruct (Hcreator a eq_refl) as [Ha0|Hfree].
      * apply Hne. eapply (inv_creators _ _ _ _ Hinv); eassumption.
      * exact (Hfree _ Hr2).
    + rewrite replace_nth_other in Hr1 by exact Hi1.
      destruct (Nat.eq_dec i j2) as [<-|Hi2].
      * rewrite (replace_nth_same _ _ _ _ Hri) in Hr2. inversion Hr2; subst r'.
        destruct (Hcreator a eq_refl) as [Ha0|Hfree].
        -- apply Hne. eapply (inv_creators _ _ _ _ Hinv); eassumption.
        -- exact (Hfree _ Hr1).
      * rewrite replace_nth_other in Hr2 by exact Hi2.
        apply Hne. eapply (inv_creators _ _ _ _ Hinv); eassumption.
  - intros j c0 Hin. rewrite replace_nth_length.
    apply in_app_or in Hin. destruct Hin as [H|H].
    + apply (inv_log _ _ _ _ Hinv) in H. exact H.
    + apply issue_other in H. subst j.
      apply nth_error_Some. rewrite Hnth. discriminate.
  - exact Hpool.
  - exact Hfresh.
  - exact Hnodup.
Qed.

End Resume.

Section ResumeCases.

Variable svc : Service.
Variable fuel : nat.

Lemma preserve_resume w roles i ctx c k resp t s' :
  invariant svc fuel w roles ->
  nth_error (acquires w) i = Some (ctx, Waiting c k) ->
  park (k resp (shared w)) = (t, s') ->
  exists roles',
    invariant svc fuel
      (mkWorld s' (replace_nth i (ctx, t) (acquires w)) (issued w ++ issue i t)
         (made w ++ new_handles (tenant svc ctx) (shared w) s'))
      roles'.
Proof.
  intros Hinv Hnth Hpark.
  destruct (inv_tasks _ _ _ _ Hinv i ctx _ Hnth) as (r & Hr & Hok).
  destruct r as [|a|a]; simpl in Hok.
  - (* the call looks its key up *)
    destruct Hok as [Hfresh Hnc]. unfold fresh in Hfresh.
    inversion Hfresh; subst c k. clear Hfresh.
    fold (tenant svc ctx) in Hpark.
    set (h := tenant svc ctx) in *.
    set (o := snd (getAdapterByContext svc ctx (adapterDef svc))) in *.
    destruct (Pool.get h (adapters (shared w))) as [item|] eqn:Hget.
    + rewrite (lookup_hit svc fuel h o _ item Hget) in Hpark.
      simpl in Hpark. inversion Hpark; subst t s'. clear Hpark.
      rewrite new_handles_none by reflexivity. rewrite (app_nil_r (made w)).
      exists (replace_nth i (Follower (adapter_of item)) roles).
      apply (preserve_resume_with svc fuel w roles i ctx Tick _ _ _ _ _ Hinv Hnth);
        simpl adapters; simpl nextAdapter.
      * apply incl_refl.
      * intros it Hit.
        destruct (pool_touch_in h _ item _ it Hget Hit) as (it0 & Hin & Hk & Ha).
        rewrite Hk, Ha. apply (inv_pool _ _ _ _ Hinv). exact Hin.
      * apply (inv_fresh _ _ _ _ Hinv).
      * apply (inv_made _ _ _ _ Hinv).
      * cbn [task_ok issue]. split; [|split; [reflexivity|]].
        -- destruct (pool_get_in _ _ _ Hget) as [Hin Hh]. fold h. rewrite <- Hh.
           apply (inv_pool _ _ _ _ Hinv). exact Hin.
        -- rewrite app_nil_r. exact Hnc.
      * intros a0 H; discriminate.
    + rewrite (lookup_miss svc fuel h o _ Hget) in Hpark.
      set (a := nextAdapter (shared w)) in *.
      set (s1 := mkState (Pool.set (mkItem h a (clock (shared w)))
                            (adapters (shared w)))
                   (cacheColumnName (shared w)) (clock (shared w)) (S a)
                   (emitted (shared w))) in *.
      pose proof (connect_and_return_rsat svc fuel a h o s1) as Hrsat.
      assert (Hnew : adapters s1 = adapters (shared w) ++ [mkItem h a (clock (shared w))]).
      { unfold s1. simpl. apply pool_set_new. exact Hget. }
      assert (Hf : frame s1 s' /\
                   task_ok svc fuel (made w ++ [(h, a)]) (issued w ++ issue i t)
                     i ctx t (Creator a)).
      { destruct (connect_and_return svc fuel a h o s1) as [x s2|c2 s2 k2];
          simpl in Hpark; inversion Hpark; subst t s'; clear Hpark.
        - split; [destruct x; simpl in Hrsat; tauto|].
          cbn [task_ok issue]. split; [|split].
          + apply in_or_app. right. left. reflexivity.
          + rewrite app_nil_r. intros c0 Hc0 Hcc. exfalso. apply Hnc.
            exists c0. auto.
          + destruct x as [a'| |]; auto. simpl in Hrsat. symmetry. apply Hrsat.
        - simpl in Hrsat. destruct Hrsat as (Hc2 & Hfr & Hk2). split; [exact Hfr|].
          cbn [task_ok issue]. split; [|split].
          + apply in_or_app. right. left. reflexivity.
          + intros c0 Hc0 Hcc. apply in_app_or in Hc0.
            destruct Hc0 as [Hc0|[Hc0|[]]].
            * exfalso. apply Hnc. exists c0. auto.
            * inversion Hc0; subst c0. destruct c2; try discriminate; exact Hc2.
          + exact Hk2. }
      destruct Hf as [[Hn Hp] Hok].
      assert (Hmade : new_handles h (shared w) s' = [(h, a)]).
      { unfold new_handles. rewrite Hn. unfold s1. simpl nextAdapter. fold a.
        replace (S a - a)%nat with 1%nat by lia. reflexivity. }
      rewrite Hmade.
      exists (replace_nth i (Creator a) roles).
      apply (preserve_resume_with svc fuel w roles i ctx Tick _ _ _ _ _ Hinv Hnth).
      * apply incl_appl. apply incl_refl.
      * intros it Hit. apply Hp in Hit. rewrite Hnew in Hit.
        apply in_app_or in Hit. apply in_or_app. destruct Hit as [Hit|[Hit|[]]].
        -- left. apply (inv_pool _ _ _ _ Hinv). exact Hit.
        -- right. subst it. left. reflexivity.
      * intros h' a' Hin. rewrite Hn. unfold s1. simpl nextAdapter.
        apply in_app_or in Hin. destruct Hin as [Hin|[Hin|[]]].
        -- apply (inv_fresh _ _ _ _ Hinv) in Hin. fold a in Hin. lia.
        -- inversion Hin; subst. lia.
      * rewrite map_app. apply NoDup_app.
        -- apply (inv_made _ _ _ _ Hinv).
        -- repeat constructor. intros [].
        -- intros x Hx [Hx'|[]]. simpl in Hx'. subst x.
           apply in_map_iff in Hx. destruct Hx as ([h' a'] & E & Hin).
           simpl in E. subst a'. apply (inv_fresh _ _ _ _ Hinv) in Hin.
           fold a in Hin. lia.
      * exact Hok.
      * intros a0 E. inversion E; subst a0. right. intros j Hj.
        assert (Hjl : (j < List.length (acquires w))%nat).
        { rewrite <- (inv_roles _ _ _ _ Hinv). apply nth_error_Some.
          rewrite Hj. discriminate. }
        destruct (nth_error (acquires w) j) as [[cj tj]|] eqn:Hnj;
          [|apply nth_error_None in Hnj; lia].
        destruct (inv_tasks _ _ _ _ Hinv j cj tj Hnj) as (rj & Hrj & Hokj).
        rewrite Hj in Hrj. inversion Hrj; subst rj. simpl in Hokj.
        destruct Hokj as (Hin & _). apply (inv_fresh _ _ _ _ Hinv) in Hin.
        fold a in Hin. lia.
  - (* the call that made the handle goes on connecting *)
    destruct Hok as (Hin & Hlogc & Hrsat).
    specialize (Hrsat resp (shared w)).
    exists (replace_nth i (Creator a) roles).
    assert (Hf : frame (shared w) s' /\
                 task_ok svc fuel (made w) (issued w ++ issue i t) i ctx t (Creator a)).
    { destruct (k resp (shared w)) as [x s1|c1 s1 k1]; simpl in Hpark;
        inversion Hpark; subst t s'; clear Hpark.
      - split; [destruct x; simpl in Hrsat; tauto|].
        cbn [task_ok issue]. split; [exact Hin|]. split.
        + rewrite app_nil_r. exact Hlogc.
        + destruct x as [a'| |]; auto. simpl in Hrsat. symmetry. apply Hrsat.
      - simpl in Hrsat. destruct Hrsat as (Hc1 & Hfr & Hk1). split; [exact Hfr|].
        cbn [task_ok issue]. split; [exact Hin|]. split.
        + intros c0 Hc0 Hcc. apply in_app_or in Hc0.
          destruct Hc0 as [Hc0|[Hc0|[]]]; [apply Hlogc; assumption|].
          inversion Hc0; subst c0. destruct c1; try discriminate; exact Hc1.
        + exact Hk1. }
    destruct Hf as [[Hn Hp] Hok].
    rewrite new_handles_none by exact Hn. rewrite (app_nil_r (made w)).
    apply (preserve_resume_with svc fuel w roles i ctx c k _ _ _ _ Hinv Hnth).
    + apply incl_refl.
    + intros it Hit. apply (inv_pool _ _ _ _ Hinv). apply Hp. exact Hit.
    + intros h' a' Hin'. rewrite Hn. apply (inv_fresh _ _ _ _ Hinv h'). exact Hin'.
    + apply (inv_made _ _ _ _ Hinv).
    + exact Hok.
    + intros a0 E. inversion E; subst a0. left. exact Hr.
  - destruct Hok as (_ & Ht & _). discriminate.
Qed.

End ResumeCases.

(** ** Every reachable world satisfies the invariant *)

Section Reachable.

Variable svc : Service.
Variable fuel : nat.

Lemma invariant_start s :
  adapters s = [] -> nextAdapter s = O ->
  invariant svc fuel (mkWorld s [] [] []) [].
Proof.
  intros Hp Hn. constructor; simpl; rewrite ?Hp; simpl.
  - reflexivity.
  - intros [|i]; discriminate.
  - intros [|i]; discriminate.
  - intros i c [].
  - intros it [].
  - intros k a [].
  - constructor.
Qed.

Lemma reachable_invariant w :
  reachable svc fuel w -> exists roles, invariant svc fuel w roles.
Proof.
  induction 1 as [s Hp Hn | w w' Hreach IH Hstep].
  - exists []. apply invariant_start; assumption.
  - destruct IH as (roles & Hinv).
    destruct Hstep as [w ctx t s' Hpark | w i ctx c k resp t s' Hnth Hpark | w t].
    + rewrite park_getAdapter in Hpark. inversion Hpark; subst t s'.
      exists (roles ++ [Fresh]). apply preserve_call; assumption.
    + apply (preserve_resume svc fuel w roles i ctx c k resp t s'); assumption.
    + exists roles. apply preserve_time; exact Hinv.
Qed.

End Reachable.

(** ** While the pool has room nothing is evicted *)

Section Roomy.

Variable svc : Service.
Variable fuel : nat.

(** A call that leaves the pool as it is from now on. *)
Definition idle (ctx : value) (t : task adapter) : Prop :=
  t = fresh svc fuel ctx \/
  match t with
  | Settled _ => True
  | Waiting c k =>
      forall resp s',
        rsat same_pool (fun _ => True) (fun _ => True) (k resp s') s'
  end.

Record unevicted (w : World) : Prop := mkUnevicted {
  (* every handle that was made is the entry of its key *)
  room_kept : forall k a, In (k, a) (made w) -> holds k a (shared w);
  room_keys : incl (map hash (adapters (shared w))) (tenants svc w);
  room_nodup : NoDup (map hash (adapters (shared w)));
  room_tasks :
    forall i ctx t, nth_error (acquires w) i = Some (ctx, t) -> idle ctx t
}.

Lemma nodup_length_incl (l l' : list string) :
  incl l l' ->
  (List.length (nodup string_dec l) <= List.length (nodup string_dec l'))%nat.
Proof.
  intros H. apply NoDup_incl_length; [apply NoDup_nodup|].
  intros x Hx. apply nodup_In. apply H. apply nodup_In in Hx. exact Hx.
Qed.

Lemma tenants_step w w' :
  step svc fuel w w' -> incl (tenants svc w) (tenants svc w').
Proof.
  intros H. destruct H as [w ctx t s' _ | w i ctx c k resp t s' Hnth _ | w t];
    unfold tenants; simpl acquires.
  - rewrite map_app. apply incl_appl. apply incl_refl.
  - rewrite (replace_nth_map (fun ct => tenant svc (fst ct)) (acquires w) i
               (ctx, t) (ctx, Waiting c k) Hnth eq_refl).
    apply incl_refl.
  - apply incl_refl.
Qed.

(** Room now is room before: the tenants only grow. *)
Lemma roomy_step w w' : step svc fuel w w' -> roomy svc w' -> roomy svc w.
Proof.
  intros Hs. unfold roomy. destruct (maximumAdapters svc) as [m|]; [|auto].
  intros [H|H]; [left; exact H|]. right.
  pose proof (nodup_length_incl _ _ (tenants_step _ _ Hs)). lia.
Qed.

Lemma unevicted_start s :
  adapters s = [] -> unevicted (mkWorld s [] [] []).
Proof.
  intros Hp. constructor; simpl; rewrite ?Hp; simpl.
  - intros k a [].
  - intros x [].
  - constructor.
  - intros [|i]; discriminate.
Qed.

Lemma idle_resumed (r : Res adapter) s t s' :
  rsat same_pool (fun _ => True) (fun _ => True) r s ->
  park r = (t, s') ->
  same_pool s s' /\ forall ctx, idle ctx t.
Proof.
  destruct r as [x s1|c1 s1 k1]; simpl; intros Hr Hp; inversion Hp; subst t s'.
  - split; [destruct x; tauto|]. intros ctx. right. exact Logic.I.
  - destruct Hr as (_ & Hs & Hk). split; [exact Hs|]. intros ctx. right. exact Hk.
Qed.

Lemma unevicted_step w w' :
  step svc fuel w w' -> roomy svc w' -> unevicted w -> unevicted w'.
Proof.
  intros Hstep Hroom Hinv.
  destruct Hstep as [w ctx t s' Hpark | w i ctx c k resp t s' Hnth Hpark | w t].
  - (* a new call *)
    rewrite park_getAdapter in Hpark. inversion Hpark; subst t s'.
    rewrite new_handles_none by reflexivity. rewrite (app_nil_r (made w)).
    constructor; simpl.
    + apply (room_kept _ Hinv).
    + unfold tenants. simpl. rewrite map_app. apply incl_appl.
      apply (room_keys _ Hinv).
    + apply (room_nodup _ Hinv).
    + intros i ctx' t Hi.
      destruct (Nat.lt_ge_cases i (List.length (acquires w))) as [Hlt|Hge].
      * rewrite nth_error_app1 in Hi by exact Hlt.
        apply (room_tasks _ Hinv i). exact Hi.
      * rewrite nth_error_app2 in Hi by exact Hge.
        destruct (i - List.length (acquires w))%nat as [|[|d]]; try discriminate.
        simpl in Hi. inversion Hi; subst. left. reflexivity.
  - (* a call is resumed *)
    assert (Hten : forall s1 log handles,
               tenants svc (mkWorld s1 (replace_nth i (ctx, t) (acquires w))
                              log handles)
               = tenants svc w).
    { intros s1 log handles. unfold tenants. simpl acquires.
      apply (replace_nth_map (fun ct => tenant svc (fst ct)) (acquires w) i
               (ctx, t) (ctx, Waiting c k) Hnth eq_refl). }
    assert (Htasks : forall s1 handles,
               (forall ctx', idle ctx' t) ->
               forall j cj tj,
                 nth_error (acquires (mkWorld s1 (replace_nth i (ctx, t) (acquires w))
                                        (issued w ++ issue i t) handles)) j
                 = Some (cj, tj) -> idle cj tj).
    { intros s1 handles Hq j cj tj Hj. simpl in Hj.
      destruct (Nat.eq_dec i j) as [<-|Hij].
      - rewrite (replace_nth_same _ _ _ _ Hnth) in Hj. inversion Hj; subst. apply Hq.
      - rewrite replace_nth_other in Hj by exact Hij.
        apply (room_tasks _ Hinv j). exact Hj. }
    destruct (room_tasks _ Hinv i ctx _ Hnth) as [Hfresh|Hquiet].
    + unfold fresh in Hfresh. inversion Hfresh; subst c k. clear Hfresh.
      fold (tenant svc ctx) in Hpark.
      set (h := tenant svc ctx) in *.
      set (o := snd (getAdapterByContext svc ctx (adapterDef svc))) in *.
      destruct (Pool.get h (adapters (shared w))) as [item|] eqn:Hget.
      * (* the key is in the pool *)
        rewrite (lookup_hit svc fuel h o _ item Hget) in Hpark.
        simpl in Hpark. inversion Hpark; subst t s'. clear Hpark.
        rewrite new_handles_none by reflexivity. rewrite (app_nil_r (made w)).
        destruct (pool_touch h _ item (clock (shared w)) Hget) as (Hh & Ha & Hg).
        constructor.
        -- intros k a Hin. unfold holds. simpl. rewrite Hg.
           apply (room_kept _ Hinv). exact Hin.
        -- rewrite Hten. simpl. rewrite Hh. apply (room_keys _ Hinv).
        -- simpl. rewrite Hh. apply (room_nodup _ Hinv).
        -- apply Htasks. intros ctx'. right. exact Logic.I.
      * (* the key is not in the pool *)
        rewrite (lookup_miss svc fuel h o _ Hget) in Hpark.
        set (a := nextAdapter (shared w)) in *.
        set (s1 := mkState (Pool.set (mkItem h a (clock (shared w)))
                              (adapters (shared w)))
                     (cacheColumnName (shared w)) (clock (shared w)) (S a)
                     (emitted (shared w))) in *.
        assert (Hnew : adapters s1 =
                       adapters (shared w) ++ [mkItem h a (clock (shared w))]).
        { unfold s1. simpl. apply pool_set_new. exact Hget. }
        assert (Hin : In h (tenants svc w)).
        { unfold tenants. apply nth_error_In in Hnth.
          apply (in_map (fun ct => tenant svc (fst ct))) in Hnth. exact Hnth. }
        assert (Hnd : NoDup (map hash (adapters (shared w)) ++ [h])).
        { apply NoDup_app.
          - apply (room_nodup _ Hinv).
          - repeat constructor. intros [].
          - intros x Hx [Hx'|[]]. subst x.
            apply (pool_get_none _ _ Hget). exact Hx. }
        assert (Hfits : match maximumAdapters svc with
                        | None => True
                        | Some maximum =>
                            maximum < 1 \/
                            Z.of_nat (List.length (adapters s1)) <= maximum
                        end).
        { rewrite Hnew, length_app. simpl.
          unfold roomy in Hroom. rewrite Hten in Hroom.
          destruct (maximumAdapters svc) as [m|]; [|exact Logic.I].
          destruct Hroom as [H|H]; [left; exact H|]. right.
          assert (Hl : (List.length (map hash (adapters (shared w)) ++ [h]) <=
                        List.length (nodup string_dec (tenants svc w)))%nat).
          { apply NoDup_incl_length; [exact Hnd|].
            intros x Hx. apply nodup_In. apply in_app_or in Hx.
            destruct Hx as [Hx|[Hx|[]]].
            - apply (room_keys _ Hinv). exact Hx.
            - subst x. exact Hin. }
          rewrite length_app, length_map in Hl. simpl in Hl. lia. }
        destruct (idle_resumed _ s1 t s'
                    (connect_and_return_idle svc fuel a h o s1 Hfits) Hpark)
          as [[Hp Hn] Hq].
        assert (Hmade : new_handles h (shared w) s' = [(h, a)]).
        { unfold new_handles. rewrite Hn. unfold s1. simpl nextAdapter. fold a.
          replace (S a - a)%nat with 1%nat by lia. reflexivity. }
        rewrite Hmade.
        constructor.
        -- intros k a' Hk. unfold holds. simpl. rewrite Hp, Hnew.
           apply in_app_or in Hk. destruct Hk as [Hk|[Hk|[]]].
           ++ pose proof (room_kept _ Hinv k a' Hk) as Hh. unfold holds in Hh.
              rewrite pool_get_app_other; [exact Hh|]. simpl.
              intros E. subst k. rewrite Hget in Hh. discriminate.
           ++ inversion Hk; subst k a'.
              pose proof (pool_get_app_new (adapters (shared w))
                            (mkItem h a (clock (shared w))) Hget) as Hg.
              cbn [hash] in Hg. rewrite Hg. reflexivity.
        -- rewrite Hten. simpl. rewrite Hp, Hnew, map_app. simpl.
           intros x Hx. apply in_app_or in Hx. destruct Hx as [Hx|[Hx|[]]].
           ++ apply (room_keys _ Hinv). exact Hx.
           ++ subst x. exact Hin.
        -- simpl. rewrite Hp, Hnew, map_app. exact Hnd.
        -- apply Htasks. exact Hq.
    + (* the call goes on connecting *)
      destruct (idle_resumed _ (shared w) t s' (Hquiet resp (shared w)) Hpark)
        as [[Hp Hn] Hq].
      rewrite new_handles_none by exact Hn. rewrite (app_nil_r (made w)).
      constructor.
      * intros k0 a Hin. unfold holds. simpl. rewrite Hp.
        apply (room_kept _ Hinv). exact Hin.
      * rewrite Hten. simpl. rewrite Hp. apply (room_keys _ Hinv).
      * simpl. rewrite Hp. apply (room_nodup _ Hinv).
      * apply Htasks. exact Hq.
  - (* the clock is read anew *)
    constructor; simpl.
    + apply (room_kept _ Hinv).
    + apply (room_keys _ Hinv).
    + apply (room_nodup _ Hinv).
    + apply (room_tasks _ Hinv).
Qed.

(** While the pool has room for every tenant that has called, every handle
    that was made is in the pool. *)
Lemma roomy_unevicted w :
  reachable svc fuel w -> roomy svc w -> unevicted w.
Proof.
  induction 1 as [s Hp Hn | w w' Hreach IH Hstep]; intros Hroom.
  - apply unevicted_start. exact Hp.
  - apply (unevicted_step w w' Hstep Hroom). apply IH.
    exact (roomy_step _ _ Hstep Hroom).
Qed.

End Roomy.

(** ** A schedule of calls and answers *)

Inductive move : Type :=
| Call (ctx : value)
| Resume (i : nat) (resp : response)
| Pass (t : Z).

Section Schedule.

Variable svc : Service.
Variable fuel : nat.

Definition play1 (mv : move) (w : World) : option World :=
  match mv with
  | Call ctx =>
      let (t, s') := park (getAdapter svc fuel ctx (shared w)) in
      Some (mkWorld s' (acquires w ++ [(ctx, t)])
              (issued w ++ issue (List.length (acquires w)) t)
              (made w ++ new_handles (tenant svc ctx) (shared w) s'))
  | Resume i resp =>
      match nth_error (acquires w) i with
      | Some (ctx, Waiting c k) =>
          let (t, s') := park (k resp (shared w)) in
          Some (mkWorld s' (replace_nth i (ctx, t) (acquires w))
                  (issued w ++ issue i t)
                  (made w ++ new_handles (tenant svc ctx) (shared w) s'))
      | _ => None
      end
  | Pass t =>
      Some (mkWorld (with_now t (shared w)) (acquires w) (issued w) (made w))
  end.

Fixpoint play (mvs : list move) (w : World) : option World :=
  match mvs with
  | [] => Some w
  | mv :: mvs' =>
      match play1 mv w with
      | Some w' => play mvs' w'
      | None => None
      end
  end.

Lemma play1_step mv w w' : play1 mv w = Some w' -> step svc fuel w w'.
Proof.
  destruct mv as [ctx|i resp|t]; simpl.
  - destruct (park (getAdapter svc fuel ctx (shared w))) as [t s'] eqn:E.
    intros H; inversion H; subst. apply step_call. exact E.
  - destruct (nth_error (acquires w) i) as [[ctx [c k|r]]|] eqn:E; try discriminate.
    destruct (park (k resp (shared w))) as [t s'] eqn:E'.
    intros H; inversion H; subst. eapply step_resume; eassumption.
  - intros H; inversion H; subst. apply step_time.
Qed.

Lemma play_reachable mvs : forall w w',
  reachable svc fuel w -> play mvs w = Some w' -> reachable svc fuel w'.
Proof.
  induction mvs as [|mv mvs IH]; simpl; intros w w' Hw.
  - intros H; inversion H; subst. exact Hw.
  - destruct (play1 mv w) as [w1|] eqn:E; [|discriminate].
    apply IH. eapply reach_step; [exact Hw | apply (play1_step mv); exact E].
Qed.

End Schedule.

(** ** A call that is answered while the others wait *)

(** The answer of a call that succeeds. *)
Definition yes : response := Resolved VUndefined.

(** A method resumed [n] times at most, each time with [yes] and in the
    state it has left: no other call runs in between. *)
Fixpoint drive {A} (n : nat) (r : Res A) {struct r}
  : option (result A * State) :=
  match r with
  | Done x s => Some (x, s)
  | Await c s k =>
      match n with
      | O => None
      | S n' => drive n' (k yes s)
      end
  end.

(** Answered with [yes], the method returns, whatever state it starts in. *)
Definition Lands {A} (m : M A) : Prop :=
  forall s, exists n a s', drive n (m s) = Some (Ok a, s').

Section Landing.

Lemma drive_more {A} m (r : Res A) : forall n z,
  drive n r = Some z -> drive (n + m) r = Some z.
Proof.
  induction r as [x s | c s k IH]; intros n z; simpl; [auto|].
  destruct n as [|n]; [discriminate|]. simpl. apply IH.
Qed.

Lemma drive_bindR {A B} (r : Res A) (f : A -> M B) : forall n m a s z,
  drive n r = Some (Ok a, s) -> drive m (f a s) = Some z ->
  drive (n + m) (bindR r f) = Some z.
Proof.
  induction r as [x s0 | c s0 k IH]; intros n m a s z; simpl.
  - intros H; inversion H; subst. simpl. intros Hf.
    rewrite Nat.add_comm. apply drive_more. exact Hf.
  - destruct n as [|n]; [discriminate|]. simpl. apply IH.
Qed.

Lemma drive_catchR {A} (r : Res A) (h : error -> M A) : forall n a s,
  drive n r = Some (Ok a, s) -> drive n (catchR r h) = Some (Ok a, s).
Proof.
  induction r as [x s0 | c s0 k IH]; intros n a s; simpl.
  - intros H; inversion H; subst. reflexivity.
  - destruct n as [|n]; [discriminate|]. apply IH.
Qed.

Lemma Lands_bind {A B} (m : M A) (f : A -> M B) :
  Lands m -> (forall a, Lands (f a)) -> Lands (bind m f).
Proof.
  intros Hm Hf s. destruct (Hm s) as (n & a & s1 & Hn).
  destruct (Hf a s1) as (n' & b & s2 & Hn').
  exists (n + n')%nat, b, s2. unfold bind. eapply drive_bindR; eassumption.
Qed.

Lemma Lands_now {A} (m : M A) :
  (forall s, exists a s', m s = Done (Ok a) s') -> Lands m.
Proof.
  intros H s. destruct (H s) as (a & s' & E). exists O, a, s'.
  rewrite E. reflexivity.
Qed.

Lemma Lands_ret {A} (a : A) : Lands (ret a).
Proof. intros s. exists O, a, s. reflexivity. Qed.

Lemma Lands_await (c : call) : Lands (await c).
Proof. intros s. exists 1%nat, VUndefined, s. reflexivity. Qed.

Lemma Lands_tick : Lands tick.
Proof. intros s. exists 1%nat, tt, s. reflexivity. Qed.

Lemma Lands_await_ {A} (m : M A) : Lands m -> Lands (await_ m).
Proof.
  intros Hm. unfold await_. apply Lands_bind; [exact Hm|].
  intros a. apply Lands_bind; [apply Lands_tick|]. intros _. apply Lands_ret.
Qed.

Lemma Lands_try_catch {A} (m : M A) (h : error -> M A) :
  Lands m -> Lands (try_catch m h).
Proof.
  intros Hm s. destruct (Hm s) as (n & a & s' & Hn).
  exists n, a, s'. unfold try_catch. apply drive_catchR. exact Hn.
Qed.

Lemma Lands_forEach {A} (l : list A) (f : A -> M unit) :
  (forall x, Lands (f x)) -> Lands (forEach l f).
Proof.
  intros Hf. induction l as [|x l IH]; simpl.
  - apply Lands_ret.
  - apply Lands_bind; [apply Hf|]. intros _. exact IH.
Qed.

Variable svc : Service.
Variable fuel : nat.

Lemma disconnect_lands a h : Lands (_disconnect svc a h).
Proof.
  unfold _disconnect. apply Lands_bind; [apply Lands_now; intros s; eexists _, _; reflexivity|].
  intros s. apply Lands_bind.
  - destruct (Pool.find_adapter a (adapters s)) as [item|].
    + apply Lands_now. intros s1. eexists _, _. reflexivity.
    + apply Lands_ret.
  - intros _. apply Lands_bind.
    + destruct (hasDisconnect svc a); [|apply Lands_ret].
      apply Lands_bind; [apply Lands_await|]. intros _. apply Lands_ret.
    + intros _. destruct (has_hook svc "adapterDisconnected"); [|apply Lands_ret].
      apply Lands_bind; [apply Lands_await|]. intros _. apply Lands_ret.
Qed.

Lemma maintenance_lands : Lands (maintenanceAdapters svc).
Proof.
  unfold maintenanceAdapters.
  destruct (maximumAdapters svc) as [maximum|]; [|apply Lands_ret].
  destruct (maximum <? 1); [apply Lands_ret|].
  apply Lands_bind; [apply Lands_now; intros s; eexists _, _; reflexivity|].
  intros s. cbv zeta.
  destruct (0 <? Z.of_nat (List.length (adapters s)) - maximum); [|apply Lands_ret].
  apply Lands_forEach. intros it. apply Lands_await_. apply disconnect_lands.
Qed.

(** A connection that succeeds is not tried again. *)
Lemma connect_lands a h o : (0 < fuel)%nat -> Lands (_connect svc fuel a h o).
Proof.
  unfold _connect. destruct fuel as [|n]; [lia|]. intros _. simpl.
  apply Lands_try_catch. apply Lands_bind; [apply Lands_await|].
  intros _. destruct (has_hook svc "adapterConnected"); [|apply Lands_ret].
  apply Lands_bind; [apply Lands_await|]. intros _. apply Lands_ret.
Qed.

(** [getAdapter] waits for no other call: with its own calls answered it
    returns a handle, whatever the pool holds. *)
Lemma getAdapter_lands ctx : (0 < fuel)%nat -> Lands (getAdapter svc fuel ctx).
Proof.
  intros Hfuel. unfold getAdapter.
  destruct (getAdapterByContext svc ctx (adapterDef svc)) as [h o].
  apply Lands_bind; [apply Lands_tick|]. intros _.
  apply Lands_bind; [apply Lands_now; intros s; eexists _, _; reflexivity|].
  intros s. destruct (Pool.get h (adapters s)) as [item|].
  - apply Lands_bind; [apply Lands_now; intros s1; eexists _, _; reflexivity|].
    intros t. apply Lands_bind; [apply Lands_now; intros s1; eexists _, _; reflexivity|].
    intros _. apply Lands_ret.
  - apply Lands_bind; [apply Lands_now; intros s1; eexists _, _; reflexivity|].
    intros a. apply Lands_bind; [apply Lands_now; intros s1; eexists _, _; reflexivity|].
    intros t. apply Lands_bind; [apply Lands_now; intros s1; eexists _, _; reflexivity|].
    intros _. apply Lands_bind; [apply Lands_await_; apply maintenance_lands|].
    intros _. apply Lands_bind; [apply Lands_await_; apply connect_lands; exact Hfuel|].
    intros _. apply Lands_ret.
Qed.

End Landing.

(** ** What the callers observe *)

(** Call [i], made for [ctx], has returned the handle [a]. *)
Definition received (w : World) (i : nat) (ctx : value) (a : adapter) : Prop :=
  nth_error (acquires w) i = Some (ctx, Settled (Ok a)).

(** Call [i], made for [ctx], has asked the handle [a] to connect. *)
Definition connected_by (w : World) (i : nat) (ctx : value) (a : adapter) : Prop :=
  (exists t, nth_error (acquires w) i = Some (ctx, t)) /\
  exists args, In (i, AdapterCall a connect args) (issued w).

(** No entry of the key [k] has been evicted: every handle that was made
    for [k] is the one the pool holds under [k]. *)
Definition retained (k : string) (w : World) : Prop :=
  forall a, In (k, a) (made w) -> holds k a (shared w).

(** The calls for the key [k] are atomic. *)
Record atomic_for (svc : Service) (k : string) (w : World) : Prop := mkAtomic {
  (* one call connects, and one handle *)
  one_sequence :
    forall i j ci cj a a',
      connected_by w i ci a -> connected_by w j cj a' ->
      tenant svc ci = k -> tenant svc cj = k -> i = j /\ a = a';
  (* every caller receives the same handle *)
  one_handle :
    forall i j ci cj a a',
      received w i ci a -> received w j cj a' ->
      tenant svc ci = k -> tenant svc cj = k -> a = a';
  (* and it is the handle that was asked to connect *)
  own_handle :
    forall i j ci cj a a',
      connected_by w i ci a -> received w j cj a' ->
      tenant svc ci = k -> tenant svc cj = k -> a = a'
}.

(** The calls for two keys have nothing in common, and a call waits for no
    other. *)
Record independent (svc : Service) (fuel : nat) (w : World) : Prop :=
  mkIndependent {
  (* two keys: two handles, each with its own connect sequence *)
  apart :
    forall i j ci cj a a',
      received w i ci a -> received w j cj a' ->
      tenant svc ci <> tenant svc cj -> a <> a';
  apart_sequences :
    forall i j ci cj a a',
      connected_by w i ci a -> connected_by w j cj a' ->
      tenant svc ci <> tenant svc cj -> i <> j /\ a <> a';
  (* a new call, for any key, returns a handle when its own calls are
     answered, while every call in progress stays where it is *)
  alone :
    forall ctx,
      exists n w' a,
        play svc fuel
          (Call ctx :: repeat (Resume (List.length (acquires w)) yes) n) w =
        Some w' /\
        received w' (List.length (acquires w)) ctx a /\
        forall j, (j < List.length (acquires w))%nat ->
                  nth_error (acquires w') j = nth_error (acquires w) j
}.

Section Observed.

Variable svc : Service.
Variable fuel : nat.

Lemma holds_same k a a' s : holds k a s -> holds k a' s -> a = a'.
Proof. unfold holds. intros H H'. rewrite H in H'. inversion H'. reflexivity. Qed.

(** A handle is made for one key. *)
Lemma made_apart (handles : list (string * adapter)) k k' a :
  NoDup (map snd handles) -> In (k, a) handles -> In (k', a) handles -> k = k'.
Proof.
  induction handles as [|[k0 a0] l IH]; simpl; [intros _ []|].
  intros Hnd. inversion Hnd as [|x l' Hnot Hnd']; subst.
  intros [E|Hin] [E'|Hin'].
  - congruence.
  - inversion E; subst. exfalso. apply Hnot.
    apply (in_map snd) in Hin'. exact Hin'.
  - inversion E'; subst. exfalso. apply Hnot.
    apply (in_map snd) in Hin. exact Hin.
  - apply IH; assumption.
Qed.

(** A call alone: resumed with [yes] until it returns. *)
Lemma drive_play n : forall (r : Res adapter) w i ctx t a s1,
  nth_error (acquires w) i = Some (ctx, t) ->
  park r = (t, shared w) ->
  drive n r = Some (Ok a, s1) ->
  exists m w',
    play svc fuel (repeat (Resume i yes) m) w = Some w' /\
    received w' i ctx a /\
    forall j, j <> i -> nth_error (acquires w') j = nth_error (acquires w) j.
Proof.
  induction n as [|n IH]; intros r w i ctx t a s1 Hnth Hpark Hdrive.
  - destruct r as [x s|c s k]; simpl in Hdrive; [|discriminate].
    inversion Hdrive; subst x s. simpl in Hpark. inversion Hpark; subst t.
    exists O, w. simpl. repeat split; auto.
  - destruct r as [x s|c s k]; simpl in Hdrive.
    + inversion Hdrive; subst x s. simpl in Hpark. inversion Hpark; subst t.
      exists O, w. simpl. repeat split; auto.
    + simpl in Hpark. inversion Hpark as [[Ht Hs]]. subst t s.
      destruct (park (k yes (shared w))) as [t1 s2] eqn:Hp1.
      set (w1 := mkWorld s2 (replace_nth i (ctx, t1) (acquires w))
                   (issued w ++ issue i t1)
                   (made w ++ new_handles (tenant svc ctx) (shared w) s2)).
      destruct (IH (k yes (shared w)) w1 i ctx t1 a s1)
        as (m & w' & Hplay & Hrec & Hoth).
      * simpl. eapply replace_nth_same. exact Hnth.
      * exact Hp1.
      * exact Hdrive.
      * exists (S m), w'. split; [|split; [exact Hrec|]].
        -- simpl. rewrite Hnth, Hp1. exact Hplay.
        -- intros j Hj. rewrite (Hoth j Hj). simpl.
           apply replace_nth_other. congruence.
Qed.

Variable w : World.
Variable roles : list role.
Hypothesis Hinv : invariant svc fuel w roles.

Lemma received_made i ctx a :
  received w i ctx a -> In (tenant svc ctx, a) (made w).
Proof.
  intros H. destruct (inv_tasks _ _ _ _ Hinv i ctx _ H) as (r & _ & Hok).
  destruct r as [|a0|a0]; simpl in Hok.
  - destruct Hok as [Hf _]. discriminate.
  - destruct Hok as (Hh & _ & E). subst a0. exact Hh.
  - destruct Hok as (Hh & E & _). inversion E; subst. exact Hh.
Qed.

Lemma connected_creator i ctx a :
  connected_by w i ctx a ->
  nth_error roles i = Some (Creator a) /\ In (tenant svc ctx, a) (made w).
Proof.
  intros [[t Hnth] [args Hin]].
  destruct (inv_tasks _ _ _ _ Hinv i ctx t Hnth) as (r & Hr & Hok).
  destruct r as [|a0|a0]; simpl in Hok.
  - destruct Hok as [_ Hn]. exfalso. apply Hn. eexists. split; [exact Hin | reflexivity].
  - destruct Hok as (Hh & Hc & _).
    pose proof (Hc _ Hin eq_refl) as E. simpl in E. subst a0. auto.
  - destruct Hok as (_ & _ & Hn). exfalso. apply Hn.
    eexists. split; [exact Hin | reflexivity].
Qed.

Lemma invariant_atomic k : retained k w -> atomic_for svc k w.
Proof.
  intros Hkept. constructor.
  - intros i j ci cj a a' Hi Hj Hki Hkj.
    destruct (connected_creator _ _ _ Hi) as [Hri Hmi].
    destruct (connected_creator _ _ _ Hj) as [Hrj Hmj].
    rewrite Hki in Hmi. rewrite Hkj in Hmj.
    assert (E : a = a') by (eapply holds_same; apply Hkept; eassumption).
    subst a'. split; [|reflexivity].
    eapply (inv_creators _ _ _ _ Hinv); eassumption.
  - intros i j ci cj a a' Hi Hj Hki Hkj.
    apply received_made in Hi. apply received_made in Hj.
    rewrite Hki in Hi. rewrite Hkj in Hj.
    eapply holds_same; apply Hkept; eassumption.
  - intros i j ci cj a a' Hi Hj Hki Hkj.
    destruct (connected_creator _ _ _ Hi) as [_ Hmi].
    apply received_made in Hj.
    rewrite Hki in Hmi. rewrite Hkj in Hj.
    eapply holds_same; apply Hkept; eassumption.
Qed.

Lemma invariant_independent : (0 < fuel)%nat -> independent svc fuel w.
Proof.
  intros Hfuel. constructor.
  - intros i j ci cj a a' Hi Hj Hk E. subst a'.
    apply received_made in Hi. apply received_made in Hj.
    apply Hk. eapply made_apart; [apply (inv_made _ _ _ _ Hinv)| |]; eassumption.
  - intros i j ci cj a a' Hi Hj Hk.
    destruct (connected_creator _ _ _ Hi) as [Hri Hmi].
    destruct (connected_creator _ _ _ Hj) as [Hrj Hmj].
    assert (Ha : a <> a').
    { intros E. subst a'. apply Hk.
      eapply made_apart; [apply (inv_made _ _ _ _ Hinv)| |]; eassumption. }
    split; [|exact Ha]. intros E. subst j. rewrite Hri in Hrj.
    inversion Hrj. contradiction.
  - intros ctx.
    destruct (getAdapter_lands svc fuel ctx Hfuel (shared w)) as (n & a & s1 & Hn).
    set (w0 := mkWorld (shared w) (acquires w ++ [(ctx, fresh svc fuel ctx)])
                 (issued w ++ issue (List.length (acquires w)) (fresh svc fuel ctx))
                 (made w ++ new_handles (tenant svc ctx) (shared w) (shared w))).
    destruct (drive_play n (getAdapter svc fuel ctx (shared w)) w0
                (List.length (acquires w)) ctx (fresh svc fuel ctx) a s1)
      as (m & w' & Hplay & Hrec & Hoth).
    + simpl. rewrite nth_error_app2 by lia. rewrite Nat.sub_diag. reflexivity.
    + apply park_getAdapter.
    + exact Hn.
    + exists m, w', a. split; [|split; [exact Hrec|]].
      * simpl. rewrite park_getAdapter. exact Hplay.
      * intros j Hj. rewrite Hoth by lia. simpl.
        apply nth_error_app1. exact Hj.
Qed.

End Observed.


(** ** [getAdapter] for a key that is not in the pool *)

(** The state in which the maintenance pass starts: the new handle is in
    the pool. *)
Definition entered (h : string) (s : State) : State :=
  mkState (Pool.set (mkItem h (nextAdapter s) (clock s)) (adapters s))
          (cacheColumnName s) (clock s) (S (nextAdapter s)) (emitted s).

(** [getAdapter] returns the handle when [_connect] resolves; it fails, or
    stays pending, as [_connect] does. *)
Definition acquired {A} (a : A) (o : outcome unit) : outcome A :=
  match o with
  | Finished (Ok _) s rs tr => Finished (Ok a) s rs tr
  | Finished (Err e) s rs tr => Finished (Err e) s rs tr
  | Finished OutOfFuel s rs tr => Finished OutOfFuel s rs tr
  | Suspended c s tr => Suspended c s tr
  end.

Lemma getAdapter_miss_run svc fuel ctx s rs :
  Pool.get (tenant svc ctx) (adapters s) = None ->
  exec (getAdapter svc fuel ctx) s rs =
  match run (maintenanceAdapters svc (entered (tenant svc ctx) s)) rs [] with
  | Finished (Ok _) s1 rs1 tr1 =>
      acquired (nextAdapter s)
        (run (_connect svc fuel (nextAdapter s) (tenant svc ctx)
                (snd (getAdapterByContext svc ctx (adapterDef svc))) s1) rs1 tr1)
  | Finished (Err e) s1 rs1 tr1 => Finished (Err e) s1 rs1 tr1
  | Finished OutOfFuel s1 rs1 tr1 => Finished OutOfFuel s1 rs1 tr1
  | Suspended c s1 tr1 => Suspended c s1 tr1
  end.
Proof.
  unfold exec, getAdapter, tenant.
  destruct (getAdapterByContext svc ctx (adapterDef svc)) as [h o].
  cbn [fst snd]. intros Hget.
  rewrite run_bind, run_tick. rewrite run_bind, run_get_state. rewrite Hget.
  rewrite run_bind.
  change (run (Adapters_resolve o s) rs [])
    with (Finished (Ok (nextAdapter s))
            (mkState (adapters s) (cacheColumnName s) (clock s)
                     (S (nextAdapter s)) (emitted s)) rs []).
  cbv beta iota.
  rewrite run_bind.
  match goal with
  | |- context [run (Date_now ?s1) rs []] =>
      change (run (Date_now s1) rs []) with (Finished (Ok (clock s)) s1 rs [])
  end.
  cbv beta iota.
  rewrite run_bind, run_modify.
  change (with_adapters _ _) with (entered h s).
  rewrite run_bind, run_await_.
  destruct (run (maintenanceAdapters svc (entered h s)) rs [])
    as [[[]|e|] s1 rs1 tr1|c s1 tr1]; try reflexivity.
  rewrite run_bind, run_await_.
  destruct (run (_connect svc fuel (nextAdapter s) h o s1) rs1 tr1)
    as [[[]|e|] s2 rs2 tr2|c s2 tr2]; reflexivity.
Qed.

(** C6: [getAdapter] for a key that is not in the pool, once the
    maintenance pass is over.  When a connection attempt fails and
    [autoReconnect] is off, the call is rejected with the error of that
    first failure.  With [autoReconnect] on, after any number of failed
    attempts the next one is made 1000 ms after the last, always the same
    interval; the call stays pending while the attempts fail and returns
    the handle at the first that succeeds, after as many waits as there
    were failures. *)
Theorem acquire_retries_until_success :
  forall (svc : Service) (ctx : value) (s s1 : State) (fs : list failure)
         (n : nat) (answers rs : list response) (tr1 : trace),
    let a := nextAdapter s in
    let h := tenant svc ctx in
    let o := snd (getAdapterByContext svc ctx (adapterDef svc)) in
    let after_maintenance rest :=
      run (maintenanceAdapters svc (entered h s)) answers [] =
      Finished (Ok tt) s1 rest tr1 in
    Pool.get h (adapters s) = None ->
    Forall (possible svc) fs ->
    (List.length fs < n)%nat ->
    (autoReconnect svc = false ->
     forall f, possible svc f ->
       after_maintenance (failed_answers f ++ rs) ->
       exec (getAdapter svc n ctx) s answers =
       Finished (Err (failure_error f)) s1 rs (tr1 ++ failed_trace a h o f) /\
       waits (failed_trace a h o f) = []) /\
    (autoReconnect svc = true ->
     (forall v hv,
        after_maintenance (retry_answers fs ++ success_answers svc v hv ++ rs) ->
        exec (getAdapter svc n ctx) s answers =
        Finished (Ok a) (Nat.iter (List.length fs) (after (Timeout 1000)) s1) rs
                 (tr1 ++ retry_trace a h o fs ++ success_trace svc a h o v hv) /\
        waits (retry_trace a h o fs ++ success_trace svc a h o v hv) =
        repeat 1000 (List.length fs) /\
        attempts (retry_trace a h o fs ++ success_trace svc a h o v hv) =
        S (List.length fs)) /\
     (after_maintenance (retry_answers fs) ->
      exec (getAdapter svc n ctx) s answers =
      Suspended (AdapterCall a connect [])
                (Nat.iter (List.length fs) (after (Timeout 1000)) s1)
                (tr1 ++ retry_trace a h o fs))).
Proof.
  intros svc ctx s s1 fs n answers rs tr1 a h o after_maintenance Hget Hfs Hn.
  unfold after_maintenance.
  pose proof (getAdapter_miss_run svc n ctx s answers Hget) as Hrun.
  fold h o a in Hrun.
  split.
  - intros Hoff f Hf Hm. rewrite Hm in Hrun.
    destruct (connect_retries svc a h o s1 fs n rs tr1 Hfs Hn) as [Hfail _].
    destruct (Hfail Hoff f Hf) as [Hc Hw].
    rewrite Hc in Hrun. split; [exact Hrun | exact Hw].
  - intros Hon. split.
    + intros v hv Hm. rewrite Hm in Hrun.
      destruct (connect_retries svc a h o s1 fs n rs tr1 Hfs Hn) as [_ Hretry].
      destruct (Hretry Hon) as [Hok _].
      destruct (Hok v hv) as (Hc & Hw & Ha).
      rewrite Hc in Hrun. split; [exact Hrun | split; [exact Hw | exact Ha]].
    + intros Hm. rewrite Hm in Hrun.
      destruct (connect_retries svc a h o s1 fs n rs tr1 Hfs Hn) as [_ Hretry].
      destruct (Hretry Hon) as [_ Hc].
      rewrite Hc in Hrun. exact Hrun.
Qed.

(** * A service to run the methods on *)

Definition s0 : State := mkState [] [] 1000 0 [].
Definition idF : Field := mkField "id" "_id" true.

(** One adapter per tenant: the key is the [tenant] of the context. *)
Definition byTenant (ctx adapterDef : value) : string * value :=
  match ctx with
  | VObj o =>
      match Obj.get "tenant" o with
      | VStr t => (t, adapterDef)
      | _ => ("default", adapterDef)
      end
  | _ => ("default", adapterDef)
  end.

(** The members of [Object.prototype] as [settings.scopes[name]] finds them
    and [_applyScopes] calls them: on the service [this], whose own
    properties are [own], with the query and the context. *)
Definition Object_prototype (this : value) (own : list string)
  : list (string * Scope) :=
  [("constructor", FunctionScope (fun query _ => Returns (toObject query)));
   ("toString", FunctionScope (fun _ _ => Returns (VStr "[object Object]")));
   ("toLocaleString",
    FunctionScope (fun _ _ => Returns (VStr "[object Object]")));
   ("valueOf", FunctionScope (fun _ _ => Returns this));
   ("hasOwnProperty",
    FunctionScope (fun query _ =>
                     Returns (VBool (member (toPropertyKey query) own))));
   ("isPrototypeOf", FunctionScope (fun _ _ => Returns (VBool false)));
   ("propertyIsEnumerable",
    FunctionScope (fun query _ =>
                     Returns (VBool (member (toPropertyKey query) own))));
   ("__defineGetter__",
    FunctionScope (fun _ _ =>
      Throws (TypeError "Object.prototype.__defineGetter__: Expecting function")));
   ("__defineSetter__",
    FunctionScope (fun _ _ =>
      Throws (TypeError "Object.prototype.__defineSetter__: Expecting function")));
   ("__lookupGetter__", FunctionScope (fun _ _ => Returns VUndefined));
   ("__lookupSetter__", FunctionScope (fun _ _ => Returns VUndefined));
   ("__proto__", StaticScope [])].

Definition posts (maximum : Z) (cache : option CacheOpts) : Service :=
  mkService "posts" (VStr "NeDB") (Some maximum) true
    cache (VStr "broadcast")
    (Some ["onlyActive"]) [("onlyActive", StaticScope [("active", VBool true)])]
    (Object_prototype (VInstance "[object Object]" [("name", VStr "posts")])
       ["name"; "version"; "settings"; "metadata"; "schema"; "broker";
        "logger"; "actions"; "events"; "adapters"])
    idF [idF; mkField "fullName" "full_name" false; mkField "address" "addr" false]
    false [] default_encodeID default_decodeID byTenant
    (fun _ => true) (fun _ => VBool true).

Definition example : Service := posts 2 None.

(** The same service with room for one adapter only. *)
Definition crowded : Service := posts 1 None.

(** The same service with the cache on. *)
Definition cached : Service :=
  posts 2 (Some (mkCacheOpts true VUndefined (VStr "broadcast"))).

Definition forTenant (t : string) : value := VObj [("tenant", VStr t)].
Definition start : World := mkWorld s0 [] [] [].

Definition outcome_of (mvs : list move) (svc : Service) : World :=
  match play svc 3 mvs start with
  | Some w => w
  | None => start
  end.

Lemma outcome_reachable svc mvs :
  play svc 3 mvs start <> None -> reachable svc 3 (outcome_of mvs svc).
Proof.
  unfold outcome_of. destruct (play svc 3 mvs start) as [w|] eqn:E; [|congruence].
  intros _. apply (play_reachable svc 3 mvs start w); [|exact E].
  apply reach_start; reflexivity.
Defined.

(** A pool with one place.  Tenants [a] and [b] have their handles, each
    taking the place of the one before; then two calls for tenant [c] are
    interleaved: the first makes a handle, and closes the one of [b], the
    second finds the new handle and returns it at once.  The pool has no
    room for the three tenants, and the calls for [c] are atomic. *)
Definition sharing : list move :=
  [Call (forTenant "a"); Resume 0 yes; Resume 0 yes; Resume 0 yes; Resume 0 yes;
   Pass 2000;
   Call (forTenant "b"); Resume 1 yes; Resume 1 yes; Resume 1 yes; Resume 1 yes;
   Resume 1 yes; Resume 1 yes;
   Pass 3000;
   Call (forTenant "c"); Call (forTenant "c"); Resume 2 yes; Resume 3 yes;
   Resume 2 yes; Resume 2 yes; Resume 2 yes; Resume 2 yes; Resume 2 yes].


(** A call for tenant [a] is connecting when a call for tenant [b] takes
    the only place of the pool; the next call for [a] makes a second handle
    and connects it. *)
Definition evicting : list move :=
  [Call (forTenant "a"); Resume 0 yes; Resume 0 yes; Pass 2000;
   Call (forTenant "b"); Resume 1 yes; Resume 1 yes; Resume 1 yes; Resume 1 yes;
   Call (forTenant "a"); Resume 2 yes; Resume 2 yes; Resume 2 yes; Resume 2 yes].


(** C4: the keys of a plain object nested in a query are not translated:
    [_queryFieldNameConversion] looks for a plain object in the result it
    is building, under the column name, where the query's value under the
    field name was meant.  The sort and search fields are translated one by
    one and keep a leading ["-"]. *)
Theorem nested_query_keys_left_untranslated :
  exec (paramsFieldNameConversion example
          [("query", VObj [("address", VObj [("fullName", VStr "x")])]);
           ("sort", VArr [VStr "-fullName"; VStr "address"]);
           ("searchFields", VArr [VStr "fullName"])]) s0 []
  = Finished
      (Ok [("query", VObj [("addr", VObj [("fullName", VStr "x")])]);
           ("sort", VArr [VStr "-full_name"; VStr "addr"]);
           ("searchFields", VArr [VStr "full_name"])])
      (mkState [] [("fullName", "full_name"); ("address", "addr")] 1000 0 [])
      [] [].
Proof. vm_compute. reflexivity. Qed.

(** * The theorems at work on the example service *)

Definition refused : error := Thrown (VStr "ECONNREFUSED").
Definition twice : list failure := [ConnectFailed refused; ConnectFailed refused].

(** Two refused connections, then one that succeeds: the call returns the
    handle after two waits of 1000 ms. *)
Lemma acquire_retries_until_success_witness :
  exec (getAdapter example 3 (forTenant "a")) s0
       (retry_answers twice ++ success_answers example VUndefined VUndefined ++ []) =
  Finished (Ok O) (mkState [mkItem "a" O 1000] [] 3000 1 []) []
           (retry_trace O "a" (VStr "NeDB") twice ++
            success_trace example O "a" (VStr "NeDB") VUndefined VUndefined) /\
  waits (retry_trace O "a" (VStr "NeDB") twice ++
         success_trace example O "a" (VStr "NeDB") VUndefined VUndefined) =
  [1000; 1000] /\
  attempts (retry_trace O "a" (VStr "NeDB") twice ++
            success_trace example O "a" (VStr "NeDB") VUndefined VUndefined) = 3%nat.
Proof.
  assert (Hfs : Forall (possible example) twice) by (repeat constructor).
  assert (Hn : (List.length twice < 3)%nat) by (simpl; lia).
  exact (proj1 (proj2 (acquire_retries_until_success example (forTenant "a") s0
                         (entered "a" s0) twice 3
                         (retry_answers twice ++
                          success_answers example VUndefined VUndefined ++ [])
                         [] [] eq_refl Hfs Hn) eq_refl)
               VUndefined VUndefined eq_refl).
Defined.

(** Three tenants in a pool of two: the one touched first is closed. *)
Definition three : State :=
  mkState [mkItem "b" 1%nat 20; mkItem "a" 0%nat 10; mkItem "c" 2%nat 30] [] 1000 3 [].

Lemma maintenance_keeps_most_recent_witness :
  exists s' rs' tr,
    exec (maintenanceAdapters example) three [yes; yes] = Finished (Ok tt) s' rs' tr /\
    Z.of_nat (List.length (adapters s')) <= 2 /\
    Permutation (adapters three) (closeable 2 (adapters three) ++ adapters s') /\
    disconnected tr =
    filter (hasDisconnect example) (map adapter_of (closeable 2 (adapters three))).
Proof.
  assert (Hwf : pool_wf (adapters three)).
  { split; simpl; repeat constructor; simpl; intuition discriminate. }
  assert (Hmax : 1 <= 2) by lia.
  destruct (maintenance_keeps_most_recent example 2 three eq_refl Hmax Hwf)
    as [Hafter Hruns].
  destruct (Hruns [yes; yes] eq_refl) as (s' & rs' & tr & Hrun).
  { vm_compute. lia. }
  exists s', rs', tr. split; [exact Hrun|].
  destruct (Hafter _ _ _ _ Hrun) as (H1 & _ & H3 & _ & H5).
  auto.
Defined.

(** [scope: false] and the default scope [onlyActive]. *)
Lemma scope_bypass_needs_permission_witness :
  exec (_applyScopes example [("scope", VBool false)] VNull) s0
       [Resolved (VBool true)] =
  Finished (Ok [("scope", VBool false)]) s0 []
           [(CheckScopeAuthority VNull None None, Resolved (VBool true))] /\
  exec (_applyScopes example [("scope", VBool false)] VNull) s0
       [Resolved (VBool false); Resolved (VBool true)] =
  Finished
    (Ok [("scope", VBool false); ("query", VObj [("active", VBool true)])])
    s0 []
    [(CheckScopeAuthority VNull None None, Resolved (VBool false));
     (CheckScopeAuthority VNull (Some "onlyActive")
        (Some (StaticScope [("active", VBool true)])), Resolved (VBool true))] /\
  exists q,
    scoped_params example VNull (defaultScopes example) [VBool true]
      [("scope", VBool false)] =
    Ok (Obj.set "query" (VObj q) [("scope", VBool false)]) /\
    Obj.get "active" q = VBool true.
Proof.
  pose proof (scope_bypass_needs_permission example VNull [("scope", VBool false)] s0
                [VBool true] [] eq_refl) as H.
  cbv zeta in H. destruct H as (H1 & _ & H3). split; [|split].
  - exact (proj1 (H1 eq_refl (VBool true)) eq_refl).
  - exact (proj2 (H1 eq_refl (VBool false)) eq_refl).
  - assert (Hn : names_of (defaultScopes example) <> []) by (vm_compute; discriminate).
    destruct (H3 Hn eq_refl [] eq_refl) as (q & Hq & _ & Hfill).
    exists q. split; [exact Hq|].
    exact (Hfill "active" eq_refl eq_refl eq_refl).
Defined.

Definition ann : value := VObj [("_id", VNum 7); ("full_name", VStr "Ann")].
Definition ann_out : value := VObj [("id", VNum 7); ("fullName", VStr "Ann")].
Definition byId : obj := [("id", VNum 7)].

(** The lookup of an identifier that is not in the store. *)
Definition missing : list response :=
  [Resolved (VBool true); yes; Resolved (VArr [])].

Definition lookup_args (extra : obj) : list value :=
  [VObj (("id", VNum 7) :: extra ++
         [("query", VObj [("active", VBool true); ("_id", VNum 7)])])].

Lemma resolve_nothing_found_witness :
  mutated (trace_of (exec (resolveEntities example 3 VNull byId []) s0 missing)) = false /\
  result_of (exec (resolveEntities example 3 VNull byId []) s0 missing) =
  Some (Ok VNull).
Proof.
  apply (resolve_nothing_found example 3 VNull byId [] s0 missing
           O (lookup_args []) (VArr [])).
  - vm_compute. auto 10.
  - reflexivity.
Defined.

(** The lookup of two identifiers, one of them stored, with
    [mapping: true]. *)
Definition byIdsMapped : obj :=
  [("id", VArr [VNum 7; VNum 8]); ("mapping", VBool true)].
Definition one_found : list response :=
  [Resolved (VBool true); yes; Resolved (VArr [ann]); Resolved (VArr [ann_out])].


(** An update that carries the identifier only. *)
Definition untouched : list response :=
  [yes; Resolved (VBool true); Resolved (VArr [ann]); Resolved ann_out].

Lemma update_without_changes_witness :
  called updateById
    (trace_of (exec (updateEntity example 3 VNull byId [("raw", VBool true)]) s0
                 untouched)) = false /\
  emitted (state_of (exec (updateEntity example 3 VNull byId [("raw", VBool true)]) s0
                       untouched)) = [] /\
  result_of (exec (updateEntity example 3 VNull byId [("raw", VBool true)]) s0
               untouched) = Some (Ok ann_out).
Proof.
  pose proof (update_without_changes example 3 VNull byId [("raw", VBool true)]
                s0 untouched) as [Hquiet Hreturns].
  destruct (Hquiet eq_refl) as (H1 & H2 & _).
  split; [exact H1 | split; [exact H2|]].
  erewrite Hreturns.
  2: { vm_compute. reflexivity. }
  - reflexivity.
  - reflexivity.
Defined.

(** Removing an entity: the default scope [onlyActive] is in the query of
    the lookup, which finds the entity; and the same when the lookup finds
    nothing. *)
Definition removed : list response :=
  [Resolved (VBool true); yes; Resolved (VArr [ann]); Resolved (VObj byId); yes;
   Resolved ann_out].


(** The default scope [onlyActive] asks for [active: true]; the entity
    [hidden] is not active.  A caller who passes a [query] of its own with
    [active: false], and no [scope], has the lookup ask for [active: false]:
    the default scope does not override the caller's condition, the entity
    is found, and it is removed. *)
Definition hidden : value := VObj [("_id", VNum 7); ("active", VBool false)].

Definition own_query : obj :=
  [("id", VNum 7); ("query", VObj [("active", VBool false)])].

Definition removing : list response :=
  [Resolved (VBool true); yes; Resolved (VArr [hidden]); Resolved (VObj own_query);
   yes; Resolved hidden].


(** A service with the cache off creates an entity: the adapter stores it,
    and the call is rejected before any event is sent. *)
Definition stored : list response :=
  [yes; Resolved (VObj [("a", VNum 1)]);
   Resolved (VObj [("_id", VNum 7); ("a", VNum 1)]);
   Resolved (VObj [("id", VNum 7); ("a", VNum 1)])].

Lemma notifications_need_the_cache_witness :
  sends_nothing (createEntity example 3 VNull (VObj [("a", VNum 1)]) []) s0 stored /\
  never_returns (createEntity example 3 VNull (VObj [("a", VNum 1)]) []) s0 stored.
Proof.
  exact (proj1 (notifications_need_the_cache example 3 VNull s0 stored eq_refl)
               (VObj [("a", VNum 1)]) []).
Defined.

Example create_with_the_cache_off :
  exec (createEntity example 3 VNull (VObj [("a", VNum 1)]) []) s0 stored =
  Finished
    (Err (TypeError "Cannot read properties of null (reading 'eventType')"))
    (mkState [mkItem "default" O 1000] [] 1000 1 []) []
    [(AdapterCall O connect [], yes);
     (ValidateParams VNull (VObj [("a", VNum 1)])
        [("type", VStr "create"); ("nestedFieldSupport", VBool true)],
      Resolved (VObj [("a", VNum 1)]));
     (AdapterCall O insert [VObj [("a", VNum 1)]],
      Resolved (VObj [("_id", VNum 7); ("a", VNum 1)]));
     (TransformResult O (VObj [("_id", VNum 7); ("a", VNum 1)]) (VObj []) VNull,
      Resolved (VObj [("id", VNum 7); ("a", VNum 1)]))].
Proof. vm_compute. reflexivity. Qed.

Example maintenance_closes_the_oldest :
  exec (maintenanceAdapters example) three [yes] =
  Finished (Ok tt)
    (mkState [mkItem "b" 1%nat 20; mkItem "c" 2%nat 30] [] 1000 3 []) []
    [(AdapterCall O disconnect [], yes)].
Proof. vm_compute. reflexivity. Qed.

(** The default scope [onlyActive] on an empty query, and the same request
    with [scope: false] from a caller who may do without scopes. *)
Example default_scope_applied :
  exec (_applyScopes example [("query", VObj [])] VNull) s0 [Resolved (VBool true)] =
  Finished (Ok [("query", VObj [("active", VBool true)])]) s0 []
    [(CheckScopeAuthority VNull (Some "onlyActive")
        (Some (StaticScope [("active", VBool true)])), Resolved (VBool true))].
Proof. vm_compute. reflexivity. Qed.

Example scope_bypassed :
  exec (_applyScopes example [("query", VObj []); ("scope", VBool false)] VNull) s0
       [Resolved (VBool true)] =
  Finished (Ok [("query", VObj []); ("scope", VBool false)]) s0 []
    [(CheckScopeAuthority VNull None None, Resolved (VBool true))].
Proof. vm_compute. reflexivity. Qed.

(** * More of the methods *)

(** ** The field-name translator *)

(** The column of a field name: the column of the first field declared
    under that name, the name itself when there is none. *)
Definition column_of (svc : Service) (fieldName : string) : string :=
  match List.find (fun f => String.eqb (name f) fieldName) (fields svc) with
  | Some field => columnName field
  | None => fieldName
  end.

(** The memo [cacheColumnName] holds only what the fields say. *)
Definition memo_ok (svc : Service) (c : list (string * string)) : Prop :=
  forall k v, memo_get k c = Some v -> v = column_of svc k.

(** The state with another memo. *)
Definition same_but_memo (s s' : State) : Prop :=
  adapters s' = adapters s /\ clock s' = clock s /\
  nextAdapter s' = nextAdapter s /\ emitted s' = emitted s.

Section Translator.

Variable svc : Service.

Lemma memo_get_set k k' v c :
  memo_get k (memo_set k' v c) =
  if String.eqb k k' then Some v else memo_get k c.
Proof.
  unfold memo_get. induction c as [|[k0 v0] c IH]; simpl.
  - destruct (String.eqb k k'); reflexivity.
  - destruct (String.eqb k' k0) eqn:E; simpl.
    + apply String.eqb_eq in E. subst k0.
      destruct (String.eqb k k'); reflexivity.
    + destruct (String.eqb k k0) eqn:E0; simpl.
      * apply String.eqb_eq in E0. subst k0.
        rewrite String.eqb_sym in E. rewrite E. reflexivity.
      * exact IH.
Qed.

Lemma memo_ok_set f c :
  memo_ok svc c -> memo_ok svc (memo_set f (column_of svc f) c).
Proof.
  intros Hc k v. rewrite memo_get_set.
  destruct (String.eqb k f) eqn:E.
  - apply String.eqb_eq in E. subst k. intros H; inversion H; reflexivity.
  - apply Hc.
Qed.

Lemma same_but_memo_refl s : same_but_memo s s.
Proof. repeat split. Qed.

Lemma same_but_memo_trans s1 s2 s3 :
  same_but_memo s1 s2 -> same_but_memo s2 s3 -> same_but_memo s1 s3.
Proof.
  intros (H1 & H2 & H3 & H4) (H5 & H6 & H7 & H8).
  repeat split; congruence.
Qed.

(** What a translation step is: it returns at once, with [v], and leaves a
    memo that is in order. *)
Definition translates {A} (r : Res A) (s : State) (v : A) : Prop :=
  exists s', r = Done (Ok v) s' /\ memo_ok svc (cacheColumnName s') /\
             same_but_memo s s'.

Lemma translates_bind {A B} (m : M A) (f : A -> M B) s a b :
  translates (m s) s a ->
  (forall s1, memo_ok svc (cacheColumnName s1) -> same_but_memo s s1 ->
              translates (f a s1) s1 b) ->
  translates (bind m f s) s b.
Proof.
  intros (s1 & Hm & Hok & Hsame) Hf. unfold bind. rewrite Hm. simpl.
  destruct (Hf s1 Hok Hsame) as (s2 & Hf2 & Hok2 & Hsame2).
  exists s2. split; [exact Hf2|]. split; [exact Hok2|].
  eapply same_but_memo_trans; eassumption.
Qed.

Lemma translates_ret {A} (a : A) s :
  memo_ok svc (cacheColumnName s) -> translates (ret a s) s a.
Proof. intros H. exists s. repeat split; auto. Qed.

Lemma getColumnName_translates (f : string) s :
  memo_ok svc (cacheColumnName s) ->
  translates (_getColumnNameFromFieldName svc f s) s (column_of svc f).
Proof.
  intros Hok. pose proof (memo_ok_set f _ Hok) as Hset.
  unfold _getColumnNameFromFieldName, bind. simpl.
  destruct (memo_get f (cacheColumnName s)) as [res|] eqn:Hm.
  - pose proof (Hok _ _ Hm) as E. unfold column_of in *.
    destruct (nonempty res);
      destruct (List.find (fun fd => String.eqb (name fd) f) (fields svc)) as [fd|];
      simpl; subst res; eexists; (split; [reflexivity|]);
      split; auto; repeat split.
  - unfold column_of in *.
    destruct (List.find (fun fd => String.eqb (name fd) f) (fields svc)) as [fd|];
      simpl; eexists; (split; [reflexivity|]); split; auto; repeat split.
Qed.

Definition is_string (v : value) : bool :=
  match v with VStr _ => true | _ => false end.

(** A sort field in terms of columns: the leading ["-"] stays. *)
Definition sort_column (v : value) : value :=
  match v with
  | VStr (String "-"%char rest) => VStr (String "-"%char (column_of svc rest))
  | VStr f => VStr (column_of svc f)
  | _ => v
  end.

Lemma sortField_translates (v : value) s :
  is_string v = true -> memo_ok svc (cacheColumnName s) ->
  translates (sortField svc v s) s (sort_column v).
Proof.
  intros Hv Hok. destruct v as [| | | |f| | |]; try discriminate.
  destruct f as [|c rest].
  - simpl sortField. simpl sort_column.
    eapply translates_bind; [apply getColumnName_translates; exact Hok|].
    intros s1 H1 _. apply translates_ret. exact H1.
  - assert (Hplain :
      translates
        ((c0 <- _getColumnNameFromFieldName svc (String c rest) ;; ret (VStr c0)) s)
        s (VStr (column_of svc (String c rest)))).
    { eapply translates_bind; [apply getColumnName_translates; exact Hok|].
      intros s1 H1 _. apply translates_ret. exact H1. }
    destruct (Ascii.eqb c "-"%char) eqn:E.
    + apply Ascii.eqb_eq in E. subst c. simpl sortField. simpl sort_column.
      eapply translates_bind; [apply getColumnName_translates; exact Hok|].
      intros s1 H1 _. apply translates_ret. exact H1.
    + assert (Hs : sortField svc (VStr (String c rest)) =
                   (c0 <- _getColumnNameFromFieldName svc (String c rest) ;;
                    ret (VStr c0))).
      { unfold sortField.
        destruct c as [[] [] [] [] [] [] [] []]; try reflexivity; discriminate. }
      assert (Hc : sort_column (VStr (String c rest)) =
                   VStr (column_of svc (String c rest))).
      { unfold sort_column.
        destruct c as [[] [] [] [] [] [] [] []]; try reflexivity; discriminate. }
      rewrite Hs, Hc. exact Hplain.
Qed.

Lemma sortFields_translate (items : list value) :
  forall s,
    forallb is_string items = true -> memo_ok svc (cacheColumnName s) ->
    translates (mapM (sortField svc) items s) s (map sort_column items).
Proof.
  induction items as [|v items IH]; intros s Hs Hok; simpl mapM; simpl map.
  - apply translates_ret. exact Hok.
  - simpl in Hs. apply andb_true_iff in Hs. destruct Hs as [Hv Hitems].
    eapply translates_bind; [apply sortField_translates; assumption|].
    intros s1 H1 _.
    eapply translates_bind; [apply IH; assumption|].
    intros s2 H2 _. apply translates_ret. exact H2.
Qed.

(** Reading and writing a key that is not in an object. *)
Lemma get_absent k (o : obj) : ~ In k (Obj.keys o) -> Obj.get k o = VUndefined.
Proof.
  unfold Obj.keys. induction o as [|[k' v] o IH]; simpl; [reflexivity|].
  intros Hn. destruct (String.eqb k k') eqn:E.
  - apply String.eqb_eq in E. subst. exfalso. apply Hn. left. reflexivity.
  - apply IH. intros H. apply Hn. right. exact H.
Qed.

Lemma set_absent k v (o : obj) :
  ~ In k (Obj.keys o) -> Obj.set k v o = o ++ [(k, v)].
Proof.
  unfold Obj.keys. induction o as [|[k' v'] o IH]; simpl; [reflexivity|].
  intros Hn. destruct (String.eqb k k') eqn:E.
  - apply String.eqb_eq in E. subst. exfalso. apply Hn. left. reflexivity.
  - rewrite IH; [reflexivity|]. intros H. apply Hn. right. exact H.
Qed.

(** A query in terms of columns: the keys translated, the values as they
    are. *)
Definition query_columns (ps : obj) : obj :=
  map (fun kv => (column_of svc (fst kv), snd kv)) ps.

Lemma query_reduce_translates (recursive : bool) (ps : obj) :
  forall res s,
    NoDup (Obj.keys res ++ map (column_of svc) (Obj.keys ps)) ->
    memo_ok svc (cacheColumnName s) ->
    translates
      ((fix reduce (ps : obj) (res : obj) {struct ps} : M obj :=
          match ps with
          | [] => ret res
          | (fieldName, v) :: ps' =>
              columnName <- _getColumnNameFromFieldName svc fieldName ;;
              if isPlainObject (Obj.get columnName res) && recursive then
                sub <- _queryFieldNameConversion svc v recursive ;;
                reduce ps' (Obj.set columnName (VObj sub) res)
              else
                reduce ps' (Obj.set columnName v res)
          end) ps res s)
      s (res ++ query_columns ps).
Proof.
  induction ps as [|[k v] ps IH]; intros res s Hnd Hok.
  - simpl. rewrite app_nil_r. apply translates_ret. exact Hok.
  - eapply translates_bind; [apply getColumnName_translates; exact Hok|].
    intros s1 H1 _. cbv beta.
    assert (Hk : ~ In (column_of svc k) (Obj.keys res)).
    { intros Hin. simpl in Hnd. apply NoDup_remove_2 in Hnd. apply Hnd.
      apply in_or_app. left. exact Hin. }
    rewrite (get_absent _ _ Hk). cbn [isPlainObject andb].
    rewrite (set_absent _ v _ Hk).
    replace (res ++ query_columns ((k, v) :: ps))
      with ((res ++ [(column_of svc k, v)]) ++ query_columns ps)
      by (rewrite <- app_assoc; reflexivity).
    apply IH; [|exact H1].
    unfold Obj.keys in *. rewrite map_app. simpl in *.
    rewrite <- app_assoc. simpl.
    eapply Permutation_NoDup; [|exact Hnd].
    apply Permutation_app_head. apply Permutation_refl.
Qed.

End Translator.
(** X17: [_getColumnNameFromFieldName] gives the column the fields declare for
    the name, or the name itself, whatever the memo holds from earlier
    calls; it calls nothing and changes nothing but the memo, which stays
    in order. *)
Theorem column_memo_is_transparent :
  forall (svc : Service) (fieldName : string) (s : State),
    memo_ok svc (cacheColumnName s) ->
    exists s',
      _getColumnNameFromFieldName svc fieldName s =
      Done (Ok (column_of svc fieldName)) s' /\
      memo_ok svc (cacheColumnName s') /\
      same_but_memo s s'.
Proof.
  intros svc fieldName s Hok.
  exact (getColumnName_translates svc fieldName s Hok).
Qed.

(** X18: [_sortFieldNameConversion] on a list of strings translates each of
    them and keeps its place; a leading ["-"] stays in front of the column
    name. *)
Theorem sort_fields_are_translated :
  forall (svc : Service) (items : list value) (s : State),
    memo_ok svc (cacheColumnName s) ->
    forallb is_string items = true ->
    exists s',
      _sortFieldNameConversion svc (VArr items) s =
      Done (Ok (VArr (map (sort_column svc) items))) s' /\
      memo_ok svc (cacheColumnName s') /\
      same_but_memo s s'.
Proof.
  intros svc items s Hok Hitems. unfold _sortFieldNameConversion.
  apply (translates_bind svc (mapM (sortField svc) items) _ s
           (map (sort_column svc) items)).
  - apply sortFields_translate; assumption.
  - intros s1 H1 _. apply translates_ret. exact H1.
Qed.

(** X19: [_queryFieldNameConversion] on a query whose keys go to different
    columns (none of them [__proto__], which is no property to set): each
    key is replaced by its column, in place, and each value is passed as
    it is, whatever [recursive] is. *)
Theorem query_keys_are_translated :
  forall (svc : Service) (recursive : bool) (ps : obj) (s : State),
    memo_ok svc (cacheColumnName s) ->
    NoDup (map (column_of svc) (Obj.keys ps)) ->
    ~ In "__proto__" (map (column_of svc) (Obj.keys ps)) ->
    exists s',
      _queryFieldNameConversion svc (VObj ps) recursive s =
      Done (Ok (query_columns svc ps)) s' /\
      memo_ok svc (cacheColumnName s') /\
      same_but_memo s s'.
Proof.
  intros svc recursive ps s Hok Hnd _.
  exact (query_reduce_translates svc recursive ps [] s Hnd Hok).
Qed.
(** ** More of the scope resolver *)

Section ScopeFacts.

Variable svc : Service.
Variable ctx : value.

(** The scopes the names stand for. *)
Definition named_scopes (names : list string) : list Scope :=
  flat_map (fun n => match scope_named svc n with
                     | Some sc => [sc]
                     | None => []
                     end) names.

(** The [reduce] of [_applyScopes] folds the scopes the names stand for. *)
Lemma reduce_named (names : list string) :
  forall query,
    reduce_scopes svc ctx names query =
    fold_scopes ctx (named_scopes names) query.
Proof.
  induction names as [|n names IH]; intros query; simpl; [reflexivity|].
  unfold applyScope.
  destruct (scope_named svc n) as [[d|f]|]; simpl.
  - apply IH.
  - destruct (f query ctx); [apply IH | reflexivity].
  - apply IH.
Qed.

Lemma permitted_incl (names : list string) :
  forall answers n, In n (permitted svc names answers) -> In n names.
Proof.
  induction names as [|n0 names IH]; intros answers n; simpl; [auto|].
  destruct (scope_named svc n0).
  - destruct answers as [|a answers]; [intros []|].
    destruct (truthy a); simpl.
    + intros [->|H]; [left; reflexivity | right; eapply IH; exact H].
    + intros H. right. eapply IH; exact H.
  - intros H. right. eapply IH; exact H.
Qed.

(** Each name that gets through was asked about, and allowed. *)
Lemma permitted_allowed (names : list string) :
  forall answers n,
    In n (permitted svc names answers) ->
    exists sc a,
      scope_named svc n = Some sc /\
      In (CheckScopeAuthority ctx (Some n) (Some sc), Resolved a)
         (authority_trace svc ctx names answers) /\
      truthy a = true.
Proof.
  induction names as [|n0 names IH]; intros answers n; simpl; [intros []|].
  destruct (scope_named svc n0) as [sc0|] eqn:Hsc.
  - destruct answers as [|a answers]; [intros []|].
    destruct (truthy a) eqn:Ha; simpl.
    + intros [<-|H].
      * exists sc0, a. split; [exact Hsc|]. split; [left; reflexivity | exact Ha].
      * destruct (IH _ _ H) as (sc & a' & H1 & H2 & H3).
        exists sc, a'. split; [exact H1|]. split; [right; exact H2 | exact H3].
    + intros H. destruct (IH _ _ H) as (sc & a' & H1 & H2 & H3).
      exists sc, a'. split; [exact H1|]. split; [right; exact H2 | exact H3].
  - apply IH.
Qed.

End ScopeFacts.

(** X6: [_filterScopeNamesByPermission], whatever the authority check answers:
    a name it returns is one of the names given, [settings.scopes] answers
    to it (with a scope of its own, or with a member it inherits), and the
    authority check was asked about it, with what [settings.scopes] holds
    for it, and allowed it.  The state is as it was. *)
Theorem filtered_scopes_are_allowed :
  forall (svc : Service) (ctx : value) (names : list string) (s : State)
         (rs : list response) (allowed : list string) s' rs' tr',
    exec (_filterScopeNamesByPermission svc ctx names) s rs =
    Finished (Ok allowed) s' rs' tr' ->
    s' = s /\
    forall n, In n allowed ->
      In n names /\
      exists sc a,
        scope_of n (scopes svc ++ inheritedScopes svc) = Some sc /\
        In (CheckScopeAuthority ctx (Some n) (Some sc), Resolved a) tr' /\
        truthy a = true.
Proof.
  intros svc ctx names s rs allowed s' rs' tr' Hrun. unfold exec in Hrun.
  apply filter_by_permission_inv in Hrun.
  destruct Hrun as (answers & _ & -> & -> & -> & ->).
  split; [reflexivity|]. intros n Hn. split.
  - eapply permitted_incl; exact Hn.
  - simpl. apply (permitted_allowed svc ctx names answers n Hn).
Qed.

(** X4: [_applyScopes] with scopes named in [params.scope]: the authority
    check is asked about the named scopes [settings.scopes] answers to, and
    those it permits are folded into the query, in the order they are
    named, a function scope by calling it, a static scope by merging it
    under the query; the default scopes are not looked at.  With
    [scope: []] nothing is applied and nothing is asked. *)
Theorem named_scopes_replace_defaults :
  forall (svc : Service) (ctx : value) (params : obj) (s : State)
         (answers : list value) (rs : list response),
    let names := scope_names (Obj.get "scope" params) in
    truthy (Obj.get "scope" params) = true ->
    List.length answers = List.length (defined_names svc names) ->
    exec (_applyScopes svc params ctx) s (map Resolved answers ++ rs) =
    Finished
      (match names with
       | [] => Ok params
       | _ :: _ =>
           match fold_scopes ctx (permitted_scopes svc names answers)
                   (start_query params) with
           | Returns query => Ok (Obj.set "query" query params)
           | Throws e => Err e
           end
       end) s rs
      (authority_trace svc ctx names answers) /\
    (Obj.get "scope" params = VArr [] ->
     exec (_applyScopes svc params ctx) s rs = Finished (Ok params) s rs []).
Proof.
  intros svc ctx params s answers rs names Htruthy Hlen. unfold exec.
  split.
  - unfold _applyScopes. rewrite Htruthy. rewrite run_bind, run_ret.
    fold names.
    rewrite (apply_scope_names_run svc ctx (Some names) params answers s rs [] Hlen).
    unfold scoped_params. simpl names_of. destruct names; reflexivity.
  - intros Hempty. unfold _applyScopes. rewrite Hempty. reflexivity.
Qed.

(** X5: only [scope: false] asks for the scopes to be left out: with any other
    falsy [scope] ([null], [0], the empty string, or none) the authority
    check is not asked whether the scopes may be left out, and the default
    scopes it permits are folded into the query. *)
Theorem falsy_scope_means_defaults :
  forall (svc : Service) (ctx : value) (params : obj) (s : State)
         (answers : list value) (rs : list response),
    let names := names_of (defaultScopes svc) in
    truthy (Obj.get "scope" params) = false ->
    Obj.get "scope" params <> VBool false ->
    List.length answers = List.length (defined_names svc names) ->
    exec (_applyScopes svc params ctx) s (map Resolved answers ++ rs) =
    Finished
      (match names with
       | [] => Ok params
       | _ :: _ =>
           match fold_scopes ctx (permitted_scopes svc names answers)
                   (start_query params) with
           | Returns query => Ok (Obj.set "query" query params)
           | Throws e => Err e
           end
       end) s rs
      (authority_trace svc ctx names answers).
Proof.
  intros svc ctx params s answers rs names Hfalsy Hnot Hlen.
  unfold exec, _applyScopes.
  rewrite Hfalsy. rewrite run_bind.
  assert (Hscopes : forall rs0 tr0,
             run (match Obj.get "scope" params with
                  | VBool false =>
                      ok <- await (CheckScopeAuthority ctx None None) ;;
                      if truthy ok then ret None else ret (defaultScopes svc)
                  | _ => ret (defaultScopes svc)
                  end s) rs0 tr0 =
             Finished (Ok (defaultScopes svc)) s rs0 tr0).
  { intros rs0 tr0.
    destruct (Obj.get "scope" params) as [| |[]| | | | |];
      try reflexivity; try discriminate. congruence. }
  rewrite Hscopes.
  rewrite (apply_scope_names_run svc ctx (defaultScopes svc) params answers s rs []
             Hlen).
  subst names. unfold scoped_params.
  destruct (defaultScopes svc) as [[|n l]|]; reflexivity.
Qed.

(** X7: static scopes fill a query in and override nothing in it.  When
    every name stands for a static scope, the [reduce] of [_applyScopes]
    over a plain query gives a plain query that holds every scalar of the
    caller's under its key and, under a key the caller's query does not
    have, what the first of the scopes that has the key holds for it. *)
Theorem static_scopes_keep_the_query :
  forall (svc : Service) (ctx : value) (names : list string) (q0 : obj),
    forallb is_static (named_scopes svc names) = true ->
    exists q,
      reduce_scopes svc ctx names (VObj q0) = Returns (VObj q) /\
      (forall k, k <> "__proto__" -> is_scalar (Obj.get k q0) = true ->
                 Obj.get k q = Obj.get k q0) /\
      (forall k, ordinary k = true -> Obj.get k q0 = VUndefined ->
                 is_scalar (default_of k (named_scopes svc names)) = true ->
                 Obj.get k q = default_of k (named_scopes svc names)).
Proof.
  intros svc ctx names q0 Hst. rewrite reduce_named.
  apply fold_static_scopes. exact Hst.
Qed.
(** ** More of the adapter pool *)

Section PoolRoundTrip.

Variable svc : Service.
Variable fuel : nat.

Lemma place_snoc (x y : Item) (l : list Item) :
  touched x <= touched y ->
  Pool.place x (l ++ [y]) = Pool.place x l ++ [y].
Proof.
  intros Hxy. induction l as [|z l IH]; simpl.
  - apply Z.leb_le in Hxy. rewrite Hxy. reflexivity.
  - destruct (touched x <=? touched z); [reflexivity|]. rewrite IH. reflexivity.
Qed.

(** An entry that is not older than the others, and comes last, is sorted
    last. *)
Lemma sort_snoc (y : Item) (l : list Item) :
  Forall (fun x => touched x <= touched y) l ->
  Pool.sort (l ++ [y]) = Pool.sort l ++ [y].
Proof.
  induction 1 as [|x l Hx Hl IH]; simpl; [reflexivity|].
  rewrite IH. apply place_snoc. exact Hx.
Qed.

Lemma closeable_snoc (maximum : Z) (y : Item) (p : list Item) :
  1 <= maximum ->
  Forall (fun x => touched x <= touched y) p ->
  incl (closeable maximum (p ++ [y])) p.
Proof.
  intros Hmax Hp. unfold closeable. rewrite sort_snoc by exact Hp.
  rewrite length_app. simpl List.length.
  rewrite firstn_app.
  replace (Z.to_nat (Z.of_nat (List.length p + 1) - maximum) -
           List.length (Pool.sort p))%nat with O.
  - simpl. rewrite app_nil_r. intros x Hx.
    eapply Permutation_in; [apply sort_perm|].
    rewrite <- (firstn_skipn (Z.to_nat (Z.of_nat (List.length p + 1) - maximum))
                  (Pool.sort p)).
    apply in_or_app. left. exact Hx.
  - rewrite (Permutation_length (sort_perm p)). lia.
Qed.

Lemma get_delete_other h h' (p : list Item) :
  h <> h' -> Pool.get h (Pool.delete h' p) = Pool.get h p.
Proof.
  intros Hne. unfold Pool.delete. induction p as [|it p IH]; simpl; [reflexivity|].
  destruct (String.eqb h' (hash it)) eqn:E; simpl.
  - apply String.eqb_eq in E. subst h'.
    destruct (String.eqb h (hash it)) eqn:E'; [|exact IH].
    apply String.eqb_eq in E'. congruence.
  - rewrite IH. reflexivity.
Qed.

(** The new entry is the one of its key, and the only one. *)
Definition newest (new : Item) (p : list Item) : Prop :=
  Pool.get (hash new) p = Some new /\
  forall it, In it p -> it = new \/ hash it <> hash new.

Lemma release_keeps (new : Item) (a : adapter) (p : list Item) :
  a <> adapter_of new -> newest new p -> newest new (release a p).
Proof.
  intros Ha [Hget Hall]. unfold release, Pool.find_adapter.
  destruct (List.find (fun it => Nat.eqb (adapter_of it) a) p) as [item|] eqn:Hf;
    [|split; assumption].
  apply find_some in Hf. destruct Hf as [Hin Heq]. apply Nat.eqb_eq in Heq.
  assert (Hh : hash item <> hash new).
  { destruct (Hall item Hin) as [->|H]; [congruence | exact H]. }
  split.
  - rewrite get_delete_other; [exact Hget | congruence].
  - intros it Hit. apply Hall. unfold Pool.delete in Hit.
    apply filter_In in Hit. apply Hit.
Qed.

Lemma release_all_keeps (new : Item) (l : list Item) :
  forall p,
    Forall (fun it => adapter_of it <> adapter_of new) l ->
    newest new p -> newest new (release_all l p).
Proof.
  induction l as [|it l IH]; intros p Hl Hp; simpl; [exact Hp|].
  inversion Hl; subst. apply IH; [assumption|].
  apply release_keeps; assumption.
Qed.

(** [_connect] leaves the pool alone. *)
Lemma connecting_pool (p : list Item) n a h o :
  Sat (fun _ => True) (fun s => adapters s = p) (fun _ => True)
      (connecting svc n a h o).
Proof.
  induction n as [|n IH]; simpl.
  - apply Sat_out_of_fuel.
  - apply Sat_try_catch.
    + eapply Sat_bind with (Q1 := fun _ => True).
      * apply Sat_await. exact Logic.I.
      * intros _ _. destruct (has_hook svc "adapterConnected").
        -- eapply Sat_bind with (Q1 := fun _ => True).
           ++ apply Sat_await. exact Logic.I.
           ++ intros _ _. apply Sat_ret. exact Logic.I.
        -- apply Sat_ret. exact Logic.I.
    + intros e. destruct (autoReconnect svc).
      * eapply Sat_bind with (Q1 := fun _ => True).
        -- apply Sat_sleep. exact Logic.I.
        -- intros _ _. exact IH.
      * apply Sat_throw.
Qed.

Lemma connect_keeps_pool a h o s rs tr :
  adapters (state_of (run (_connect svc fuel a h o s) rs tr)) = adapters s.
Proof.
  assert (Hafter : forall c s0, adapters s0 = adapters s ->
                                adapters (after c s0) = adapters s).
  { intros c s0 H. destruct c; exact H. }
  destruct (sat_run (fun _ => True) (fun s0 => adapters s0 = adapters s) Hafter
              (fun _ => True) (_connect svc fuel a h o s)
              (connecting_pool (adapters s) fuel a h o s eq_refl) rs tr)
    as (_ & _ & _ & HI & _).
  exact HI.
Qed.

(** The pool after the maintenance pass of [getAdapter]: the new entry is
    still there. *)
Lemma maintenance_keeps_newest (new : Item) (p : list Item) s rs tr s1 rs1 tr1 :
  adapters s = p ++ [new] ->
  Pool.get (hash new) p = None ->
  Forall (fun it => touched it <= touched new) p ->
  Forall (fun it => (adapter_of it < adapter_of new)%nat) p ->
  run (maintenanceAdapters svc s) rs tr = Finished (Ok tt) s1 rs1 tr1 ->
  newest new (adapters s1).
Proof.
  intros Hs Hget Hold Hbelow Hrun.
  assert (Hnew : newest new (p ++ [new])).
  { split.
    - apply pool_get_app_new. exact Hget.
    - intros it Hit. apply in_app_or in Hit. destruct Hit as [Hit|[<-|[]]].
      + right. intros E. apply (pool_get_none _ _ Hget).
        rewrite <- E. apply in_map. exact Hit.
      + left. reflexivity. }
  destruct (maximumAdapters svc) as [m|] eqn:Hmax.
  - destruct (Z_lt_le_dec m 1) as [Hlt|Hle].
    + unfold maintenanceAdapters in Hrun. rewrite Hmax in Hrun.
      apply Z.ltb_lt in Hlt. rewrite Hlt in Hrun.
      rewrite run_ret in Hrun. inversion Hrun; subst. rewrite Hs. exact Hnew.
    + rewrite (maintenance_is_release_loop svc m s Hmax Hle) in Hrun.
      apply release_loop_finished in Hrun. destruct Hrun as [-> _].
      rewrite Hs. apply release_all_keeps; [|exact Hnew].
      rewrite Forall_forall. intros it Hit.
      apply (closeable_snoc m new p Hle Hold) in Hit.
      rewrite Forall_forall in Hbelow. specialize (Hbelow it Hit). lia.
  - unfold maintenanceAdapters in Hrun. rewrite Hmax in Hrun.
    rewrite run_ret in Hrun. inversion Hrun; subst. rewrite Hs. exact Hnew.
Qed.

Lemma getAdapter_hit_run ctx s rs item :
  Pool.get (tenant svc ctx) (adapters s) = Some item ->
  exec (getAdapter svc fuel ctx) s rs =
  Finished (Ok (adapter_of item))
    (with_adapters
       (Pool.set (mkItem (hash item) (adapter_of item) (clock s)) (adapters s)) s)
    rs [].
Proof.
  unfold exec, getAdapter, tenant.
  destruct (getAdapterByContext svc ctx (adapterDef svc)) as [h o].
  cbn [fst]. intros Hget.
  rewrite run_bind, run_tick. rewrite run_bind, run_get_state. rewrite Hget.
  reflexivity.
Qed.

End PoolRoundTrip.
Lemma NoDup_map_eq {A B} (f : A -> B) (l : list A) :
  NoDup (map f l) -> forall x y, In x l -> In y l -> f x = f y -> x = y.
Proof.
  induction l as [|z l IH]; simpl; intros Hnd x y Hx Hy E; [destruct Hx|].
  inversion Hnd as [|? ? Hz Hl]; subst.
  destruct Hx as [->|Hx]; destruct Hy as [->|Hy].
  - reflexivity.
  - exfalso. apply Hz. rewrite E. apply in_map. exact Hy.
  - exfalso. apply Hz. rewrite <- E. apply in_map. exact Hx.
  - apply IH; assumption.
Qed.

Lemma pool_get_set_same (it : Item) (p : list Item) :
  Pool.get (hash it) (Pool.set it p) = Some it.
Proof.
  induction p as [|x p IH]; simpl.
  - rewrite String.eqb_refl. reflexivity.
  - destruct (String.eqb (hash it) (hash x)) eqn:E; simpl.
    + rewrite String.eqb_refl. reflexivity.
    + rewrite E. exact IH.
Qed.

(** What [release] leaves of a pool with one entry per key and per
    handle. *)
Lemma release_wf (a : adapter) (p : list Item) :
  pool_wf p ->
  ~ In a (map adapter_of (release a p)) /\
  forall it, In it p -> adapter_of it <> a -> In it (release a p).
Proof.
  intros [Hh Ha]. unfold release, Pool.find_adapter.
  destruct (List.find (fun it => Nat.eqb (adapter_of it) a) p) as [item|] eqn:Hf.
  - apply find_some in Hf. destruct Hf as [Hin Heq]. apply Nat.eqb_eq in Heq.
    unfold Pool.delete. split.
    + intros H. apply in_map_iff in H. destruct H as (it & Hit & Hfil).
      apply filter_In in Hfil. destruct Hfil as [Hitp Hne].
      assert (E : it = item).
      { apply (NoDup_map_eq adapter_of p Ha); [assumption | assumption | congruence]. }
      subst it. rewrite String.eqb_refl in Hne. discriminate.
    + intros it Hit Hne. apply filter_In. split; [exact Hit|].
      destruct (String.eqb (hash item) (hash it)) eqn:E; [|reflexivity].
      apply String.eqb_eq in E.
      assert (E' : item = it).
      { apply (NoDup_map_eq hash p Hh); assumption. }
      subst it. congruence.
  - split.
    + intros H. apply in_map_iff in H. destruct H as (it & Hit & Hitp).
      pose proof (find_none _ _ Hf it Hitp) as Hn. simpl in Hn.
      apply Nat.eqb_neq in Hn. congruence.
    + intros it Hit _. exact Hit.
Qed.

(** X1: a key that is in the pool: [getAdapter] returns the handle the pool
    holds for it, at once.  It calls nothing (no [connect]), makes no
    handle, and the pool has the same keys and handles, the entry of the
    key with the time of the call. *)
Theorem pooled_adapter_is_reused :
  forall (svc : Service) (fuel : nat) (ctx : value) (s : State)
         (rs : list response) (item : Item),
    Pool.get (tenant svc ctx) (adapters s) = Some item ->
    exists s',
      exec (getAdapter svc fuel ctx) s rs =
      Finished (Ok (adapter_of item)) s' rs [] /\
      Pool.get (tenant svc ctx) (adapters s') =
      Some (mkItem (tenant svc ctx) (adapter_of item) (clock s)) /\
      map hash (adapters s') = map hash (adapters s) /\
      map adapter_of (adapters s') = map adapter_of (adapters s) /\
      nextAdapter s' = nextAdapter s /\
      emitted s' = emitted s.
Proof.
  intros svc fuel ctx s rs item Hget.
  rewrite (getAdapter_hit_run svc fuel ctx s rs item Hget).
  eexists. split; [reflexivity|].
  destruct (pool_get_in _ _ _ Hget) as [_ Hh].
  destruct (pool_touch _ _ item (clock s) Hget) as (H1 & H2 & _).
  cbn [adapters with_adapters nextAdapter emitted].
  split.
  - rewrite Hh.
    apply (pool_get_set_same (mkItem (tenant svc ctx) (adapter_of item) (clock s))).
  - auto.
Qed.

(** X2: a call of [getAdapter] that runs on its own, with no other call of
    the service between its [await]s, for a key that is not in the pool, in
    a pool whose entries were touched no later than now and whose handles
    were made before: when the call returns, the handle it has made is in
    the pool under the key (its own maintenance pass has not closed it),
    and the next call for the key, made before any other call runs,
    returns it without connecting again. *)
Theorem created_adapter_is_pooled :
  forall (svc : Service) (fuel : nat) (ctx : value) (s : State)
         (rs : list response) (a : adapter) (s' : State) (rs' : list response)
         (tr : trace),
    Pool.get (tenant svc ctx) (adapters s) = None ->
    Forall (fun it => touched it <= clock s) (adapters s) ->
    Forall (fun it => (adapter_of it < nextAdapter s)%nat) (adapters s) ->
    exec (getAdapter svc fuel ctx) s rs = Finished (Ok a) s' rs' tr ->
    a = nextAdapter s /\
    Pool.get (tenant svc ctx) (adapters s') =
    Some (mkItem (tenant svc ctx) a (clock s)) /\
    forall rs2, exists s2,
      exec (getAdapter svc fuel ctx) s' rs2 = Finished (Ok a) s2 rs2 [].
Proof.
  intros svc fuel ctx s rs a s' rs' tr Hget Hold Hbelow Hrun.
  rewrite (getAdapter_miss_run svc fuel ctx s rs Hget) in Hrun.
  set (h := tenant svc ctx) in *.
  set (new := mkItem h (nextAdapter s) (clock s)).
  destruct (run (maintenanceAdapters svc (entered h s)) rs [])
    as [[[]|e|] s1 rs1 tr1|c s1 tr1] eqn:Hm; try discriminate.
  pose proof (connect_keeps_pool svc fuel (nextAdapter s) h
                (snd (getAdapterByContext svc ctx (adapterDef svc))) s1 rs1 tr1)
    as Hpool.
  destruct (run (_connect svc fuel (nextAdapter s) h
                   (snd (getAdapterByContext svc ctx (adapterDef svc))) s1) rs1 tr1)
    as [[[]|e|] s2 rs2 tr2|c s2 tr2]; try discriminate.
  simpl in Hrun. inversion Hrun; subst a s2 rs2 tr2. simpl in Hpool.
  assert (Hnew : newest new (adapters s1)).
  { apply (maintenance_keeps_newest svc new (adapters s) (entered h s) rs [] s1 rs1 tr1).
    - unfold entered. cbn [adapters]. apply (pool_set_new new). exact Hget.
    - exact Hget.
    - exact Hold.
    - exact Hbelow.
    - exact Hm. }
  destruct Hnew as [Hnew _]. cbn [hash new] in Hnew.
  split; [reflexivity|]. split; [rewrite Hpool; exact Hnew|].
  intros rs0.
  assert (Hget' : Pool.get h (adapters s') = Some new) by (rewrite Hpool; exact Hnew).
  eexists. apply (getAdapter_hit_run svc fuel ctx s' rs0 new Hget').
Qed.

(** X3: [_disconnect] takes the entry of the adapter out of the pool before it
    closes the connection: whether [adapter.disconnect] and the hook have
    answered, failed, or not yet, the pool no longer holds the adapter, and
    holds every other entry.  It calls [adapter.disconnect], if there is
    one, and the [adapterDisconnected] hook, if there is one, and nothing
    else. *)
Theorem disconnect_releases_first :
  forall (svc : Service) (a : adapter) (h : string) (s : State)
         (rs : list response),
    let out := exec (_disconnect svc a h) s rs in
    adapters (state_of out) = release a (adapters s) /\
    (pool_wf (adapters s) ->
     ~ In a (map adapter_of (adapters (state_of out))) /\
     forall it, In it (adapters s) -> adapter_of it <> a ->
                In it (adapters (state_of out))) /\
    (forall c r, In (c, r) (trace_of out) ->
                 (c = AdapterCall a disconnect [] /\ hasDisconnect svc a = true) \/
                 (c = HookAdapterDisconnected a h /\
                  has_hook svc "adapterDisconnected" = true)).
Proof.
  intros svc a h s rs out.
  assert (Hout : adapters (state_of out) = release a (adapters s) /\
                 forall c r, In (c, r) (trace_of out) ->
                   (c = AdapterCall a disconnect [] /\ hasDisconnect svc a = true) \/
                   (c = HookAdapterDisconnected a h /\
                    has_hook svc "adapterDisconnected" = true)).
  { subst out. unfold exec.
    destruct (disconnect_pool svc a h s) as (s1 & Hs1 & ->).
    rewrite run_bind.
    destruct (hasDisconnect svc a) eqn:Hd;
      destruct (has_hook svc "adapterDisconnected") eqn:Hk;
      rewrite ?run_bind, ?run_await, ?run_ret by discriminate;
      destruct rs as [|[v1|e1] [|[v2|e2] rs]];
      rewrite ?run_bind, ?run_await, ?run_ret by discriminate;
      cbn [state_of trace_of after app In];
      (split; [exact Hs1|]);
      intros c r Hin; simpl in Hin;
      repeat match goal with
             | H : _ \/ _ |- _ => destruct H
             | H : False |- _ => destruct H
             | H : (_, _) = (_, _) |- _ => inversion H; subst; clear H
             end; auto. }
  destruct Hout as [Hpool Hcalls].
  split; [exact Hpool|]. split; [|exact Hcalls].
  intros Hwf. rewrite Hpool. apply release_wf. exact Hwf.
Qed.
(** ** Change notifications with the cache on *)

(** What both events carry. *)
Definition notice (ctx : value) (via : value) (eventName : value)
  (type : string) (data : value) (opts : obj) : Emitted :=
  mkEmitted (if truthy ctx then ctx else VUndefined) (toPropertyKey via) eventName
    [("type", VStr type); ("data", data); ("opts", VObj opts)].

(** The cache-cleaning event: sent when [cache.eventType] is set, named
    [cache.eventName] or, without one, [cache.clean.<service>]. *)
Definition cache_notices (svc : Service) (c : CacheOpts) (ctx : value)
  (type : string) (data : value) (opts : obj) : list Emitted :=
  if truthy (cacheEventType c) then
    [notice ctx (cacheEventType c)
       (if truthy (cacheEventName c) then cacheEventName c
        else VStr ("cache.clean." ++ serviceName svc)%string)
       type data opts]
  else [].

(** The lifecycle event: sent when [entityChangedEventType] is set, named
    [<service>.<type>d], and [<service>.cleared] for [clear]. *)
Definition lifecycle_notices (svc : Service) (ctx : value)
  (type : string) (data : value) (opts : obj) : list Emitted :=
  if truthy (entityChangedEventType svc) then
    [notice ctx (entityChangedEventType svc)
       (VStr (serviceName svc ++ "." ++ type ++
              (if String.eqb type "clear" then "ed" else "d"))%string)
       type data opts]
  else [].

(** The broker methods an event type may name. *)
Definition is_event_method (v : value) : Prop :=
  truthy v = false \/ v = VStr "emit" \/ v = VStr "broadcast".

(** The state with more events sent. *)
Definition same_but_events (s s' : State) (evs : list Emitted) : Prop :=
  adapters s' = adapters s /\ cacheColumnName s' = cacheColumnName s /\
  clock s' = clock s /\ nextAdapter s' = nextAdapter s /\
  emitted s' = emitted s ++ evs.

Section Notifications.

Variable svc : Service.
Variable c : CacheOpts.
Hypothesis cache_on : cacheOpts svc = Some c.

Lemma default_name_truthy :
  truthy (if truthy (cacheEventName c) then cacheEventName c
          else VStr ("cache.clean." ++ serviceName svc)%string) = true.
Proof. destruct (truthy (cacheEventName c)) eqn:E; [exact E | reflexivity]. Qed.

Lemma entityChanged_on_run type data ctx opts s rs tr :
  exists s',
    run (_entityChanged svc type data ctx opts s) rs tr = Finished (Ok tt) s' rs tr /\
    same_but_events s s'
      (cache_notices svc c ctx type data opts ++
       lifecycle_notices svc ctx type data opts).
Proof.
  unfold _entityChanged. rewrite cache_on. rewrite run_bind.
  unfold cache_notices, lifecycle_notices.
  rewrite default_name_truthy.
  destruct (truthy (cacheEventType c)).
  - unfold emit at 1. rewrite run_modify. rewrite run_await_.
    unfold entityChanged.
    destruct (truthy (entityChangedEventType svc)).
    + unfold emit. rewrite run_modify. eexists. split; [reflexivity|].
      unfold same_but_events. cbn [adapters cacheColumnName clock nextAdapter emitted].
      repeat split. rewrite <- app_assoc. reflexivity.
    + rewrite run_ret. eexists. split; [reflexivity|].
      unfold same_but_events. cbn [adapters cacheColumnName clock nextAdapter emitted].
      repeat split.
  - rewrite run_ret. rewrite run_await_. unfold entityChanged.
    destruct (truthy (entityChangedEventType svc)).
    + unfold emit. rewrite run_modify. eexists. split; [reflexivity|].
      unfold same_but_events. cbn [adapters cacheColumnName clock nextAdapter emitted].
      repeat split.
    + rewrite run_ret. eexists. split; [reflexivity|].
      unfold same_but_events. repeat split. simpl. rewrite app_nil_r. reflexivity.
Qed.

End Notifications.

(** X16: [_entityChanged] with the cache on calls nothing and does not fail.  It
    sends the cache-cleaning event if [cache.eventType] is set, then the
    lifecycle event if [entityChangedEventType] is set, each whether or not
    the other is sent; both carry the type, the data and the options. *)
Theorem notifications_with_the_cache_on :
  forall (svc : Service) (c : CacheOpts) (type : string) (data ctx : value)
         (opts : obj) (s : State) (rs : list response),
    cacheOpts svc = Some c ->
    is_event_method (cacheEventType c) ->
    is_event_method (entityChangedEventType svc) ->
    exists s',
      exec (_entityChanged svc type data ctx opts) s rs = Finished (Ok tt) s' rs [] /\
      same_but_events s s'
        (cache_notices svc c ctx type data opts ++
         lifecycle_notices svc ctx type data opts).
Proof.
  intros svc c type data ctx opts s rs Hon _ _.
  apply (entityChanged_on_run svc c Hon type data ctx opts s rs []).
Qed.
(** ** The write operations, step by step *)

Section Create.

Variable svc : Service.
Variable fuel : nat.
Variable c : CacheOpts.
Hypothesis cache_on : cacheOpts svc = Some c.

(** What the transformation answers where the method asks it. *)
Definition transform_answers (opts : obj) (t : value) : list response :=
  if wants_transform opts then [Resolved t] else [].

Definition transformed (opts : obj) (stored t : value) : value :=
  if wants_transform opts then t else stored.

Definition transform_trace (opts : obj) (a : adapter) (stored t ctx : value)
  : trace :=
  if wants_transform opts
  then [(TransformResult a stored (VObj []) ctx, Resolved t)]
  else [].

Lemma createEntity_run ctx params opts s rs a s1 tr1 p stored t rest :
  run (getAdapter svc fuel ctx s) rs [] =
  Finished (Ok a) s1
           (Resolved p :: Resolved stored :: transform_answers opts t ++ rest) tr1 ->
  exists s2,
    exec (createEntity svc fuel ctx params opts) s rs =
    Finished (Ok (transformed opts stored t)) s2 rest
      (tr1 ++
       [(ValidateParams ctx params (validateOpts svc opts "create" None a), Resolved p);
        (AdapterCall a insert [p], Resolved stored)] ++
       transform_trace opts a stored t ctx) /\
    same_but_events s1 s2
      (cache_notices svc c ctx "create" (transformed opts stored t) opts ++
       lifecycle_notices svc ctx "create" (transformed opts stored t) opts).
Proof.
  intros Hget. unfold exec, createEntity.
  rewrite run_bind, run_await_, Hget.
  rewrite run_bind, run_await by discriminate. cbn [after].
  rewrite run_bind, run_await by discriminate. cbn [after].
  rewrite run_bind.
  unfold transform_answers, transformed, transform_trace.
  destruct (wants_transform opts).
  - rewrite run_await by discriminate. cbn [app after].
    rewrite run_bind, run_await_.
    destruct (entityChanged_on_run svc c cache_on "create" t ctx opts s1 rest
                (((tr1 ++
                   [(ValidateParams ctx params (validateOpts svc opts "create" None a),
                     Resolved p)]) ++ [(AdapterCall a insert [p], Resolved stored)]) ++
                 [(TransformResult a stored (VObj []) ctx, Resolved t)]))
      as (s2 & Hrun & Hev).
    rewrite Hrun. rewrite run_ret. exists s2. split; [|exact Hev].
    rewrite <- !app_assoc. reflexivity.
  - rewrite run_ret. cbn [app].
    rewrite run_bind, run_await_.
    destruct (entityChanged_on_run svc c cache_on "create" stored ctx opts s1 rest
                ((tr1 ++
                  [(ValidateParams ctx params (validateOpts svc opts "create" None a),
                    Resolved p)]) ++ [(AdapterCall a insert [p], Resolved stored)]))
      as (s2 & Hrun & Hev).
    rewrite Hrun. rewrite run_ret. exists s2. split; [|exact Hev].
    rewrite <- !app_assoc. reflexivity.
Qed.

Lemma createEntity_refused ctx params opts s rs a s1 tr1 e rest :
  run (getAdapter svc fuel ctx s) rs [] =
  Finished (Ok a) s1 (Rejected e :: rest) tr1 ->
  exec (createEntity svc fuel ctx params opts) s rs =
  Finished (Err e) s1 rest
    (tr1 ++ [(ValidateParams ctx params (validateOpts svc opts "create" None a),
              Rejected e)]).
Proof.
  intros Hget. unfold exec, createEntity.
  rewrite run_bind, run_await_, Hget.
  rewrite run_bind, run_await by discriminate. reflexivity.
Qed.

Lemma createEntity_not_stored ctx params opts s rs a s1 tr1 p e rest :
  run (getAdapter svc fuel ctx s) rs [] =
  Finished (Ok a) s1 (Resolved p :: Rejected e :: rest) tr1 ->
  exec (createEntity svc fuel ctx params opts) s rs =
  Finished (Err e) s1 rest
    (tr1 ++ [(ValidateParams ctx params (validateOpts svc opts "create" None a),
              Resolved p);
             (AdapterCall a insert [p], Rejected e)]).
Proof.
  intros Hget. unfold exec, createEntity.
  rewrite run_bind, run_await_, Hget.
  rewrite run_bind, run_await by discriminate. cbn [after].
  rewrite run_bind, run_await by discriminate. cbn [after].
  rewrite <- app_assoc. reflexivity.
Qed.

End Create.

(** X10: [createEntity] with the cache on, once the adapter is there.  What the
    validation returns is what is inserted; the result is what the adapter
    stored, transformed unless [opts.transform] is false; the events are
    sent after the insertion and carry that result.  If the validation
    fails nothing is inserted, and if the insertion fails no event is sent:
    the call fails with that error. *)
Theorem create_validates_inserts_notifies :
  forall (svc : Service) (fuel : nat) (c : CacheOpts) (ctx params : value)
         (opts : obj) (s : State) (rs : list response) (a : adapter)
         (s1 : State) (tr1 : trace) (rest : list response),
    cacheOpts svc = Some c ->
    let validation := ValidateParams ctx params (validateOpts svc opts "create" None a) in
    let found answers :=
      run (getAdapter svc fuel ctx s) rs [] = Finished (Ok a) s1 (answers ++ rest) tr1 in
    let out := exec (createEntity svc fuel ctx params opts) s rs in
    (forall p stored t,
        found (Resolved p :: Resolved stored :: transform_answers opts t) ->
        exists s2,
          out = Finished (Ok (transformed opts stored t)) s2 rest
                  (tr1 ++ [(validation, Resolved p);
                           (AdapterCall a insert [p], Resolved stored)] ++
                   transform_trace opts a stored t ctx) /\
          same_but_events s1 s2
            (cache_notices svc c ctx "create" (transformed opts stored t) opts ++
             lifecycle_notices svc ctx "create" (transformed opts stored t) opts)) /\
    (forall e,
        found [Rejected e] ->
        out = Finished (Err e) s1 rest (tr1 ++ [(validation, Rejected e)])) /\
    (forall p e,
        found [Resolved p; Rejected e] ->
        out = Finished (Err e) s1 rest
                (tr1 ++ [(validation, Resolved p);
                         (AdapterCall a insert [p], Rejected e)])).
Proof.
  intros svc fuel c ctx params opts s rs a s1 tr1 rest Hon validation found out.
  subst validation found out. cbv beta. split; [|split].
  - intros p stored t Hget. simpl app in Hget.
    apply (createEntity_run svc fuel c Hon ctx params opts s rs a s1 tr1 p stored t
             rest Hget).
  - intros e Hget.
    apply (createEntity_refused svc fuel ctx params opts s rs a s1 tr1 e rest Hget).
  - intros p e Hget.
    apply (createEntity_not_stored svc fuel ctx params opts s rs a s1 tr1 p e rest Hget).
Qed.
(** ** What the write operations send to the adapter *)

(** The only call that changes the store is a call of [m]. *)
Definition only_changes_by (m : method) (c : call) : bool :=
  negb (is_mutation c) || calls_method m c.

(** The only calls that change the store are [updateById] and
    [replaceById], with an entity that has no property [n] and no property
    [col]. *)
Definition carries_no_id (n col : string) (c : call) : bool :=
  match c with
  | AdapterCall _ (updateById | replaceById) args =>
      match args with
      | id' :: VObj p :: _ =>
          negb (Obj.has n p) && negb (Obj.has col p)
      | _ => false
      end
  | AdapterCall _ (insert | insertMany | removeById | clear) _ => false
  | _ => true
  end.

Definition first_arg (c : call) : value :=
  match c with
  | AdapterCall _ _ (v :: _) => v
  | _ => VUndefined
  end.

Section WriteFootprints.

Variable svc : Service.
Variable fuel : nat.

Let T := fun _ : State => True.

Lemma T_after (c : call) (s : State) : T s -> T (after c s).
Proof. intros _. exact Logic.I. Qed.

Lemma entityChanged_footprint P type data ctx opts :
  Sat P T (fun _ => True) (_entityChanged svc type data ctx opts).
Proof.
  unfold _entityChanged, entityChanged, emit. sat.
  all: apply Sat_modify; intros; exact Logic.I.
Qed.

Lemma getAdapter_footprint P ctx :
  (forall c, is_lookup_call c = true -> P c) ->
  Sat P T (fun _ => True) (getAdapter svc fuel ctx).
Proof.
  intros HP. eapply Sat_calls_weaken; [exact HP|].
  apply (getAdapter_lookup_calls svc fuel (fun _ => True)).
Qed.

Lemma resolveEntities_footprint P ctx params opts :
  (forall c, is_lookup_call c = true -> P c) ->
  Sat P T (fun _ => True) (resolveEntities svc fuel ctx params opts).
Proof.
  intros HP. eapply Sat_calls_weaken; [exact HP|].
  apply (resolveEntities_calls svc fuel (fun _ => True)).
Qed.

Lemma getID_footprint P params :
  Sat P T (fun id => id = Obj.get (name (primaryField svc)) params)
      (_getIDFromParams svc params).
Proof.
  unfold _getIDFromParams.
  destruct (is_nullish _); [apply Sat_throw | apply Sat_ret; reflexivity].
Qed.

Lemma lookup_changes_nothing m c :
  is_lookup_call c = true -> only_changes_by m c = true.
Proof.
  intros H. unfold only_changes_by. rewrite (lookup_no_mutation c H). reflexivity.
Qed.

(** [removeEntity]: the one call that changes the store, and the result. *)
Lemma removeEntity_footprint ctx params opts :
  Sat (fun c => only_changes_by
                  (if softDelete svc then updateById else removeById) c = true)
      T (fun r => r = Obj.get (name (primaryField svc)) params)
      (removeEntity svc fuel ctx params opts).
Proof.
  unfold removeEntity.
  eapply Sat_bind; [apply getID_footprint|]. intros id ->.
  eapply Sat_bind with (Q1 := fun _ => True).
  { apply Sat_await_. apply resolveEntities_footprint.
    intros c Hc. apply lookup_changes_nothing. exact Hc. }
  intros entity _.
  eapply Sat_bind with (Q1 := fun _ => True).
  { apply Sat_await_. apply getAdapter_footprint.
    intros c Hc. apply lookup_changes_nothing. exact Hc. }
  intros a _.
  eapply Sat_bind with (Q1 := fun _ => True); [apply Sat_await; reflexivity|].
  intros p _.
  eapply Sat_bind with (Q1 := fun _ => True).
  { destruct (softDelete svc).
    - apply Sat_await. reflexivity.
    - eapply Sat_bind with (Q1 := fun _ => True); [apply Sat_await; reflexivity|].
      intros _ _. apply Sat_ret. exact Logic.I. }
  intros entity' _.
  eapply Sat_bind with (Q1 := fun _ => True).
  { destruct (wants_transform opts);
      [apply Sat_await; reflexivity | apply Sat_ret; exact Logic.I]. }
  intros entity'' _.
  eapply Sat_bind with (Q1 := fun _ => True).
  { apply Sat_await_. apply entityChanged_footprint. }
  intros _ _. apply Sat_ret. reflexivity.
Qed.

Lemma has_delete_same k (o : obj) : Obj.has k (Obj.delete k o) = false.
Proof.
  induction o as [|[k' v] o IH]; simpl; [reflexivity|].
  destruct (String.eqb k k') eqn:E; [exact IH|]. simpl. rewrite E. exact IH.
Qed.

Lemma has_delete_other k k' (o : obj) :
  Obj.has k o = false -> Obj.has k (Obj.delete k' o) = false.
Proof.
  induction o as [|[k0 v] o IH]; simpl; [reflexivity|].
  intros H. apply orb_false_iff in H. destruct H as [H1 H2].
  destruct (String.eqb k' k0); [apply IH; exact H2|].
  simpl. rewrite H1. apply IH. exact H2.
Qed.

Lemma lookup_carries_no_id n col c :
  is_lookup_call c = true -> carries_no_id n col c = true.
Proof.
  destruct c as [| | a m args | | | | | |]; try reflexivity.
  destruct m; try reflexivity; discriminate.
Qed.

Lemma updateEntity_footprint ctx params opts :
  let id := _sanitizeID svc (Obj.get (name (primaryField svc)) params) opts in
  let P c := carries_no_id (name (primaryField svc))
               (columnName (primaryField svc)) c = true /\
             (is_mutation c = true -> first_arg c = id) in
  Sat P T (fun _ => True) (updateEntity svc fuel ctx params opts).
Proof.
  intros id P.
  assert (Hlookup : forall c, is_lookup_call c = true -> P c).
  { intros c Hc. split; [apply lookup_carries_no_id; exact Hc|].
    rewrite (lookup_no_mutation c Hc). discriminate. }
  assert (Hother : forall c, is_mutation c = false ->
                             carries_no_id (name (primaryField svc))
                               (columnName (primaryField svc)) c = true ->
                             P c).
  { intros c Hm Hc. split; [exact Hc | rewrite Hm; discriminate]. }
  unfold updateEntity.
  eapply Sat_bind with (Q1 := fun _ => True).
  { apply Sat_await_. apply getAdapter_footprint. exact Hlookup. }
  intros a _.
  eapply Sat_bind; [apply getID_footprint|]. intros id0 ->.
  eapply Sat_bind with (Q1 := fun _ => True).
  { apply Sat_await_. apply resolveEntities_footprint. exact Hlookup. }
  intros old _.
  eapply Sat_bind with (Q1 := fun _ => True).
  { destruct (negb (is_true (Obj.get "raw" opts))).
    - eapply Sat_bind with (Q1 := fun _ => True).
      + apply Sat_await. apply Hother; reflexivity.
      + intros v _. unfold expect_obj. destruct v; sat.
    - apply Sat_ret. exact Logic.I. }
  intros p _. cbv zeta.
  eapply Sat_bind with (Q1 := fun _ => True).
  { destruct (0 <? _).
    - apply Sat_await. split.
      + simpl. rewrite has_delete_same.
        rewrite has_delete_other by apply has_delete_same. reflexivity.
      + intros _. reflexivity.
    - apply Sat_ret. exact Logic.I. }
  intros result _.
  eapply Sat_bind with (Q1 := fun _ => True).
  { destruct (wants_transform opts);
      [apply Sat_await; apply Hother; reflexivity | apply Sat_ret; exact Logic.I]. }
  intros result' _.
  eapply Sat_bind with (Q1 := fun _ => True).
  { destruct (0 <? _); [|apply Sat_ret; exact Logic.I].
    apply Sat_await_. apply entityChanged_footprint. }
  intros _ _. apply Sat_ret. exact Logic.I.
Qed.

Lemma replaceEntity_footprint ctx params opts :
  let id := _sanitizeID svc (Obj.get (name (primaryField svc)) params) opts in
  let P c := carries_no_id (name (primaryField svc))
               (columnName (primaryField svc)) c = true /\
             (is_mutation c = true -> first_arg c = id) in
  Sat P T (fun _ => True) (replaceEntity svc fuel ctx params opts).
Proof.
  intros id P.
  assert (Hlookup : forall c, is_lookup_call c = true -> P c).
  { intros c Hc. split; [apply lookup_carries_no_id; exact Hc|].
    rewrite (lookup_no_mutation c Hc). discriminate. }
  assert (Hother : forall c, is_mutation c = false ->
                             carries_no_id (name (primaryField svc))
                               (columnName (primaryField svc)) c = true ->
                             P c).
  { intros c Hm Hc. split; [exact Hc | rewrite Hm; discriminate]. }
  unfold replaceEntity.
  eapply Sat_bind; [apply getID_footprint|]. intros id0 ->.
  eapply Sat_bind with (Q1 := fun _ => True).
  { apply Sat_await_. apply resolveEntities_footprint. exact Hlookup. }
  intros old _.
  eapply Sat_bind with (Q1 := fun _ => True).
  { apply Sat_await_. apply getAdapter_footprint. exact Hlookup. }
  intros a _.
  eapply Sat_bind with (Q1 := fun _ => True).
  { apply Sat_await. apply Hother; reflexivity. }
  intros v _.
  eapply Sat_bind with (Q1 := fun _ => True).
  { unfold expect_obj. destruct v; sat. }
  intros p _. cbv zeta.
  eapply Sat_bind with (Q1 := fun _ => True).
  { apply Sat_await. split; [|intros _; reflexivity]. simpl.
    destruct (String.eqb (columnName (primaryField svc)) (name (primaryField svc)))
      eqn:E; cbn [negb].
    - apply String.eqb_eq in E. rewrite <- E. rewrite has_delete_same. reflexivity.
    - rewrite has_delete_same.
      rewrite has_delete_other by apply has_delete_same. reflexivity. }
  intros result _.
  eapply Sat_bind with (Q1 := fun _ => True).
  { destruct (wants_transform opts);
      [apply Sat_await; apply Hother; reflexivity | apply Sat_ret; exact Logic.I]. }
  intros result' _.
  eapply Sat_bind with (Q1 := fun _ => True).
  { apply Sat_await_. apply entityChanged_footprint. }
  intros _ _. apply Sat_ret. exact Logic.I.
Qed.

End WriteFootprints.
(** X14: [removeEntity] changes the store by one method only: [updateById] when
    the service deletes softly, [removeById] when it does not.  What it
    returns is the identifier as the caller gave it. *)
Theorem remove_deletes_one_way :
  forall (svc : Service) (fuel : nat) (ctx : value) (params opts : obj)
         (s : State) (rs : list response),
    let out := exec (removeEntity svc fuel ctx params opts) s rs in
    (forall c r,
        In (c, r) (trace_of out) -> is_mutation c = true ->
        calls_method (if softDelete svc then updateById else removeById) c = true) /\
    (forall r, result_of out = Some (Ok r) ->
               r = Obj.get (name (primaryField svc)) params).
Proof.
  intros svc fuel ctx params opts s rs out. subst out. unfold exec.
  destruct (sat_stage _ _ _ (removeEntity svc fuel ctx params opts) s rs []
              (fun _ _ _ => Logic.I)
              (removeEntity_footprint svc fuel ctx params opts) Logic.I)
    as (evs & HP & Ht & _ & HQ).
  split; [|exact HQ].
  intros c r Hin Hm. rewrite Ht in Hin. simpl in Hin.
  rewrite Forall_forall in HP. specialize (HP _ Hin). simpl in HP.
  unfold only_changes_by in HP. rewrite Hm in HP. exact HP.
Qed.

(** X13: [updateEntity] and [replaceEntity] change the store by [updateById] or
    [replaceById] only; the identifier goes first, as [_sanitizeID] gives
    it, and the entity that follows has the identifier neither under the
    name of the primary field nor under its column. *)
Theorem writes_carry_no_identifier :
  forall (svc : Service) (fuel : nat) (op : guarded) (ctx : value)
         (params opts : obj) (s : State) (rs : list response)
         (a : adapter) (m : method) (args : list value) (r : response),
    op <> Remove ->
    In (AdapterCall a m args, r)
       (trace_of (exec (perform svc fuel op ctx params opts) s rs)) ->
    is_mutation (AdapterCall a m args) = true ->
    (m = updateById \/ m = replaceById) /\
    exists p rest,
      args = _sanitizeID svc (Obj.get (name (primaryField svc)) params) opts
               :: VObj p :: rest /\
      Obj.has (name (primaryField svc)) p = false /\
      Obj.has (columnName (primaryField svc)) p = false.
Proof.
  intros svc fuel op ctx params opts s rs a m args r Hop Hin Hm.
  assert (HP : carries_no_id (name (primaryField svc))
                 (columnName (primaryField svc)) (AdapterCall a m args) = true /\
               (is_mutation (AdapterCall a m args) = true ->
                first_arg (AdapterCall a m args) =
                _sanitizeID svc (Obj.get (name (primaryField svc)) params) opts)).
  { unfold exec in Hin. destruct op; [| |congruence]; simpl perform in Hin.
    - destruct (sat_stage _ _ _ (updateEntity svc fuel ctx params opts) s rs []
                  (fun _ _ _ => Logic.I)
                  (updateEntity_footprint svc fuel ctx params opts) Logic.I)
        as (evs & HP & Ht & _ & _).
      rewrite Ht in Hin. simpl in Hin.
      rewrite Forall_forall in HP. exact (HP _ Hin).
    - destruct (sat_stage _ _ _ (replaceEntity svc fuel ctx params opts) s rs []
                  (fun _ _ _ => Logic.I)
                  (replaceEntity_footprint svc fuel ctx params opts) Logic.I)
        as (evs & HP & Ht & _ & _).
      rewrite Ht in Hin. simpl in Hin.
      rewrite Forall_forall in HP. exact (HP _ Hin). }
  destruct HP as [Hc Hid]. specialize (Hid Hm).
  destruct m; try discriminate; simpl in Hc;
    (split; [auto|]);
    destruct args as [|id' [|[| | | | | |p|] rest]]; try discriminate;
    simpl in Hid; subst id';
    apply andb_true_iff in Hc; destruct Hc as [H1 H2];
    apply negb_true_iff in H1; apply negb_true_iff in H2;
    exists p, rest; auto.
Qed.

(** X8: without an identifier in the parameters nothing is looked up and
    nothing is changed: [resolveEntities], [replaceEntity] and
    [removeEntity] fail at once with [MISSING_ID], and [updateEntity] does
    as soon as it has its adapter. *)
Theorem missing_id_is_refused :
  forall (svc : Service) (fuel : nat) (ctx : value) (params opts : obj)
         (s : State) (rs : list response),
    is_nullish (Obj.get (name (primaryField svc)) params) = true ->
    let e := MoleculerClientError "Missing id field." 400 "MISSING_ID"
               [("params", VObj params)] in
    exec (resolveEntities svc fuel ctx params opts) s rs = Finished (Err e) s rs [] /\
    exec (replaceEntity svc fuel ctx params opts) s rs = Finished (Err e) s rs [] /\
    exec (removeEntity svc fuel ctx params opts) s rs = Finished (Err e) s rs [] /\
    exec (updateEntity svc fuel ctx params opts) s rs =
    match exec (getAdapter svc fuel ctx) s rs with
    | Finished (Ok _) s1 rs1 tr1 => Finished (Err e) s1 rs1 tr1
    | Finished (Err x) s1 rs1 tr1 => Finished (Err x) s1 rs1 tr1
    | Finished OutOfFuel s1 rs1 tr1 => Finished OutOfFuel s1 rs1 tr1
    | Suspended c s1 tr1 => Suspended c s1 tr1
    end.
Proof.
  intros svc fuel ctx params opts s rs Hnull e. unfold exec.
  assert (Hid : forall s0 rs0 tr0,
             run (_getIDFromParams svc params s0) rs0 tr0 =
             Finished (Err e) s0 rs0 tr0).
  { intros. unfold _getIDFromParams. rewrite Hnull. reflexivity. }
  split; [|split; [|split]].
  - unfold resolveEntities. rewrite run_bind, Hid. reflexivity.
  - unfold replaceEntity. rewrite run_bind, Hid. reflexivity.
  - unfold removeEntity. rewrite run_bind, Hid. reflexivity.
  - unfold updateEntity. rewrite run_bind, run_await_.
    destruct (run (getAdapter svc fuel ctx s) rs []) as [[a|x|] s1 rs1 tr1|c s1 tr1];
      try reflexivity.
    rewrite run_bind, Hid. reflexivity.
Qed.
(** ** What [resolveEntities] returns without [mapping] *)

Lemma resolve_plain_returns svc fuel ctx params opts s rs a p s1 tr1
      docs hv ts rest :
  is_true (Obj.get "mapping" params) = false ->
  run (resolve_prepare svc fuel ctx params opts s) rs [] =
  Finished (Ok (a, p)) s1
           (Resolved (VArr docs) :: found_answers svc opts hv ts ++ rest) tr1 ->
  docs <> [] ->
  (wants_transform opts = false -> ts = docs) ->
  exists tr2,
    exec (resolveEntities svc fuel ctx params opts) s rs =
    Finished (Ok (if is_multi svc params then VArr ts else nth O ts VUndefined))
             s1 rest tr2 /\
    In (AdapterCall a find [VObj p], Resolved (VArr docs)) tr2.
Proof.
  intros Hmap Hprep Hne Hts.
  unfold exec. rewrite resolveEntities_phases. rewrite run_bind.
  destruct (sat_stage _ _ _ (resolve_prepare svc fuel ctx params opts) s rs []
              (I_after (fun x => x = emitted s))
              (resolve_prepare_calls svc fuel (fun x => x = emitted s) ctx params opts)
              eq_refl)
    as (_ & _ & _ & _ & HQ0).
  rewrite Hprep in *. specialize (HQ0 _ eq_refl). simpl in HQ0.
  assert (Hmap1 : is_true (Obj.get "mapping" p) = false).
  { rewrite HQ0 by (repeat split; discriminate). exact Hmap. }
  clear HQ0.
  rewrite run_bind, run_await by discriminate.
  cbn [fst snd after]. unfold resolve_found. rewrite Hmap1.
  assert (Hsome : no_result (VArr docs) = false)
    by (destruct docs; [contradiction | reflexivity]).
  rewrite Hsome. rewrite run_bind.
  rewrite optional_await_run by discriminate.
  unfold found_answers.
  set (tr2 := tr1 ++ [(AdapterCall a find [VObj p], Resolved (VArr docs))]).
  assert (Hin : In (AdapterCall a find [VObj p], Resolved (VArr docs)) tr2).
  { apply in_or_app. right. left. reflexivity. }
  clearbody tr2.
  assert (Hend : forall s2 tr3,
             In (AdapterCall a find [VObj p], Resolved (VArr docs)) tr3 ->
             exists tr4,
               run ((result' <- (if wants_transform opts
                                 then await (TransformResult a (VArr docs) (VObj p) ctx)
                                 else ret (VArr docs)) ;;
                     if negb (is_multi svc params) then get_member_index result'
                     else ret result') s2)
                   ((if wants_transform opts then [Resolved (VArr ts)] else []) ++ rest)
                   tr3 =
               Finished (Ok (if is_multi svc params then VArr ts
                             else nth O ts VUndefined)) s2 rest tr4 /\
               In (AdapterCall a find [VObj p], Resolved (VArr docs)) tr4).
  { intros s2 tr3 Hin3. rewrite run_bind.
    destruct (wants_transform opts).
    - rewrite run_await by discriminate. cbn [app after].
      destruct (is_multi svc params); cbn [negb];
        eexists; (split; [reflexivity|]); apply in_or_app; left; exact Hin3.
    - rewrite (Hts eq_refl) in *. rewrite run_ret. cbn [app].
      destruct (is_multi svc params); cbn [negb];
        eexists; (split; [reflexivity|]); exact Hin3. }
  destruct (has_hook svc "afterResolveEntities"); cbn [app]; rewrite <- ?app_assoc.
  - cbn [after]. apply Hend. apply in_or_app. left. exact Hin.
  - apply Hend. exact Hin.
Qed.

(** X9: [resolveEntities] without [mapping], when [adapter.find] has found
    entities: for a single identifier the result is the first of the
    transformed entities, for a list of identifiers it is the list of them
    (the entities as found if [opts.transform] is false). *)
Theorem resolve_returns_first_or_all :
  forall (svc : Service) (fuel : nat) (ctx : value) (params opts : obj)
         (s : State) (rs : list response) (a : adapter) (p : obj) (s1 : State)
         (tr1 : trace) (docs : list value) (hv : value) (ts : list value)
         (rest : list response),
    is_true (Obj.get "mapping" params) = false ->
    run (resolve_prepare svc fuel ctx params opts s) rs [] =
    Finished (Ok (a, p)) s1
             (Resolved (VArr docs) :: found_answers svc opts hv ts ++ rest) tr1 ->
    docs <> [] ->
    (wants_transform opts = false -> ts = docs) ->
    exists tr2,
      exec (resolveEntities svc fuel ctx params opts) s rs =
      Finished (Ok (match Obj.get (name (primaryField svc)) params with
                    | VArr _ => VArr ts
                    | _ => nth O ts VUndefined
                    end)) s1 rest tr2 /\
      In (AdapterCall a find [VObj p], Resolved (VArr docs)) tr2.
Proof.
  intros svc fuel ctx params opts s rs a p s1 tr1 docs hv ts rest Hmap Hprep Hne Hts.
  destruct (resolve_plain_returns svc fuel ctx params opts s rs a p s1 tr1 docs hv
              ts rest Hmap Hprep Hne Hts) as (tr2 & Hrun & Hin).
  exists tr2. split; [|exact Hin]. rewrite Hrun.
  unfold is_multi, requested_id.
  destruct (Obj.get (name (primaryField svc)) params); reflexivity.
Qed.
(** ** [createEntities], step by step *)

Section CreateMany.

Variable svc : Service.
Variable fuel : nat.
Variable c : CacheOpts.
Hypothesis cache_on : cacheOpts svc = Some c.

(** The validations of [createEntities]: one for each entity, in order. *)
Definition validations (ctx : value) (o : obj) (params vs : list value) : trace :=
  map (fun ev => (ValidateParams ctx (fst ev) o, Resolved (snd ev)))
      (combine params vs).

Lemma validate_all_run ctx o (params : list value) :
  forall vs s rs tr,
    List.length vs = List.length params ->
    run (allM (fun entity => await (ValidateParams ctx entity o)) params s)
        (map Resolved vs ++ rs) tr =
    Finished (Ok vs) s rs (tr ++ validations ctx o params vs).
Proof.
  induction params as [|e params IH]; intros vs s rs tr Hlen; simpl allM.
  - destruct vs; [|discriminate]. rewrite run_ret.
    unfold validations. simpl. rewrite app_nil_r. reflexivity.
  - destruct vs as [|v vs]; [discriminate|]. simpl in Hlen.
    rewrite run_bind. unfold settle, try_catch.
    rewrite run_catchR, run_bind, run_await by discriminate.
    simpl map. simpl app. cbv beta iota. cbn [after].
    rewrite run_ret. cbv beta iota.
    rewrite run_bind. rewrite IH by lia. rewrite run_ret.
    unfold validations. simpl. rewrite <- app_assoc. reflexivity.
Qed.

(** [createEntities] transforms what [insertMany] gives only when the
    entities are to be returned. *)
Definition many_transformed (opts : obj) : bool :=
  truthy (Obj.get "returnEntities" opts) && wants_transform opts.

Lemma createEntities_run ctx params opts s rs a s1 tr1 vs stored t rest :
  List.length vs = List.length params ->
  run (getAdapter svc fuel ctx s) rs [] =
  Finished (Ok a) s1
           (map Resolved vs ++
            Resolved stored ::
            (if many_transformed opts then [Resolved t] else []) ++ rest) tr1 ->
  let result := if many_transformed opts then t else stored in
  let batch := Obj.set "batch" (VBool true) opts in
  exists s2,
    exec (createEntities svc fuel ctx params opts) s rs =
    Finished (Ok result) s2 rest
      (tr1 ++ validations ctx (validateOpts svc opts "create" None a) params vs ++
       [(AdapterCall a insertMany
           [VArr vs; VObj [("returnEntities", Obj.get "returnEntities" opts)]],
         Resolved stored)] ++
       (if many_transformed opts
        then [(TransformResult a stored (VObj []) ctx, Resolved t)] else [])) /\
    same_but_events s1 s2
      (cache_notices svc c ctx "create" result batch ++
       lifecycle_notices svc ctx "create" result batch).
Proof.
  intros Hlen Hget result batch. subst result batch.
  unfold exec, createEntities.
  rewrite run_bind, run_await_, Hget.
  rewrite run_bind. rewrite validate_all_run by exact Hlen.
  rewrite run_bind, run_await by discriminate. cbn [after].
  rewrite run_bind. unfold many_transformed.
  destruct (truthy (Obj.get "returnEntities" opts) && wants_transform opts).
  - rewrite run_await by discriminate. cbn [app after].
    rewrite run_bind, run_await_.
    match goal with
    | |- context [run (_entityChanged svc ?ty ?d ?cx ?o ?s0) ?rs0 ?tr0] =>
        destruct (entityChanged_on_run svc c cache_on ty d cx o s0 rs0 tr0)
          as (s2 & Hrun & Hev)
    end.
    rewrite Hrun. rewrite run_ret. exists s2. split; [|exact Hev].
    rewrite <- !app_assoc. reflexivity.
  - rewrite run_ret. cbn [app].
    rewrite run_bind, run_await_.
    match goal with
    | |- context [run (_entityChanged svc ?ty ?d ?cx ?o ?s0) ?rs0 ?tr0] =>
        destruct (entityChanged_on_run svc c cache_on ty d cx o s0 rs0 tr0)
          as (s2 & Hrun & Hev)
    end.
    rewrite Hrun. rewrite run_ret. exists s2. split; [|exact Hev].
    rewrite <- !app_assoc. reflexivity.
Qed.

End CreateMany.

(** X11: [createEntities] with the cache on, once the adapter is there and when
    every validation passes: each entity is validated, and what the
    validations return is inserted in one [insertMany], in the order
    given.  What [insertMany] gives is transformed only if
    [opts.returnEntities] is set (and [opts.transform] is not false).  The
    events carry the result and [batch: true]. *)
Theorem create_many_inserts_in_order :
  forall (svc : Service) (fuel : nat) (c : CacheOpts) (ctx : value)
         (params : list value) (opts : obj) (s : State) (rs : list response)
         (a : adapter) (s1 : State) (tr1 : trace) (vs : list value)
         (stored t : value) (rest : list response),
    cacheOpts svc = Some c ->
    List.length vs = List.length params ->
    run (getAdapter svc fuel ctx s) rs [] =
    Finished (Ok a) s1
             (map Resolved vs ++
              Resolved stored ::
              (if many_transformed opts then [Resolved t] else []) ++ rest) tr1 ->
    let result := if many_transformed opts then t else stored in
    let batch := Obj.set "batch" (VBool true) opts in
    exists s2,
      exec (createEntities svc fuel ctx params opts) s rs =
      Finished (Ok result) s2 rest
        (tr1 ++ validations ctx (validateOpts svc opts "create" None a) params vs ++
         [(AdapterCall a insertMany
             [VArr vs; VObj [("returnEntities", Obj.get "returnEntities" opts)]],
           Resolved stored)] ++
         (if many_transformed opts
          then [(TransformResult a stored (VObj []) ctx, Resolved t)] else [])) /\
      same_but_events s1 s2
        (cache_notices svc c ctx "create" result batch ++
         lifecycle_notices svc ctx "create" result batch).
Proof.
  intros svc fuel c ctx params opts s rs a s1 tr1 vs stored t rest Hon Hlen Hget.
  apply (createEntities_run svc fuel c Hon ctx params opts s rs a s1 tr1 vs stored t
           rest Hlen Hget).
Qed.
(** ** [updateEntity] with changes, and [clearEntities] *)

Section UpdateAndClear.

Variable svc : Service.
Variable fuel : nat.
Variable c : CacheOpts.
Hypothesis cache_on : cacheOpts svc = Some c.

Lemma update_apply_changes ctx opts a id old p s1 stored t rest tr1 :
  strip svc p <> [] ->
  exists s2,
    run (update_apply svc ctx opts a id old p s1)
        (Resolved stored :: transform_answers opts t ++ rest) tr1 =
    Finished (Ok (transformed opts stored t)) s2 rest
      (tr1 ++
       [(AdapterCall a updateById
           [_sanitizeID svc id opts; VObj (strip svc p);
            VObj [("raw", VBool (is_true (Obj.get "raw" opts)))]],
         Resolved stored)] ++
       transform_trace opts a stored t ctx) /\
    same_but_events s1 s2
      (cache_notices svc c ctx "update" (transformed opts stored t) opts ++
       lifecycle_notices svc ctx "update" (transformed opts stored t) opts).
Proof.
  intros Hp. unfold update_apply. fold (strip svc p).
  assert (Hchanges : (0 <? Z.of_nat (List.length (Obj.keys (strip svc p)))) = true).
  { apply Z.ltb_lt. unfold Obj.keys. rewrite length_map.
    destruct (strip svc p); [contradiction | simpl; lia]. }
  rewrite Hchanges.
  rewrite run_bind, run_await by discriminate. cbn [after].
  rewrite run_bind.
  unfold transform_answers, transformed, transform_trace.
  destruct (wants_transform opts).
  - rewrite run_await by discriminate. cbn [app after].
    rewrite run_bind, run_await_.
    match goal with
    | |- context [run (_entityChanged svc ?ty ?d ?cx ?o ?s0) ?rs0 ?tr0] =>
        destruct (entityChanged_on_run svc c cache_on ty d cx o s0 rs0 tr0)
          as (s2 & Hrun & Hev)
    end.
    rewrite Hrun. rewrite run_ret. exists s2. split; [|exact Hev].
    rewrite <- !app_assoc. reflexivity.
  - rewrite run_ret. cbn [app].
    rewrite run_bind, run_await_.
    match goal with
    | |- context [run (_entityChanged svc ?ty ?d ?cx ?o ?s0) ?rs0 ?tr0] =>
        destruct (entityChanged_on_run svc c cache_on ty d cx o s0 rs0 tr0)
          as (s2 & Hrun & Hev)
    end.
    rewrite Hrun. rewrite run_ret. exists s2. split; [|exact Hev].
    reflexivity.
Qed.

Lemma clearEntities_run ctx params s rs a s1 tr1 answer rest :
  run (getAdapter svc fuel ctx s) rs [] = Finished (Ok a) s1 (answer :: rest) tr1 ->
  match answer with
  | Resolved result =>
      exists s2,
        exec (clearEntities svc fuel ctx params) s rs =
        Finished (Ok result) s2 rest
                 (tr1 ++ [(AdapterCall a clear [params], Resolved result)]) /\
        same_but_events s1 s2
          (cache_notices svc c ctx "clear" VNull [] ++
           lifecycle_notices svc ctx "clear" VNull [])
  | Rejected e =>
      exec (clearEntities svc fuel ctx params) s rs =
      Finished (Err e) s1 rest (tr1 ++ [(AdapterCall a clear [params], Rejected e)])
  end.
Proof.
  intros Hget. unfold exec, clearEntities.
  rewrite run_bind, run_await_, Hget.
  rewrite run_bind, run_await by discriminate.
  destruct answer as [result|e]; cbn [after]; [|reflexivity].
  rewrite run_bind, run_await_.
  match goal with
  | |- context [run (_entityChanged svc ?ty ?d ?cx ?o ?s0) ?rs0 ?tr0] =>
      destruct (entityChanged_on_run svc c cache_on ty d cx o s0 rs0 tr0)
        as (s2 & Hrun & Hev)
  end.
  rewrite Hrun. rewrite run_ret. exists s2. split; [reflexivity | exact Hev].
Qed.

End UpdateAndClear.

(** X12: [updateEntity] with something to change, with the cache on, once the
    entity is looked up and the parameters are validated: [updateById] gets
    the identifier as [_sanitizeID] gives it, the parameters without the
    identifier fields, and the [raw] flag; the result is what the adapter
    answers, transformed unless [opts.transform] is false, and the events
    carry it. *)
Theorem update_applies_changes :
  forall (svc : Service) (fuel : nat) (c : CacheOpts) (ctx : value)
         (params opts : obj) (s : State) (rs : list response)
         (a : adapter) (id old : value) (p : obj) (s1 : State) (tr1 : trace)
         (stored t : value) (rest : list response),
    cacheOpts svc = Some c ->
    run (update_lookup svc fuel ctx opts params s) rs [] =
    Finished (Ok (a, id, old, p)) s1
             (Resolved stored :: transform_answers opts t ++ rest) tr1 ->
    strip svc p <> [] ->
    exists s2,
      exec (updateEntity svc fuel ctx params opts) s rs =
      Finished (Ok (transformed opts stored t)) s2 rest
        (tr1 ++
         [(AdapterCall a updateById
             [_sanitizeID svc id opts; VObj (strip svc p);
              VObj [("raw", VBool (is_true (Obj.get "raw" opts)))]],
           Resolved stored)] ++
         transform_trace opts a stored t ctx) /\
      same_but_events s1 s2
        (cache_notices svc c ctx "update" (transformed opts stored t) opts ++
         lifecycle_notices svc ctx "update" (transformed opts stored t) opts).
Proof.
  intros svc fuel c ctx params opts s rs a id old p s1 tr1 stored t rest
         Hon Hlookup Hp.
  unfold exec. rewrite updateEntity_lookup, Hlookup.
  apply (update_apply_changes svc c Hon ctx opts a id old p s1 stored t rest tr1 Hp).
Qed.

(** X15: [clearEntities] with the cache on, once the adapter is there: it
    returns what [adapter.clear] answers and sends the events for [clear]
    (the lifecycle event is [<service>.cleared]), without data and with
    empty options; if [adapter.clear] fails no event is sent. *)
Theorem clear_notifies :
  forall (svc : Service) (fuel : nat) (c : CacheOpts) (ctx params : value)
         (s : State) (rs : list response) (a : adapter) (s1 : State)
         (tr1 : trace) (answer : response) (rest : list response),
    cacheOpts svc = Some c ->
    run (getAdapter svc fuel ctx s) rs [] = Finished (Ok a) s1 (answer :: rest) tr1 ->
    match answer with
    | Resolved result =>
        exists s2,
          exec (clearEntities svc fuel ctx params) s rs =
          Finished (Ok result) s2 rest
                   (tr1 ++ [(AdapterCall a clear [params], Resolved result)]) /\
          same_but_events s1 s2
            (cache_notices svc c ctx "clear" VNull [] ++
             lifecycle_notices svc ctx "clear" VNull [])
    | Rejected e =>
        exec (clearEntities svc fuel ctx params) s rs =
        Finished (Err e) s1 rest
                 (tr1 ++ [(AdapterCall a clear [params], Rejected e)])
    end.
Proof.
  intros svc fuel c ctx params s rs a s1 tr1 answer rest Hon Hget.
  apply (clearEntities_run svc fuel c Hon ctx params s rs a s1 tr1 answer rest Hget).
Qed.
(** * The added theorems at work *)

(** The example service with the cache on, as [mixinOpts.cache] is by
    default. *)
Definition cache_on_opts : CacheOpts := mkCacheOpts true VUndefined (VStr "broadcast").

Lemma memo_ok_nil svc : memo_ok svc [].
Proof. intros k v H. discriminate. Defined.

Lemma column_memo_is_transparent_witness :
  exists s',
    _getColumnNameFromFieldName example "fullName" s0 = Done (Ok "full_name") s' /\
    memo_ok example (cacheColumnName s') /\
    same_but_memo s0 s'.
Proof.
  exact (column_memo_is_transparent example "fullName" s0 (memo_ok_nil example)).
Defined.

Lemma sort_fields_are_translated_witness :
  exists s',
    _sortFieldNameConversion example
      (VArr [VStr "-fullName"; VStr "address"; VStr "votes"]) s0 =
    Done (Ok (VArr [VStr "-full_name"; VStr "addr"; VStr "votes"])) s' /\
    memo_ok example (cacheColumnName s') /\
    same_but_memo s0 s'.
Proof.
  exact (sort_fields_are_translated example
           [VStr "-fullName"; VStr "address"; VStr "votes"] s0
           (memo_ok_nil example) eq_refl).
Defined.

Lemma query_keys_are_translated_witness :
  exists s',
    _queryFieldNameConversion example
      (VObj [("fullName", VStr "Ann"); ("address", VObj [("fullName", VStr "x")])])
      true s0 =
    Done (Ok [("full_name", VStr "Ann"); ("addr", VObj [("fullName", VStr "x")])]) s' /\
    memo_ok example (cacheColumnName s') /\
    same_but_memo s0 s'.
Proof.
  apply (query_keys_are_translated example true
           [("fullName", VStr "Ann"); ("address", VObj [("fullName", VStr "x")])] s0
           (memo_ok_nil example)).
  - vm_compute. repeat constructor; simpl; intuition discriminate.
  - vm_compute. intuition discriminate.
Defined.

Lemma filtered_scopes_are_allowed_witness :
  exists tr',
    exec (_filterScopeNamesByPermission example VNull
            ["constructor"; "onlyActive"; "unknown"]) s0
         [Resolved (VBool true); Resolved (VBool true)] =
    Finished (Ok ["constructor"; "onlyActive"]) s0 [] tr' /\
    forall n, In n ["constructor"; "onlyActive"] ->
      In n ["constructor"; "onlyActive"; "unknown"] /\
      exists sc a,
        scope_of n (scopes example ++ inheritedScopes example) = Some sc /\
        In (CheckScopeAuthority VNull (Some n) (Some sc), Resolved a) tr' /\
        truthy a = true.
Proof.
  eexists. split; [reflexivity|].
  exact (proj2 (filtered_scopes_are_allowed example VNull
                  ["constructor"; "onlyActive"; "unknown"] s0
                  [Resolved (VBool true); Resolved (VBool true)]
                  ["constructor"; "onlyActive"] s0 [] _ eq_refl)).
Defined.

Lemma named_scopes_replace_defaults_witness :
  exec (_applyScopes example [("scope", VStr "onlyActive")] VNull) s0
       [Resolved (VBool true)] =
  Finished
    (Ok [("scope", VStr "onlyActive"); ("query", VObj [("active", VBool true)])])
    s0 []
    [(CheckScopeAuthority VNull (Some "onlyActive")
        (Some (StaticScope [("active", VBool true)])), Resolved (VBool true))].
Proof.
  exact (proj1 (named_scopes_replace_defaults example VNull
                  [("scope", VStr "onlyActive")] s0 [VBool true] [] eq_refl eq_refl)).
Defined.

Lemma falsy_scope_means_defaults_witness :
  exec (_applyScopes example [("scope", VNull)] VNull) s0
       [Resolved (VBool true)] =
  Finished
    (Ok [("scope", VNull); ("query", VObj [("active", VBool true)])])
    s0 []
    [(CheckScopeAuthority VNull (Some "onlyActive")
        (Some (StaticScope [("active", VBool true)])), Resolved (VBool true))].
Proof.
  apply (falsy_scope_means_defaults example VNull [("scope", VNull)] s0
           [VBool true] []).
  - reflexivity.
  - discriminate.
  - reflexivity.
Defined.

Lemma static_scopes_keep_the_query_witness :
  exists q,
    reduce_scopes example VNull ["onlyActive"]
      (VObj [("status", VNum 1)]) = Returns (VObj q) /\
    Obj.get "status" q = VNum 1 /\
    Obj.get "active" q = VBool true.
Proof.
  destruct (static_scopes_keep_the_query example VNull ["onlyActive"]
              [("status", VNum 1)] eq_refl) as (q & Hq & Hkeep & Hfill).
  exists q. split; [exact Hq|]. split.
  - apply (Hkeep "status"); [discriminate | reflexivity].
  - exact (Hfill "active" eq_refl eq_refl eq_refl).
Defined.

Definition pooled : State := mkState [mkItem "a" O 1000] [] 2000 1 [].

Lemma pooled_adapter_is_reused_witness :
  exists s',
    exec (getAdapter example 3 (forTenant "a")) pooled [] =
    Finished (Ok O) s' [] [] /\
    Pool.get "a" (adapters s') = Some (mkItem "a" O 2000) /\
    map hash (adapters s') = ["a"] /\
    map adapter_of (adapters s') = [O] /\
    nextAdapter s' = 1%nat /\
    emitted s' = [].
Proof.
  exact (pooled_adapter_is_reused example 3 (forTenant "a") pooled []
           (mkItem "a" O 1000) eq_refl).
Defined.

Lemma created_adapter_is_pooled_witness :
  O = O /\
  Pool.get "a" [mkItem "a" O 1000] = Some (mkItem "a" O 1000) /\
  forall rs2, exists s2,
    exec (getAdapter example 3 (forTenant "a"))
         (mkState [mkItem "a" O 1000] [] 1000 1 []) rs2 =
    Finished (Ok O) s2 rs2 [].
Proof.
  apply (created_adapter_is_pooled example 3 (forTenant "a") s0 [yes] O
           (mkState [mkItem "a" O 1000] [] 1000 1 []) []
           [(AdapterCall O connect [], yes)]).
  - reflexivity.
  - constructor.
  - constructor.
  - reflexivity.
Defined.
Lemma notifications_with_the_cache_on_witness :
  exists s',
    exec (_entityChanged cached "create" ann_out VNull []) s0 [] =
    Finished (Ok tt) s' [] [] /\
    same_but_events s0 s'
      [notice VNull (VStr "broadcast") (VStr "cache.clean.posts") "create" ann_out [];
       notice VNull (VStr "broadcast") (VStr "posts.created") "create" ann_out []].
Proof.
  apply (notifications_with_the_cache_on cached cache_on_opts "create" ann_out VNull
           [] s0 [] eq_refl).
  - right. right. reflexivity.
  - right. right. reflexivity.
Defined.

Definition draft : value := VObj [("fullName", VStr "Ann")].
Definition checked : value := VObj [("full_name", VStr "Ann")].

Lemma create_validates_inserts_notifies_witness :
  exists s2,
    exec (createEntity cached 3 VNull draft []) s0
         [yes; Resolved checked; Resolved ann; Resolved ann_out] =
    Finished (Ok ann_out) s2 []
      ([(AdapterCall O connect [], yes)] ++
       [(ValidateParams VNull draft (validateOpts cached [] "create" None O),
         Resolved checked);
        (AdapterCall O insert [checked], Resolved ann)] ++
       transform_trace [] O ann ann_out VNull) /\
    same_but_events (mkState [mkItem "default" O 1000] [] 1000 1 []) s2
      (cache_notices cached cache_on_opts VNull "create" ann_out [] ++
       lifecycle_notices cached VNull "create" ann_out []).
Proof.
  exact (proj1 (create_validates_inserts_notifies cached 3 cache_on_opts VNull draft []
                  s0 [yes; Resolved checked; Resolved ann; Resolved ann_out] O
                  (mkState [mkItem "default" O 1000] [] 1000 1 [])
                  [(AdapterCall O connect [], yes)] [] eq_refl)
               checked ann ann_out eq_refl).
Defined.

(** A replacement that carries the identifier under both names. *)
Definition replacement : obj :=
  [("id", VNum 7); ("_id", VNum 7); ("fullName", VStr "Bea")].

Definition replacing : list response :=
  [Resolved (VBool true); yes; Resolved (VArr [ann]); Resolved (VObj replacement);
   Resolved ann].

Lemma writes_carry_no_identifier_witness :
  (replaceById = updateById \/ replaceById = replaceById) /\
  exists p rest,
    [VNum 7; VObj [("fullName", VStr "Bea")]] =
    _sanitizeID example (Obj.get (name (primaryField example)) replacement) []
      :: VObj p :: rest /\
    Obj.has (name (primaryField example)) p = false /\
    Obj.has (columnName (primaryField example)) p = false.
Proof.
  apply (writes_carry_no_identifier example 3 Replace VNull replacement [] s0 replacing
           O replaceById [VNum 7; VObj [("fullName", VStr "Bea")]] (Resolved ann)).
  - discriminate.
  - vm_compute. auto 10.
  - reflexivity.
Defined.

Lemma missing_id_is_refused_witness :
  exec (removeEntity example 3 VNull [("fullName", VStr "Ann")] []) s0 [yes] =
  Finished
    (Err (MoleculerClientError "Missing id field." 400 "MISSING_ID"
            [("params", VObj [("fullName", VStr "Ann")])]))
    s0 [yes] [].
Proof.
  exact (proj1 (proj2 (proj2 (missing_id_is_refused example 3 VNull
                                [("fullName", VStr "Ann")] [] s0 [yes] eq_refl)))).
Defined.

Lemma resolve_returns_first_or_all_witness :
  exists tr2,
    exec (resolveEntities example 3 VNull byId []) s0
         [Resolved (VBool true); yes; Resolved (VArr [ann]); Resolved (VArr [ann_out])] =
    Finished (Ok ann_out) (mkState [mkItem "default" O 1000] [] 1000 1 []) [] tr2 /\
    In (AdapterCall O find (lookup_args []), Resolved (VArr [ann])) tr2.
Proof.
  apply (resolve_returns_first_or_all example 3 VNull byId [] s0
           [Resolved (VBool true); yes; Resolved (VArr [ann]); Resolved (VArr [ann_out])]
           O [("id", VNum 7);
              ("query", VObj [("active", VBool true); ("_id", VNum 7)])]
           (mkState [mkItem "default" O 1000] [] 1000 1 [])
           [(CheckScopeAuthority VNull (Some "onlyActive")
               (Some (StaticScope [("active", VBool true)])), Resolved (VBool true));
            (AdapterCall O connect [], yes)]
           [ann] VUndefined [ann_out] []).
  - reflexivity.
  - vm_compute. reflexivity.
  - discriminate.
  - discriminate.
Defined.

Lemma create_many_inserts_in_order_witness :
  exists s2,
    exec (createEntities cached 3 VNull [draft; draft] []) s0
         [yes; Resolved checked; Resolved checked; Resolved (VNum 2)] =
    Finished (Ok (VNum 2)) s2 []
      ([(AdapterCall O connect [], yes)] ++
       validations VNull (validateOpts cached [] "create" None O) [draft; draft]
         [checked; checked] ++
       [(AdapterCall O insertMany
           [VArr [checked; checked]; VObj [("returnEntities", VUndefined)]],
         Resolved (VNum 2))] ++ []) /\
    same_but_events (mkState [mkItem "default" O 1000] [] 1000 1 []) s2
      (cache_notices cached cache_on_opts VNull "create" (VNum 2)
         [("batch", VBool true)] ++
       lifecycle_notices cached VNull "create" (VNum 2) [("batch", VBool true)]).
Proof.
  exact (create_many_inserts_in_order cached 3 cache_on_opts VNull [draft; draft] []
           s0 [yes; Resolved checked; Resolved checked; Resolved (VNum 2)] O
           (mkState [mkItem "default" O 1000] [] 1000 1 [])
           [(AdapterCall O connect [], yes)] [checked; checked] (VNum 2) VUndefined []
           eq_refl eq_refl eq_refl).
Defined.

(** A patch of one field. *)
Definition patch : obj := [("id", VNum 7); ("fullName", VStr "Bea")].
Definition bea : value := VObj [("_id", VNum 7); ("full_name", VStr "Bea")].
Definition bea_out : value := VObj [("id", VNum 7); ("fullName", VStr "Bea")].

Lemma update_applies_changes_witness :
  exists s2,
    exec (updateEntity cached 3 VNull patch []) s0
         [yes; Resolved (VBool true); Resolved (VArr [ann]); Resolved (VObj patch);
          Resolved bea; Resolved bea_out] =
    Finished (Ok bea_out) s2 []
      ([(AdapterCall O connect [], yes);
        (CheckScopeAuthority VNull (Some "onlyActive")
           (Some (StaticScope [("active", VBool true)])), Resolved (VBool true));
        (AdapterCall O find (lookup_args [("fullName", VStr "Bea")]),
         Resolved (VArr [ann]));
        (ValidateParams VNull (VObj patch)
           (validateOpts cached [] "update" (Some ann) O), Resolved (VObj patch))] ++
       [(AdapterCall O updateById
           [VNum 7; VObj [("fullName", VStr "Bea")]; VObj [("raw", VBool false)]],
         Resolved bea)] ++
       transform_trace [] O bea bea_out VNull) /\
    same_but_events (mkState [mkItem "default" O 1000] [] 1000 1 []) s2
      (cache_notices cached cache_on_opts VNull "update" bea_out [] ++
       lifecycle_notices cached VNull "update" bea_out []).
Proof.
  apply (update_applies_changes cached 3 cache_on_opts VNull patch [] s0
           [yes; Resolved (VBool true); Resolved (VArr [ann]); Resolved (VObj patch);
            Resolved bea; Resolved bea_out]
           O (VNum 7) ann patch (mkState [mkItem "default" O 1000] [] 1000 1 [])
           [(AdapterCall O connect [], yes);
            (CheckScopeAuthority VNull (Some "onlyActive")
               (Some (StaticScope [("active", VBool true)])), Resolved (VBool true));
            (AdapterCall O find (lookup_args [("fullName", VStr "Bea")]),
         Resolved (VArr [ann]));
            (ValidateParams VNull (VObj patch)
               (validateOpts cached [] "update" (Some ann) O), Resolved (VObj patch))]
           bea bea_out []).
  - reflexivity.
  - vm_compute. reflexivity.
  - discriminate.
Defined.

Lemma clear_notifies_witness :
  exists s2,
    exec (clearEntities cached 3 VNull VUndefined) s0 [yes; Resolved (VNum 5)] =
    Finished (Ok (VNum 5)) s2 []
             ([(AdapterCall O connect [], yes)] ++
              [(AdapterCall O clear [VUndefined], Resolved (VNum 5))]) /\
    same_but_events (mkState [mkItem "default" O 1000] [] 1000 1 []) s2
      (cache_notices cached cache_on_opts VNull "clear" VNull [] ++
       lifecycle_notices cached VNull "clear" VNull []).
Proof.
  exact (clear_notifies cached 3 cache_on_opts VNull VUndefined s0
           [yes; Resolved (VNum 5)] O (mkState [mkItem "default" O 1000] [] 1000 1 [])
           [(AdapterCall O connect [], yes)] (Resolved (VNum 5)) [] eq_refl eq_refl).
Defined.
